(** * Easy Ads front end: campaign form, status polling and image gallery

    A shallow embedding of the React components of the repository

      - [CampaignForm.jsx]  (module [CampaignForm])
      - [ImageGallery.jsx]  (module [ImageGallery])
      - [App.jsx]           (module [App]; in the sources it follows the
                             [Background3D] component in one file, and the
                             line numbers quoted below are those of that
                             file)

    together with the fragment of JavaScript they rely on (module [JS]):
    strings as sequences of UTF-16 code units, [String.prototype.trim] and
    [String.prototype.includes], truthiness, [&&] and [||] on values, arrays
    with empty slots, and exceptions as an error monad.

    Component state is threaded explicitly.  An asynchronous handler is
    split where it waits for a response: the part that runs up to the
    request, and the continuation that runs when the response has arrived
    and its body was read, so that the event loop may interleave other
    events in between. *)

From Stdlib Require Import NArith List Bool Ascii String Lia.
From stdpp Require Import base option list strings gmap.
Import ListNotations.

(* ===================================================================== *)
(** ** The JavaScript fragment                                            *)
(* ===================================================================== *)

Module JS.

(** A JavaScript string is a sequence of UTF-16 code units. *)
Definition jstring : Type := list N.

(** A source literal made of ASCII characters. *)
Definition lit (s : string) : jstring :=
  map (fun c => N.of_nat (nat_of_ascii c)) (list_ascii_of_string s).

Definition jstring_eqb (a b : jstring) : bool := bool_decide (a = b).

(** ECMAScript [WhiteSpace] and [LineTerminator] code points, the ones
    [trim] strips: TAB, VT, FF, SP, NBSP, ZWNBSP, the category Zs,
    LF, CR, LS and PS.  All of them are single code units. *)
Definition is_whitespace (c : N) : bool :=
  let inb x := N.eqb c x in
  (inb 0x0009 || inb 0x000A || inb 0x000B || inb 0x000C || inb 0x000D
   || inb 0x0020 || inb 0x00A0 || inb 0x1680
   || (N.leb 0x2000 c && N.leb c 0x200A)
   || inb 0x2028 || inb 0x2029 || inb 0x202F || inb 0x205F
   || inb 0x3000 || inb 0xFEFF)%N.

(** [trimStart]: drop the leading white space. *)
Fixpoint trimStart (s : jstring) : jstring :=
  match s with
  | [] => []
  | c :: s' => if is_whitespace c then trimStart s' else s
  end.

(** [trimEnd]: drop the trailing white space. *)
Fixpoint trimEnd (s : jstring) : jstring :=
  match s with
  | [] => []
  | c :: s' =>
      match trimEnd s' with
      | [] => if is_whitespace c then [] else [c]
      | t => c :: t
      end
  end.

(** [String.prototype.trim]. *)
Definition trim (s : jstring) : jstring := trimEnd (trimStart s).

(** [p] is a prefix of [s], code unit by code unit. *)
Fixpoint startsWith (s p : jstring) : bool :=
  match p, s with
  | [], _ => true
  | _ :: _, [] => false
  | a :: p', b :: s' => N.eqb a b && startsWith s' p'
  end.

(** [String.prototype.includes]: [p] occurs somewhere in [s]. *)
Fixpoint includes (s p : jstring) : bool :=
  startsWith s p ||
  match s with
  | [] => false
  | _ :: s' => includes s' p
  end.

(** The values that flow through the components' optional fields
    (JSON fields that may be missing, [null], a boolean or a string). *)
Inductive value : Type :=
| VUndefined
| VNull
| VBool (b : bool)
| VStr (s : jstring).

#[global] Instance value_eq_dec : EqDecision value.
Proof. solve_decision. Defined.

(** [ToBoolean]. *)
Definition truthy (v : value) : bool :=
  match v with
  | VUndefined | VNull => false
  | VBool b => b
  | VStr s => negb (jstring_eqb s [])
  end.

(** [a && b] and [a || b] (both operands already evaluated; the right
    operands used by the components have no effect). *)
Definition js_and (a b : value) : value := if truthy a then b else a.
Definition js_or (a b : value) : value := if truthy a then a else b.

(** [String(v)], as template literals and [new Error(v)] apply it. *)
Definition to_string (v : value) : jstring :=
  match v with
  | VUndefined => lit "undefined"
  | VNull => lit "null"
  | VBool true => lit "true"
  | VBool false => lit "false"
  | VStr s => s
  end.

(** Strict equality [===] on these values. *)
Definition strict_eq (a b : value) : bool :=
  match a, b with
  | VUndefined, VUndefined => true
  | VNull, VNull => true
  | VBool x, VBool y => Bool.eqb x y
  | VStr x, VStr y => jstring_eqb x y
  | _, _ => false
  end.

(** Abrupt completion: the code either returns or throws an [Error]
    whose [message] is recorded. *)
Inductive completion (A : Type) : Type :=
| Normal (a : A)
| Throw (message : jstring).
Arguments Normal {A} a.
Arguments Throw {A} message.

Definition bind {A B} (c : completion A) (k : A -> completion B) : completion B :=
  match c with
  | Normal a => k a
  | Throw m => Throw m
  end.

(** An array element, as [Array.prototype.filter] and spread see it:
    an index may be an empty slot (a hole), or hold a value. *)
Abbreviation array A := (list (option A)) (only parsing).

(** [[...a]]: the iterator reads every index below [length], so holes
    come out as [undefined]. *)
Definition spread {A} (undef : A) (a : array A) : array A :=
  map (fun x => Some (default undef x)) a.

(** [a.filter(f)]: visits the indices in order, skips holes, keeps the
    elements on which [f(element, index)] is truthy; the result is dense.
    Stops at the first exception. *)
Fixpoint filter_from {A} (f : A -> nat -> completion bool) (i : nat)
    (a : array A) : completion (array A) :=
  match a with
  | [] => Normal []
  | None :: a' => filter_from f (S i) a'
  | Some x :: a' =>
      bind (f x i) (fun keep =>
      bind (filter_from f (S i) a') (fun r =>
      Normal (if keep then Some x :: r else r)))
  end.

Definition array_filter {A} (f : A -> nat -> completion bool) (a : array A)
    : completion (array A) :=
  filter_from f 0 a.

(** The same method when the callback cannot throw. *)
Fixpoint filter_total_from {A} (f : A -> nat -> bool) (i : nat)
    (a : array A) : array A :=
  match a with
  | [] => []
  | None :: a' => filter_total_from f (S i) a'
  | Some x :: a' =>
      if f x i then Some x :: filter_total_from f (S i) a'
      else filter_total_from f (S i) a'
  end.

Definition array_filter_total {A} (f : A -> nat -> bool) (a : array A)
    : array A :=
  filter_total_from f 0 a.

(** [a[i] = x] on a fresh copy: inside the array it replaces the
    element, past the end it grows the array, leaving holes between the
    old end and [i]. *)
Definition array_set {A} (i : nat) (x : A) (a : array A) : array A :=
  if decide (i < length a) then <[i := Some x]> a
  else a ++ replicate (i - length a) None ++ [Some x].

End JS.

(* ===================================================================== *)
(** ** JSON shapes exchanged with the backend                             *)
(* ===================================================================== *)

Module Api.
Import JS.

(** The object [handleSubmit] hands to [onGenerate], posted as the body
    of [POST /api/generate].  [brand_name] and [campaign_message] are a
    string or [null] ([None]). *)
Record CampaignRequest : Type := {
  products : array value;
  target_market : jstring;
  target_audience : jstring;
  brand_name : option jstring;
  campaign_message : option jstring
}.

(** [GET /api/status/{job_id}]: [{job_id, status, progress?, error?}]. *)
Record JobStatus : Type := {
  job_id : value;
  status : value;
  progress : option (value * value);   (* step, progress *)
  error : value
}.

(** One entry of [images] in the result. *)
Record Image : Type := {
  aspect_ratio : value;
  url : value;
  path : value;
  size : option (N * N)
}.

(** [GET /api/images/{job_id}]. *)
Record GenerationResult : Type := {
  result_brand_name : value;
  result_campaign_message : value;
  translated_campaign_message : value;
  images : option (list Image)
}.

(** [POST /api/check-compliance] response. *)
Record ComplianceVerdict : Type := {
  compliance_status : value;
  brand_name_found : value;
  logo_visible : value;
  logo_description : value;
  detected_text : option (list jstring);
  compliance_notes : value
}.

(** The HTTP requests the client issues with [fetch]. *)
Inductive request : Type :=
| PostGenerate (body : CampaignRequest)
| GetStatus (jobId : value)
| GetImages (jobId : value)
| PostCheckCompliance (image_paths : list value) (brand : value)
    (message : value).

(** What [await response.json()] gives: the parsed body, or a rejection. *)
Inductive body (A : Type) : Type :=
| Json (a : A)
| BadJson (message : jstring).
Arguments Json {A} a.
Arguments BadJson {A} message.

(** What [await fetch(...)] gives: a rejection (network error), or a
    response whose [ok] flag is false or true.  [E] is the shape of an
    error body, [A] the shape of a success body. *)
Inductive response (E A : Type) : Type :=
| NetworkError (message : jstring)
| HttpError (b : body E)
| HttpOk (b : body A).
Arguments NetworkError {E A} message.
Arguments HttpError {E A} b.
Arguments HttpOk {E A} b.

(** An error body [{detail}] of the backend. *)
Record ErrorData : Type := { detail : value }.

(** The success body of [POST /api/generate]; only [job_id] is read. *)
Record GenerateAccepted : Type := { accepted_job_id : value }.

End Api.

(* ===================================================================== *)
(** ** CampaignForm.jsx                                                   *)
(* ===================================================================== *)

Module CampaignForm.
Import JS.

(** The component's [useState] cells. *)
Record state : Type := {
  products : array value;
  targetMarket : jstring;
  targetAudience : jstring;
  brandName : jstring;
  campaignMessage : jstring;
  errors : gmap string jstring
}.

Definition setProducts (ps : array value) (st : state) : state :=
  {| products := ps; targetMarket := targetMarket st;
     targetAudience := targetAudience st; brandName := brandName st;
     campaignMessage := campaignMessage st; errors := errors st |}.

Definition setErrors (e : gmap string jstring) (st : state) : state :=
  {| products := products st; targetMarket := targetMarket st;
     targetAudience := targetAudience st; brandName := brandName st;
     campaignMessage := campaignMessage st; errors := e |}.

(** [s || d] for a string [s]. *)
Definition str_or (s d : jstring) : jstring :=
  if truthy (VStr s) then s else d.

(** [initialData?.field || d] for a field that is a string or [null]. *)
Definition field_or (f : option jstring) (d : jstring) : jstring :=
  match f with
  | Some s => str_or s d
  | None => d
  end.

(** Lines 5-20: the initial values of the state cells.  An array is
    always truthy, so [initialData.products || ['', '']] is
    [initialData.products] whenever [initialData] is an object. *)
Definition initial (initialData : option Api.CampaignRequest) : state :=
  match initialData with
  | None =>
      {| products := [Some (VStr []); Some (VStr [])];
         targetMarket := lit "US"; targetAudience := [];
         brandName := []; campaignMessage := []; errors := ∅ |}
  | Some d =>
      {| products := Api.products d;
         targetMarket := str_or (Api.target_market d) (lit "US");
         targetAudience := str_or (Api.target_audience d) [];
         brandName := field_or (Api.brand_name d) [];
         campaignMessage := field_or (Api.campaign_message d) [];
         errors := ∅ |}
  end.

(** Lines 28-30. *)
Definition addProduct (st : state) : state :=
  setProducts (spread VUndefined (products st) ++ [Some (VStr [])]) st.

(** Lines 32-36. *)
Definition removeProduct (index : nat) (st : state) : state :=
  if decide (2 < length (products st)) then
    setProducts
      (array_filter_total (fun _ i => negb (Nat.eqb i index)) (products st)) st
  else st.

(** Lines 38-42. *)
Definition updateProduct (index : nat) (v : jstring) (st : state) : state :=
  let newProducts := spread VUndefined (products st) in
  setProducts (array_set index (VStr v) newProducts) st.

(** [p.trim] on something that is not a string. *)
Definition TypeError_trim : jstring := lit "TypeError: cannot read trim".

(** The callback [p => p.trim() !== ''] of lines 47 and 71. *)
Definition nonblank (p : value) (_ : nat) : completion bool :=
  match p with
  | VStr s => Normal (negb (jstring_eqb (trim s) []))
  | _ => Throw TypeError_trim
  end.

(** Lines 44-62.  Returns the state after [setErrors] and the boolean
    that [validate] returns. *)
Definition validate (st : state) : completion (state * bool) :=
  bind (array_filter nonblank (products st)) (fun validProducts =>
  let newErrors : gmap string jstring := ∅ in
  let newErrors :=
    if decide (length validProducts < 2)
    then <["products" := lit "At least 2 products are required"]> newErrors
    else newErrors in
  let newErrors :=
    if negb (truthy (VStr (trim (targetMarket st))))
    then <["targetMarket" := lit "Target market is required"]> newErrors
    else newErrors in
  let newErrors :=
    if negb (truthy (VStr (trim (targetAudience st))))
    then <["targetAudience" := lit "Target audience is required"]> newErrors
    else newErrors in
  Normal (setErrors newErrors st, Nat.eqb (size newErrors) 0)).

(** [s.trim() || null]. *)
Definition trim_or_null (s : jstring) : option jstring :=
  if truthy (VStr (trim s)) then Some (trim s) else None.

(** Lines 64-79.  Returns the next state and the list of calls made to
    the [onGenerate] prop, in order (none or one). *)
Definition handleSubmit (st : state)
    : completion (state * list Api.CampaignRequest) :=
  bind (validate st) (fun '(st', ok) =>
  if negb ok then Normal (st', [])
  else
    bind (array_filter nonblank (products st)) (fun validProducts =>
    Normal (st',
      [ {| Api.products := validProducts;
           Api.target_market := targetMarket st;
           Api.target_audience := targetAudience st;
           Api.brand_name := trim_or_null (brandName st);
           Api.campaign_message := trim_or_null (campaignMessage st) |} ]))).

(** What lines 100-127 render for the products section. *)
Inductive control : Type :=
| ProductInput (index : nat) (product : value)
| RemoveButton (index : nat)
| AddButton.

(** [products.map((product, index) => ...)] visits the indices that hold
    an element; the remove button is there when [products.length > 2]. *)
Definition product_controls (st : state) : list control :=
  concat (imap (fun index slot =>
    match slot with
    | None => []
    | Some product =>
        ProductInput index product ::
        (if decide (2 < length (products st)) then [RemoveButton index] else [])
    end) (products st))
  ++ [AddButton].

(** The user events wired to those controls ([onChange], [onClick]). *)
Inductive event : Type :=
| Change (index : nat) (v : jstring)
| ClickRemove (index : nat)
| ClickAdd.

Definition handle (ev : event) (st : state) : state :=
  match ev with
  | Change index v => updateProduct index v st
  | ClickRemove index => removeProduct index st
  | ClickAdd => addProduct st
  end.

Definition run (evs : list event) (st : state) : state :=
  fold_left (fun s ev => handle ev s) evs st.

End CampaignForm.

(* ===================================================================== *)
(** ** ImageGallery.jsx                                                   *)
(* ===================================================================== *)

Module ImageGallery.
Import JS.

(** The props handed over by [App]. *)
Record props : Type := {
  images : option (list Api.Image);
  apiBaseUrl : jstring;
  brandName : value;
  campaignMessage : value
}.

(** The component's [useState] cells.  The three compliance objects are
    keyed by the index passed to [handleCheckCompliance]; a key that was
    never written reads as [undefined] ([None]).  A stored [null] is
    [Some None]. *)
Record state : Type := {
  selectedAspectRatio : value;
  complianceLoading : gmap nat bool;
  complianceResults : gmap nat (option Api.ComplianceVerdict);
  complianceErrors : gmap nat (option jstring)
}.

Definition initial : state :=
  {| selectedAspectRatio := VNull; complianceLoading := ∅;
     complianceResults := ∅; complianceErrors := ∅ |}.

Definition setSelectedAspectRatio (r : value) (st : state) : state :=
  {| selectedAspectRatio := r; complianceLoading := complianceLoading st;
     complianceResults := complianceResults st;
     complianceErrors := complianceErrors st |}.

(** The setters are called with updater functions [prev => ...]. *)
Definition setComplianceLoading (f : gmap nat bool -> gmap nat bool)
    (st : state) : state :=
  {| selectedAspectRatio := selectedAspectRatio st;
     complianceLoading := f (complianceLoading st);
     complianceResults := complianceResults st;
     complianceErrors := complianceErrors st |}.

Definition setComplianceResults
    (f : gmap nat (option Api.ComplianceVerdict) ->
         gmap nat (option Api.ComplianceVerdict))
    (st : state) : state :=
  {| selectedAspectRatio := selectedAspectRatio st;
     complianceLoading := complianceLoading st;
     complianceResults := f (complianceResults st);
     complianceErrors := complianceErrors st |}.

Definition setComplianceErrors
    (f : gmap nat (option jstring) -> gmap nat (option jstring))
    (st : state) : state :=
  {| selectedAspectRatio := selectedAspectRatio st;
     complianceLoading := complianceLoading st;
     complianceResults := complianceResults st;
     complianceErrors := f (complianceErrors st) |}.

(** Lines 20-29. *)
Definition getImageUrl (p : props) (image : Api.Image) : option jstring :=
  if truthy (Api.url image)
  then Some (apiBaseUrl p ++ to_string (Api.url image))
  else if truthy (Api.path image)
  then Some (apiBaseUrl p ++ lit "/outputs/" ++ to_string (Api.path image))
  else None.

(** Lines 31-33, on the array that passed the guard of line 10. *)
Definition filteredImages (sel : value) (imgs : list Api.Image)
    : list Api.Image :=
  if truthy sel
  then List.filter (fun img => strict_eq (Api.aspect_ratio img) sel) imgs
  else imgs.

(** Lines 35-59: [handleCheckCompliance] up to its [await fetch].
    Returns the next state and the request issued, if any. *)
Definition handleCheckCompliance_start (p : props) (imagePath : value)
    (imageIndex : nat) (st : state) : state * option Api.request :=
  if negb (truthy (brandName p)) || negb (truthy imagePath) then
    (setComplianceErrors
       (fun prev => <[imageIndex := Some (lit "Missing brand name or image")]> prev)
       st,
     None)
  else
    let st := setComplianceLoading (fun prev => <[imageIndex := true]> prev) st in
    let st := setComplianceErrors (fun prev => <[imageIndex := None]> prev) st in
    let st := setComplianceResults (fun prev => <[imageIndex := None]> prev) st in
    (st, Some (Api.PostCheckCompliance [imagePath] (brandName p)
                 (campaignMessage p))).

(** Lines 61-67: the [try] block after the response arrived. *)
Definition check_outcome
    (r : Api.response Api.ErrorData Api.ComplianceVerdict)
    : completion Api.ComplianceVerdict :=
  match r with
  | Api.NetworkError m => Throw m
  | Api.HttpError (Api.BadJson m) => Throw m
  | Api.HttpError (Api.Json errorData) =>
      Throw (to_string (js_or (Api.detail errorData)
                          (VStr (lit "Failed to check compliance"))))
  | Api.HttpOk (Api.BadJson m) => Throw m
  | Api.HttpOk (Api.Json result) => Normal result
  end.

(** Lines 61-73: the continuation of [handleCheckCompliance] once the
    response is in: [try] / [catch] / [finally]. *)
Definition handleCheckCompliance_finish (imageIndex : nat)
    (r : Api.response Api.ErrorData Api.ComplianceVerdict)
    (st : state) : state :=
  let st :=
    match check_outcome r with
    | Normal result =>
        setComplianceResults (fun prev => <[imageIndex := Some result]> prev) st
    | Throw message =>
        setComplianceErrors (fun prev => <[imageIndex := Some message]> prev) st
    end in
  setComplianceLoading (fun prev => <[imageIndex := false]> prev) st.

(** One [gallery-item] of lines 106-182: the image, the index it was
    rendered at, and what it shows of the compliance state. *)
Record item : Type := {
  item_index : nat;
  item_image : Api.Image;
  item_url : jstring;
  (** the compliance button: the arguments of its [onClick] *)
  item_check : option (value * nat);
  item_loading : option bool;
  item_error : option (option jstring);
  item_result : option (option Api.ComplianceVerdict)
}.

(** Lines 102-183: [filteredImages.map((image, index) => ...)]; an image
    without a location renders as [null] ([None]). *)
Definition gallery_grid (p : props) (st : state) (imgs : list Api.Image)
    : list (option item) :=
  imap (fun index image =>
    match getImageUrl p image with
    | None => None
    | Some imageUrl =>
        Some {| item_index := index; item_image := image;
                item_url := imageUrl;
                item_check :=
                  if truthy (brandName p)
                  then Some (Api.path image, index) else None;
                item_loading := complianceLoading st !! index;
                item_error := complianceErrors st !! index;
                item_result := complianceResults st !! index |}
    end) (filteredImages (selectedAspectRatio st) imgs).

(** Lines 10-16 and 76-185: without images the component shows the
    notice 'No images generated yet.' ([None]), otherwise the grid. *)
Definition render (p : props) (st : state) : option (list (option item)) :=
  match images p with
  | None | Some [] => None
  | Some imgs => Some (gallery_grid p st imgs)
  end.

(** The events of the component: a filter button, a compliance button
    (with the arguments the rendered item passes), and the arrival of a
    compliance response for the check started at [imageIndex]. *)
Inductive event : Type :=
| SelectRatio (r : value)
| CheckCompliance (imagePath : value) (imageIndex : nat)
| ComplianceResponse (imageIndex : nat)
    (r : Api.response Api.ErrorData Api.ComplianceVerdict).

Definition handle (p : props) (ev : event) (st : state)
    : state * option Api.request :=
  match ev with
  | SelectRatio r => (setSelectedAspectRatio r st, None)
  | CheckCompliance imagePath imageIndex =>
      handleCheckCompliance_start p imagePath imageIndex st
  | ComplianceResponse imageIndex r =>
      (handleCheckCompliance_finish imageIndex r st, None)
  end.

End ImageGallery.

(* ===================================================================== *)
(** ** App.jsx                                                            *)
(* ===================================================================== *)

Module App.
Import JS.

(** The object stored by [setError]. *)
Record ErrorInfo : Type := {
  message : value;
  isSensitiveContent : value
}.

(** The component's [useState] cells (lines 120-124). *)
Record state : Type := {
  jobId : value;
  jobStatus : option Api.JobStatus;
  generatedImages : option Api.GenerationResult;
  error : option ErrorInfo;
  lastCampaignData : option Api.CampaignRequest
}.

(** An interval timer made by [setInterval] at line 130: its handle, its
    period in milliseconds and the [jobId] its callback closes over. *)
Record timer : Type := {
  timer_id : nat;
  delay : N;
  timer_jobId : value
}.

(** A handler suspended at an [await fetch(...)], with what it closes
    over: [handleGenerate] at line 173, the poll callback at line 132 and
    at line 141. *)
Inductive pending : Type :=
| AwaitGenerate
| AwaitStatus (pollInterval : nat) (jobId : value)
| AwaitImages (pollInterval : nat) (jobId : value).

(** The component together with what the browser holds for it: the
    interval registered by the current effect, the handle the next
    [setInterval] will return, the suspended handlers, and the requests
    sent so far (oldest first). *)
Record world : Type := {
  cells : state;
  interval : option timer;
  next_timer : nat;
  inflight : list pending;
  sent : list Api.request
}.

Definition initial : world :=
  {| cells := {| jobId := VNull; jobStatus := None; generatedImages := None;
                 error := None; lastCampaignData := None |};
     interval := None; next_timer := 0; inflight := []; sent := [] |}.

Definition with_cells (f : state -> state) (w : world) : world :=
  {| cells := f (cells w); interval := interval w; next_timer := next_timer w;
     inflight := inflight w; sent := sent w |}.

Definition setJobStatus (v : option Api.JobStatus) : world -> world :=
  with_cells (fun c =>
    {| jobId := jobId c; jobStatus := v; generatedImages := generatedImages c;
       error := error c; lastCampaignData := lastCampaignData c |}).

Definition setGeneratedImages (v : option Api.GenerationResult) : world -> world :=
  with_cells (fun c =>
    {| jobId := jobId c; jobStatus := jobStatus c; generatedImages := v;
       error := error c; lastCampaignData := lastCampaignData c |}).

Definition setError (v : option ErrorInfo) : world -> world :=
  with_cells (fun c =>
    {| jobId := jobId c; jobStatus := jobStatus c;
       generatedImages := generatedImages c;
       error := v; lastCampaignData := lastCampaignData c |}).

Definition setLastCampaignData (v : option Api.CampaignRequest) : world -> world :=
  with_cells (fun c =>
    {| jobId := jobId c; jobStatus := jobStatus c;
       generatedImages := generatedImages c;
       error := error c; lastCampaignData := v |}).

(** [clearInterval(id)]: stops the timer with that handle; a handle that
    is no longer registered is ignored. *)
Definition clearInterval (id : nat) (w : world) : world :=
  match interval w with
  | Some t =>
      if Nat.eqb (timer_id t) id
      then {| cells := cells w; interval := None; next_timer := next_timer w;
              inflight := inflight w; sent := sent w |}
      else w
  | None => w
  end.

(** [setJobId(v)] together with the effect of lines 127-164, which React
    re-runs when [jobId] changed: the cleanup of line 163 clears the
    interval of the previous run, then the body registers a new interval
    of 2000 ms unless [jobId] is falsy (line 128). *)
Definition setJobId (v : value) (w : world) : world :=
  if decide (jobId (cells w) = v) then w
  else
    let c := cells w in
    let c' := {| jobId := v; jobStatus := jobStatus c;
                 generatedImages := generatedImages c; error := error c;
                 lastCampaignData := lastCampaignData c |} in
    if truthy v then
      {| cells := c';
         interval := Some {| timer_id := next_timer w; delay := 2000;
                             timer_jobId := v |};
         next_timer := S (next_timer w);
         inflight := inflight w; sent := sent w |}
    else
      {| cells := c'; interval := None; next_timer := next_timer w;
         inflight := inflight w; sent := sent w |}.

(** [fetch(...)] followed by [await]: the request goes out and the
    handler is suspended. *)
Definition fetch (r : Api.request) (k : pending) (w : world) : world :=
  {| cells := cells w; interval := interval w; next_timer := next_timer w;
     inflight := inflight w ++ [k]; sent := sent w ++ [r] |}.

(** The suspended handler at position [k] resumes. *)
Definition resume (k : nat) (w : world) : world :=
  {| cells := cells w; interval := interval w; next_timer := next_timer w;
     inflight := delete k (inflight w); sent := sent w |}.

(** Lines 130-132: the interval fires and its callback runs up to the
    first [await]. *)
Definition poll (t : timer) (w : world) : world :=
  fetch (Api.GetStatus (timer_jobId t))
        (AwaitStatus (timer_id t) (timer_jobId t)) w.

(** Lines 153-160: the [catch] block of the poll callback. *)
Definition poll_catch (pollInterval : nat) (message : jstring) (w : world)
    : world :=
  setError (Some {| message := VStr message; isSensitiveContent := VBool false |})
           (clearInterval pollInterval w).

(** Lines 148-151: the object handed to [setError] for a failed status.
    [status.error && status.error.includes('sensitive')] yields the falsy
    [status.error] itself, or the result of [includes]; on a truthy value
    that is not a string the method call throws a [TypeError], whose
    [message] (here in V8's wording) is what the [catch] block stores. *)
Definition failure_info (err : value) : completion ErrorInfo :=
  let message := js_or err (VStr (lit "Generation failed")) in
  if truthy err then
    match err with
    | VStr s =>
        Normal {| message := message;
                  isSensitiveContent := VBool (includes s (lit "sensitive")) |}
    | _ => Throw (lit "status.error.includes is not a function")
    end
  else Normal {| message := message; isSensitiveContent := err |}.

(** Lines 132-152 after the status response arrived. *)
Definition on_status (pollInterval : nat) (job : value)
    (r : Api.response Api.ErrorData Api.JobStatus) (w : world) : world :=
  match r with
  | Api.NetworkError m => poll_catch pollInterval m w
  | Api.HttpError _ => poll_catch pollInterval (lit "Failed to fetch status") w
  | Api.HttpOk (Api.BadJson m) => poll_catch pollInterval m w
  | Api.HttpOk (Api.Json status) =>
      let w := setJobStatus (Some status) w in
      if strict_eq (Api.status status) (VStr (lit "completed")) then
        let w := clearInterval pollInterval w in
        fetch (Api.GetImages job) (AwaitImages pollInterval job) w
      else if strict_eq (Api.status status) (VStr (lit "failed")) then
        let w := clearInterval pollInterval w in
        match failure_info (Api.error status) with
        | Normal e => setError (Some e) w
        | Throw m => poll_catch pollInterval m w
        end
      else w
  end.

(** Lines 141-145 after the images response arrived. *)
Definition on_images (pollInterval : nat)
    (r : Api.response Api.ErrorData Api.GenerationResult) (w : world) : world :=
  match r with
  | Api.NetworkError m => poll_catch pollInterval m w
  | Api.HttpError _ => w
  | Api.HttpOk (Api.BadJson m) => poll_catch pollInterval m w
  | Api.HttpOk (Api.Json images) => setGeneratedImages (Some images) w
  end.

(** Lines 166-179: [handleGenerate] up to its [await fetch]. *)
Definition handleGenerate_start (campaignData : Api.CampaignRequest)
    (w : world) : world :=
  let w := setError None w in
  let w := setJobStatus None w in
  let w := setGeneratedImages None w in
  let w := setLastCampaignData (Some campaignData) w in
  fetch (Api.PostGenerate campaignData) AwaitGenerate w.

(** Lines 189-195: the [catch] block of [handleGenerate]. *)
Definition generate_catch (message : jstring) (w : world) : world :=
  setError (Some {| message := VStr message; isSensitiveContent := VBool false |}) w.

(** Lines 181-188 after the response arrived. *)
Definition on_generate
    (r : Api.response Api.ErrorData Api.GenerateAccepted) (w : world) : world :=
  match r with
  | Api.NetworkError m => generate_catch m w
  | Api.HttpError (Api.BadJson m) => generate_catch m w
  | Api.HttpError (Api.Json errorData) =>
      generate_catch
        (to_string (js_or (Api.detail errorData)
                      (VStr (lit "Failed to start generation")))) w
  | Api.HttpOk (Api.BadJson m) => generate_catch m w
  | Api.HttpOk (Api.Json result) =>
      let w := setJobId (Api.accepted_job_id result) w in
      setJobStatus
        (Some {| Api.job_id := VUndefined; Api.status := VStr (lit "pending");
                 Api.progress := None; Api.error := VUndefined |}) w
  end.

(** Lines 198-206. *)
Definition handleReset (clearData : bool) (w : world) : world :=
  let w := setJobId VNull w in
  let w := setJobStatus None w in
  let w := setGeneratedImages None w in
  let w := setError None w in
  if clearData then setLastCampaignData None w else w.

(** What can happen to the component: a form calls [onGenerate], a button
    wired to [handleReset] is clicked, the interval fires, or the response
    to the suspended handler at position [k] arrives. *)
Inductive event : Type :=
| Generate (campaignData : Api.CampaignRequest)
| Reset (clearData : bool)
| Tick
| GenerateResponse (k : nat) (r : Api.response Api.ErrorData Api.GenerateAccepted)
| StatusResponse (k : nat) (r : Api.response Api.ErrorData Api.JobStatus)
| ImagesResponse (k : nat) (r : Api.response Api.ErrorData Api.GenerationResult).

(** One turn of the event loop; [None] when the event cannot happen in
    [w] (no interval registered, or no such handler suspended). *)
Definition step (ev : event) (w : world) : option world :=
  match ev with
  | Generate campaignData => Some (handleGenerate_start campaignData w)
  | Reset clearData => Some (handleReset clearData w)
  | Tick =>
      match interval w with
      | Some t => Some (poll t w)
      | None => None
      end
  | GenerateResponse k r =>
      match inflight w !! k with
      | Some AwaitGenerate => Some (on_generate r (resume k w))
      | _ => None
      end
  | StatusResponse k r =>
      match inflight w !! k with
      | Some (AwaitStatus pollInterval job) =>
          Some (on_status pollInterval job r (resume k w))
      | _ => None
      end
  | ImagesResponse k r =>
      match inflight w !! k with
      | Some (AwaitImages pollInterval job) =>
          Some (on_images pollInterval r (resume k w))
      | _ => None
      end
  end.

Fixpoint run (evs : list event) (w : world) : option world :=
  match evs with
  | [] => Some w
  | ev :: evs' =>
      match step ev w with
      | Some w' => run evs' w'
      | None => None
      end
  end.

(** The buttons of the error and result views and what their [onClick]
    does (lines 279, 285, 296, 327; a click event object is truthy). *)
Inductive button : Type :=
| ModifyAndRetry
| StartOver
| TryAgain
| CreateNewCampaign.

Definition onClick (b : button) : event :=
  match b with
  | ModifyAndRetry => Reset false
  | StartOver => Reset true
  | TryAgain => Reset true
  | CreateNewCampaign => Reset true
  end.

(** What lines 215-339 put on the page. *)
Inductive element : Type :=
| Form (initialData : option Api.CampaignRequest)
| StatusCard (s : Api.JobStatus)
| ErrorCard (e : ErrorInfo) (buttons : list button)
| Results (g : Api.GenerationResult) (buttons : list button).

Definition render (c : state) : list element :=
  (if negb (truthy (jobId c)) && negb (bool_decide (is_Some (generatedImages c)))
      && negb (bool_decide (is_Some (error c)))
   then [Form None] else [])
  ++ (match jobStatus c with
      | Some s =>
          if truthy (jobId c)
             && negb (strict_eq (Api.status s) (VStr (lit "completed")))
          then [StatusCard s] else []
      | None => []
      end)
  ++ (match error c with
      | Some e =>
          ErrorCard e (if truthy (isSensitiveContent e)
                       then [ModifyAndRetry; StartOver] else [TryAgain])
          :: (if truthy (isSensitiveContent e)
              then match lastCampaignData c with
                   | Some d => [Form (Some d)]
                   | None => []
                   end
              else [])
      | None => []
      end)
  ++ (match generatedImages c with
      | Some g => [Results g [CreateNewCampaign]]
      | None => []
      end).

(** The state a rendered [CampaignForm] starts in when it is mounted. *)
Definition mounted_form (e : element) : option CampaignForm.state :=
  match e with
  | Form initialData => Some (CampaignForm.initial initialData)
  | _ => None
  end.

(** Lines 331-336: the props [App] hands to the gallery. *)
Definition gallery_props (API_BASE_URL : jstring) (g : Api.GenerationResult)
    : ImageGallery.props :=
  {| ImageGallery.images := Api.images g;
     ImageGallery.apiBaseUrl := API_BASE_URL;
     ImageGallery.brandName := Api.result_brand_name g;
     ImageGallery.campaignMessage :=
       js_or (Api.translated_campaign_message g) (Api.result_campaign_message g) |}.

End App.

(* ===================================================================== *)
(** ** Vocabulary of the statements                                       *)
(* ===================================================================== *)

Module Spec.
Import JS.

(** A slot of the products array that holds a string which is non-empty
    after trimming. *)
Definition is_nonblank (x : option value) : bool :=
  match x with
  | Some (VStr s) => negb (jstring_eqb (trim s) [])
  | _ => false
  end.

(** Every element of the array is a string (what the text inputs put
    there); empty slots are allowed. *)
Definition strings_only (a : array value) : Prop :=
  Forall (fun x => match x with
                   | None | Some (VStr _) => True
                   | Some _ => False
                   end) a.

(** No empty slot: what an array literal and [filter] produce. *)
Definition dense {A} (a : array A) : Prop := Forall is_Some a.

(** The number of elements the array holds (indices that are not holes);
    one product input is rendered for each. *)
Definition entries {A} (a : array A) : nat :=
  length (List.filter (fun x : option A => bool_decide (is_Some x)) a).

(** The invariant carried through the events of the products section:
    two elements at least, and three at least as soon as the remove
    branch is open. *)
Definition products_ok (a : array value) : Prop :=
  2 <= entries a /\ (3 <= length a -> 3 <= entries a).

(** The calls made to [onGenerate] by a run of [handleSubmit]; a run cut
    short by an exception has made none. *)
Definition onGenerate_calls
    (c : completion (CampaignForm.state * list Api.CampaignRequest))
    : list Api.CampaignRequest :=
  match c with
  | Normal (_, calls) => calls
  | Throw _ => []
  end.

(** A string that [trim] leaves alone. *)
Definition trimmed (s : jstring) : Prop := trim s = s.

(** An optional field that is absent ([null]) or a trimmed, non-empty
    string. *)
Definition trimmed_or_absent (f : option jstring) : Prop :=
  match f with
  | None => True
  | Some s => trimmed s /\ s <> []
  end.

(** The normal form the validator contract of the specification asks of
    an emitted request: every free-text field trimmed, blank optional
    fields absent. *)
Definition normalized (d : Api.CampaignRequest) : Prop :=
  Forall (fun x => exists s, x = Some (VStr s) /\ trimmed s) (Api.products d)
  /\ trimmed (Api.target_market d)
  /\ trimmed (Api.target_audience d)
  /\ trimmed_or_absent (Api.brand_name d)
  /\ trimmed_or_absent (Api.campaign_message d).

(** An image that carries a location, [url] or [path]. *)
Definition has_location (img : Api.Image) : Prop :=
  truthy (Api.url img) = true \/ truthy (Api.path img) = true.

(** The images of the gallery items that are on the page, in order. *)
Definition rendered_images (p : ImageGallery.props) (st : ImageGallery.state)
    : list Api.Image :=
  match ImageGallery.render p st with
  | Some grid =>
      omap (fun o : option ImageGallery.item => ImageGallery.item_image <$> o) grid
  | None => []
  end.

(** Counting the requests sent so far. *)
Definition is_status_request (r : Api.request) : bool :=
  match r with Api.GetStatus _ => true | _ => false end.

Definition is_images_request (r : Api.request) : bool :=
  match r with Api.GetImages _ => true | _ => false end.

Definition status_requests (w : App.world) : nat :=
  length (List.filter is_status_request (App.sent w)).

Definition images_requests (w : App.world) : nat :=
  length (List.filter is_images_request (App.sent w)).

(** The events that can bring a new job: the responses to
    [POST /api/generate]. *)
Definition accepts_job (ev : App.event) : bool :=
  match ev with App.GenerateResponse _ _ => true | _ => false end.

(** A status response whose body says [completed]. *)
Definition observes_completed (ev : App.event) : bool :=
  match ev with
  | App.StatusResponse _ (Api.HttpOk (Api.Json s)) =>
      strict_eq (Api.status s) (VStr (lit "completed"))
  | _ => false
  end.

Definition completed_observations (evs : list App.event) : nat :=
  length (List.filter observes_completed evs).

Definition awaits_status (k : App.pending) : bool :=
  match k with App.AwaitStatus _ _ => true | _ => false end.

(** The event loop of one job whose polls do not overlap: the interval
    fires only when no status request is in flight, responses arrive, and
    nothing else happens. *)
Definition sequential_step (ev : App.event) (w : App.world) : option App.world :=
  match ev with
  | App.Tick =>
      if existsb awaits_status (App.inflight w) then None
      else App.step App.Tick w
  | App.StatusResponse _ _ | App.ImagesResponse _ _ => App.step ev w
  | _ => None
  end.

Fixpoint sequential_run (evs : list App.event) (w : App.world)
    : option App.world :=
  match evs with
  | [] => Some w
  | ev :: evs' =>
      match sequential_step ev w with
      | Some w' => sequential_run evs' w'
      | None => None
      end
  end.

(** A world the component can be in: reached from the mount by some
    sequence of events. *)
Definition reachable (w : App.world) : Prop :=
  exists evs, App.run evs App.initial = Some w.

(** The blank campaign form. *)
Definition blank_form : CampaignForm.state :=
  {| CampaignForm.products := [Some (VStr []); Some (VStr [])];
     CampaignForm.targetMarket := lit "US";
     CampaignForm.targetAudience := [];
     CampaignForm.brandName := [];
     CampaignForm.campaignMessage := [];
     CampaignForm.errors := ∅ |}.

(** The status responses on which the poll callback clears its interval:
    a terminal status, or anything that ends in its [catch] block. *)
Definition stops_polling (r : Api.response Api.ErrorData Api.JobStatus) : bool :=
  match r with
  | Api.HttpOk (Api.Json s) =>
      strict_eq (Api.status s) (VStr (lit "completed"))
      || strict_eq (Api.status s) (VStr (lit "failed"))
  | _ => true
  end.

(** What holds of the registered interval in every reachable world: it
    has the period of line 161 and polls the job the component holds. *)
Definition interval_ok (w : App.world) : Prop :=
  forall t, App.interval w = Some t ->
    App.delay t = 2000%N
    /\ truthy (App.timer_jobId t) = true
    /\ App.timer_jobId t = App.jobId (App.cells w).

(** Polls that do not overlap: at most one status request in flight, sent
    by the registered interval; an images request in flight belongs to an
    interval that was cleared. *)
Definition polls_in_step (w : App.world) : Prop :=
  length (List.filter awaits_status (App.inflight w)) <= 1
  /\ (forall id job, In (App.AwaitStatus id job) (App.inflight w) ->
        exists t, App.interval w = Some t /\ App.timer_id t = id)
  /\ (forall id job t, In (App.AwaitImages id job) (App.inflight w) ->
        App.interval w = Some t -> App.timer_id t <> id).

End Spec.

(* ===================================================================== *)
(** ** Concrete inputs                                                    *)
(* ===================================================================== *)

Module Examples.
Import JS.

(** A form with a single usable product: the second input holds blanks. *)
Definition one_product_form : CampaignForm.state :=
  {| CampaignForm.products := [Some (VStr (lit "Shoes")); Some (VStr (lit "   "))];
     CampaignForm.targetMarket := lit "US";
     CampaignForm.targetAudience := lit "adults";
     CampaignForm.brandName := [];
     CampaignForm.campaignMessage := [];
     CampaignForm.errors := ∅ |}.

(** A valid form typed with surrounding blanks. *)
Definition padded_form : CampaignForm.state :=
  {| CampaignForm.products := [Some (VStr (lit " a ")); Some (VStr (lit "b"))];
     CampaignForm.targetMarket := lit "US";
     CampaignForm.targetAudience := lit " x ";
     CampaignForm.brandName := lit " Acme ";
     CampaignForm.campaignMessage := lit "  ";
     CampaignForm.errors := ∅ |}.

(** What [handleSubmit] hands to [onGenerate] for [padded_form]. *)
Definition padded_request : Api.CampaignRequest :=
  {| Api.products := [Some (VStr (lit " a ")); Some (VStr (lit "b"))];
     Api.target_market := lit "US";
     Api.target_audience := lit " x ";
     Api.brand_name := Some (lit "Acme");
     Api.campaign_message := None |}.

(** Three generated images, one per aspect ratio. *)
Definition square : Api.Image :=
  {| Api.aspect_ratio := VStr (lit "1:1"); Api.url := VUndefined;
     Api.path := VStr (lit "a/square.png"); Api.size := Some (2048, 2048)%N |}.

Definition portrait : Api.Image :=
  {| Api.aspect_ratio := VStr (lit "9:16"); Api.url := VUndefined;
     Api.path := VStr (lit "a/portrait.png"); Api.size := None |}.

Definition landscape : Api.Image :=
  {| Api.aspect_ratio := VStr (lit "16:9"); Api.url := VStr (lit "/outputs/l.png");
     Api.path := VUndefined; Api.size := None |}.

Definition gallery : ImageGallery.props :=
  {| ImageGallery.images := Some [square; portrait; landscape; square];
     ImageGallery.apiBaseUrl := lit "http://localhost:8000";
     ImageGallery.brandName := VStr (lit "Acme");
     ImageGallery.campaignMessage := VNull |}.

(** The same gallery for a result that came without a brand name. *)
Definition unbranded_gallery : ImageGallery.props :=
  {| ImageGallery.images := Some [square; portrait; landscape; square];
     ImageGallery.apiBaseUrl := lit "http://localhost:8000";
     ImageGallery.brandName := VNull;
     ImageGallery.campaignMessage := VNull |}.

(** A failed status whose message names sensitive content. *)
Definition flagged_status : Api.JobStatus :=
  {| Api.job_id := VStr (lit "job-1"); Api.status := VStr (lit "failed");
     Api.progress := None;
     Api.error := VStr (lit "Input flagged as sensitive content") |}.

(** A submission is accepted as job [job-1] and the interval fires once. *)
Definition polling_events : list App.event :=
  [App.Generate padded_request;
   App.GenerateResponse 0
     (Api.HttpOk (Api.Json {| Api.accepted_job_id := VStr (lit "job-1") |}));
   App.Tick].

Definition polling_world : App.world :=
  default App.initial (App.run polling_events App.initial).

Definition polling_timer : App.timer :=
  {| App.timer_id := 0; App.delay := 2000; App.timer_jobId := VStr (lit "job-1") |}.

Definition completed_status : Api.JobStatus :=
  {| Api.job_id := VStr (lit "job-1"); Api.status := VStr (lit "completed");
     Api.progress := None; Api.error := VUndefined |}.

End Examples.

(* ===================================================================== *)
(** ** The rest of CampaignForm.jsx: the other inputs                     *)
(* ===================================================================== *)

Module CampaignFormUI.
Import JS.

(** Lines 22-26: the options of the target market select. *)
Definition markets : list jstring :=
  map lit ["US"; "UK"; "Germany"; "France"; "Spain"; "Japan"; "China";
           "Italy"; "Brazil"; "Canada"; "Australia"; "Netherlands";
           "Poland"; "Russia"; "Mexico"]%string.

Definition setTargetMarket (v : jstring) (st : CampaignForm.state)
    : CampaignForm.state :=
  {| CampaignForm.products := CampaignForm.products st;
     CampaignForm.targetMarket := v;
     CampaignForm.targetAudience := CampaignForm.targetAudience st;
     CampaignForm.brandName := CampaignForm.brandName st;
     CampaignForm.campaignMessage := CampaignForm.campaignMessage st;
     CampaignForm.errors := CampaignForm.errors st |}.

Definition setTargetAudience (v : jstring) (st : CampaignForm.state)
    : CampaignForm.state :=
  {| CampaignForm.products := CampaignForm.products st;
     CampaignForm.targetMarket := CampaignForm.targetMarket st;
     CampaignForm.targetAudience := v;
     CampaignForm.brandName := CampaignForm.brandName st;
     CampaignForm.campaignMessage := CampaignForm.campaignMessage st;
     CampaignForm.errors := CampaignForm.errors st |}.

Definition setBrandName (v : jstring) (st : CampaignForm.state)
    : CampaignForm.state :=
  {| CampaignForm.products := CampaignForm.products st;
     CampaignForm.targetMarket := CampaignForm.targetMarket st;
     CampaignForm.targetAudience := CampaignForm.targetAudience st;
     CampaignForm.brandName := v;
     CampaignForm.campaignMessage := CampaignForm.campaignMessage st;
     CampaignForm.errors := CampaignForm.errors st |}.

Definition setCampaignMessage (v : jstring) (st : CampaignForm.state)
    : CampaignForm.state :=
  {| CampaignForm.products := CampaignForm.products st;
     CampaignForm.targetMarket := CampaignForm.targetMarket st;
     CampaignForm.targetAudience := CampaignForm.targetAudience st;
     CampaignForm.brandName := CampaignForm.brandName st;
     CampaignForm.campaignMessage := v;
     CampaignForm.errors := CampaignForm.errors st |}.

(** Everything the user can do to the form before submitting: the events
    of the products section, a choice in the select (lines 135-143) and
    typing in the three text inputs (lines 152-187). *)
Inductive event : Type :=
| Products (ev : CampaignForm.event)
| SelectMarket (v : jstring)
| TypeAudience (v : jstring)
| TypeBrandName (v : jstring)
| TypeCampaignMessage (v : jstring).

(** Whether the page, as rendered for [st], lets the user cause [ev]: a
    product event needs its control on the page, the select only offers
    the listed markets, the text inputs take any string. *)
Definition offers (st : CampaignForm.state) (ev : event) : bool :=
  match ev with
  | Products (CampaignForm.Change index _) =>
      existsb (fun c => match c with
                        | CampaignForm.ProductInput i _ => Nat.eqb i index
                        | _ => false
                        end) (CampaignForm.product_controls st)
  | Products (CampaignForm.ClickRemove index) =>
      existsb (fun c => match c with
                        | CampaignForm.RemoveButton i => Nat.eqb i index
                        | _ => false
                        end) (CampaignForm.product_controls st)
  | Products CampaignForm.ClickAdd =>
      existsb (fun c => match c with
                        | CampaignForm.AddButton => true
                        | _ => false
                        end) (CampaignForm.product_controls st)
  | SelectMarket v => bool_decide (v ∈ markets)
  | TypeAudience _ | TypeBrandName _ | TypeCampaignMessage _ => true
  end.

Definition handle (ev : event) (st : CampaignForm.state) : CampaignForm.state :=
  match ev with
  | Products e => CampaignForm.handle e st
  | SelectMarket v => setTargetMarket v st
  | TypeAudience v => setTargetAudience v st
  | TypeBrandName v => setBrandName v st
  | TypeCampaignMessage v => setCampaignMessage v st
  end.

(** A session at the form: each event must be offered by the page it
    happens on. *)
Fixpoint run (evs : list event) (st : CampaignForm.state)
    : option CampaignForm.state :=
  match evs with
  | [] => Some st
  | ev :: evs' => if offers st ev then run evs' (handle ev st) else None
  end.

End CampaignFormUI.

(* ===================================================================== *)
(** ** The rest of ImageGallery.jsx: filter buttons and what an item shows *)
(* ===================================================================== *)

Module ImageGalleryUI.
Import JS.

(** [[...new Set(l)]]: the distinct values, each at its first occurrence. *)
Fixpoint unique_from (seen l : list value) : list value :=
  match l with
  | [] => []
  | x :: l' =>
      if bool_decide (x ∈ seen) then unique_from seen l'
      else x :: unique_from (x :: seen) l'
  end.

(** Line 18. *)
Definition aspectRatios (imgs : list Api.Image) : list value :=
  unique_from [] (map Api.aspect_ratio imgs).

(** Lines 80-97: a filter button with its [active] class and the count
    in its label. *)
Inductive filter_button : Type :=
| AllButton (active : bool) (count : nat)
| RatioButton (ratio : value) (active : bool) (count : nat).

(** Lines 78-99: the filter bar is there when the images have more than
    one aspect ratio. *)
Definition filter_buttons (st : ImageGallery.state) (imgs : list Api.Image)
    : list filter_button :=
  if decide (1 < length (aspectRatios imgs)) then
    AllButton (strict_eq (ImageGallery.selectedAspectRatio st) VNull)
              (length imgs)
    :: map (fun ratio =>
              RatioButton ratio
                (strict_eq (ImageGallery.selectedAspectRatio st) ratio)
                (length (List.filter
                           (fun img => strict_eq (Api.aspect_ratio img) ratio)
                           imgs)))
           (aspectRatios imgs)
  else [].

(** Lines 82 and 92. *)
Definition onClick (b : filter_button) : ImageGallery.event :=
  match b with
  | AllButton _ _ => ImageGallery.SelectRatio VNull
  | RatioButton ratio _ _ => ImageGallery.SelectRatio ratio
  end.

Definition button_count (b : filter_button) : nat :=
  match b with
  | AllButton _ count => count
  | RatioButton _ _ count => count
  end.

(** Lines 132 and 135: the compliance button is disabled, and reads
    'Checking...', while [complianceLoading[index]] is truthy. *)
Definition checking (it : ImageGallery.item) : bool :=
  match ImageGallery.item_loading it with
  | Some b => b
  | None => false
  end.

(** Line 140: the error box is there when [complianceErrors[index]] is
    truthy. *)
Definition shown_error (it : ImageGallery.item) : option jstring :=
  match ImageGallery.item_error it with
  | Some (Some m) => if truthy (VStr m) then Some m else None
  | _ => None
  end.

(** Line 147: the result box is there when [complianceResults[index]] is
    truthy. *)
Definition shown_result (it : ImageGallery.item)
    : option Api.ComplianceVerdict :=
  match ImageGallery.item_result it with
  | Some (Some v) => Some v
  | _ => None
  end.

End ImageGalleryUI.

(* ===================================================================== *)
(** ** Vocabulary of the further statements                               *)
(* ===================================================================== *)

Module Spec2.
Import JS Spec.

(** A products array as the page keeps it: no hole, strings only, two
    entries at least. *)
Definition form_ok (st : CampaignForm.state) : Prop :=
  dense (CampaignForm.products st)
  /\ strings_only (CampaignForm.products st)
  /\ 2 <= length (CampaignForm.products st).

Definition is_generate_request (r : Api.request) : bool :=
  match r with Api.PostGenerate _ => true | _ => false end.

Definition is_compliance_request (r : Api.request) : bool :=
  match r with Api.PostCheckCompliance _ _ _ => true | _ => false end.

Definition is_tick (ev : App.event) : bool :=
  match ev with App.Tick => true | _ => false end.

Definition is_generate (ev : App.event) : bool :=
  match ev with App.Generate _ => true | _ => false end.

(** Timer handles are handed out in increasing order: the registered
    interval and every suspended poll carry a handle already used, and a
    suspended status poll with the handle of the registered interval
    polls the same job. *)
Definition timers_fresh (w : App.world) : Prop :=
  (forall t, App.interval w = Some t -> App.timer_id t < App.next_timer w)
  /\ (forall id job, In (App.AwaitStatus id job) (App.inflight w) ->
                     id < App.next_timer w)
  /\ (forall id job, In (App.AwaitImages id job) (App.inflight w) ->
                     id < App.next_timer w)
  /\ (forall t id job, App.interval w = Some t ->
                       In (App.AwaitStatus id job) (App.inflight w) ->
                       id = App.timer_id t -> job = App.timer_jobId t).

(** Two runs of the event loop agree on what the user sees and on what
    went out. *)
Definition same_outcome (a b : option App.world) : Prop :=
  match a, b with
  | Some w1, Some w2 =>
      App.render (App.cells w1) = App.render (App.cells w2)
      /\ App.sent w1 = App.sent w2
  | None, None => True
  | _, _ => False
  end.

(** The job ids handed out by the backend during a run: the [job_id] of
    every accepted [POST /api/generate]. *)
Definition accepted_ids (evs : list App.event) : list value :=
  omap (fun ev => match ev with
                  | App.GenerateResponse _ (Api.HttpOk (Api.Json accepted)) =>
                      Some (Api.accepted_job_id accepted)
                  | _ => None
                  end) evs.

(** The job a request is about, for the two requests that name one. *)
Definition request_job (r : Api.request) : option value :=
  match r with
  | Api.GetStatus job | Api.GetImages job => Some job
  | _ => None
  end.

Definition pending_job (k : App.pending) : option value :=
  match k with
  | App.AwaitStatus _ job | App.AwaitImages _ job => Some job
  | App.AwaitGenerate => None
  end.

(** Every job the world refers to, in its interval, in its suspended
    polls and in the requests it sent, is one of [ids]. *)
Definition jobs_known (ids : list value) (w : App.world) : Prop :=
  (forall t, App.interval w = Some t -> In (App.timer_jobId t) ids)
  /\ (forall k job, In k (App.inflight w) -> pending_job k = Some job -> In job ids)
  /\ (forall r job, In r (App.sent w) -> request_job r = Some job -> In job ids).

(** An event after which the request of the last submission is still the
    one remembered: anything but a new submission and a reset that clears
    the data ('Try Again', 'Start Over', 'Create New Campaign'). *)
Definition keeps_stored_request (ev : App.event) : bool :=
  match ev with
  | App.Generate _ | App.Reset true => false
  | _ => true
  end.

(** An image with neither [url] nor [path]: [getImageUrl] returns [null]
    for it and nothing is rendered in its slot. *)
Definition unlocated (img : Api.Image) : bool :=
  negb (truthy (Api.url img)) && negb (truthy (Api.path img)).

End Spec2.

Module Examples2.
Import JS.

(** The blank form after typing two products and an audience. *)
Definition typing : list CampaignFormUI.event :=
  [CampaignFormUI.Products (CampaignForm.Change 0 (lit "Shoes"));
   CampaignFormUI.Products CampaignForm.ClickAdd;
   CampaignFormUI.Products (CampaignForm.Change 2 (lit "Socks"));
   CampaignFormUI.Products (CampaignForm.ClickRemove 1);
   CampaignFormUI.SelectMarket (lit "Japan");
   CampaignFormUI.TypeAudience (lit "runners")].

(** The poll of [Examples.polling_world] comes back with the flagged
    failure. *)
Definition failed_events : list App.event :=
  Examples.polling_events ++
  [App.StatusResponse 0 (Api.HttpOk (Api.Json Examples.flagged_status))].

Definition failed_world : App.world :=
  default App.initial (App.run failed_events App.initial).

(** A second job is accepted while a poll of the first is still in
    flight. *)
Definition second_job_events : list App.event :=
  Examples.polling_events ++
  [App.Reset true; App.Generate Examples.padded_request;
   App.GenerateResponse 1
     (Api.HttpOk (Api.Json {| Api.accepted_job_id := VStr (lit "job-2") |}))].

Definition second_job_world : App.world :=
  default App.initial (App.run second_job_events App.initial).

Definition processing_status : Api.JobStatus :=
  {| Api.job_id := VStr (lit "job-1"); Api.status := VStr (lit "processing");
     Api.progress := None; Api.error := VUndefined |}.

Definition result : Api.GenerationResult :=
  {| Api.result_brand_name := VStr (lit "Acme");
     Api.result_campaign_message := VStr (lit "Run far");
     Api.translated_campaign_message := VNull;
     Api.images := Some [Examples.square; Examples.portrait] |}.

Definition verdict : Api.ComplianceVerdict :=
  {| Api.compliance_status := VStr (lit "compliant");
     Api.brand_name_found := VBool true; Api.logo_visible := VBool true;
     Api.logo_description := VNull; Api.detected_text := Some [lit "Acme"];
     Api.compliance_notes := VUndefined |}.

(** The gallery after the image at position 1 was checked and found
    compliant. *)
Definition checked_state : ImageGallery.state :=
  ImageGallery.handleCheckCompliance_finish 1 (Api.HttpOk (Api.Json verdict))
    (ImageGallery.handleCheckCompliance_start Examples.gallery
       (VStr (lit "a/portrait.png")) 1 ImageGallery.initial).1.

(** The interval fires a second time before the first poll of [job-1] is
    answered, and both polls then observe [completed]. *)
Definition overlapping_events : list App.event :=
  Examples.polling_events ++
  [App.Tick;
   App.StatusResponse 0 (Api.HttpOk (Api.Json Examples.completed_status));
   App.StatusResponse 0 (Api.HttpOk (Api.Json Examples.completed_status))].

Definition overlapping_world : App.world :=
  default App.initial (App.run overlapping_events App.initial).

(** Two polls of [job-1] are in flight; the first fails on the network,
    the user clicks 'Try Again' on the error card, and then the second
    poll comes back with the flagged failure. *)
Definition late_flag_events : list App.event :=
  Examples.polling_events ++
  [App.Tick;
   App.StatusResponse 0 (Api.NetworkError (lit "Failed to fetch"));
   App.onClick App.TryAgain;
   App.StatusResponse 0 (Api.HttpOk (Api.Json Examples.flagged_status))].

Definition late_flag_world : App.world :=
  default App.initial (App.run late_flag_events App.initial).

(** The error the component holds after the flagged failure. *)
Definition flagged_error : App.ErrorInfo :=
  {| App.message := VStr (lit "Input flagged as sensitive content");
     App.isSensitiveContent := VBool true |}.

(** An image that came without [url] and without [path], and a gallery
    that holds it. *)
Definition nowhere : Api.Image :=
  {| Api.aspect_ratio := VStr (lit "9:16"); Api.url := VUndefined;
     Api.path := VUndefined; Api.size := None |}.

Definition partial_gallery : ImageGallery.props :=
  {| ImageGallery.images := Some [Examples.square; nowhere];
     ImageGallery.apiBaseUrl := lit "http://localhost:8000";
     ImageGallery.brandName := VStr (lit "Acme");
     ImageGallery.campaignMessage := VNull |}.

End Examples2.

(* ===================================================================== *)
(** ** Facts about the JavaScript fragment                                *)
(* ===================================================================== *)

Section JSFacts.
Import JS Spec.

Lemma jstring_eqb_eq (a b : jstring) : jstring_eqb a b = true <-> a = b.
Proof. unfold jstring_eqb. apply bool_decide_eq_true. Qed.

Lemma jstring_eqb_neq (a b : jstring) : jstring_eqb a b = false <-> a <> b.
Proof. unfold jstring_eqb. apply bool_decide_eq_false. Qed.

Lemma trimStart_head (s : jstring) :
  match trimStart s with
  | [] => True
  | c :: _ => is_whitespace c = false
  end.
Proof.
  induction s as [|c s IH]; simpl; [exact I|].
  destruct (is_whitespace c) eqn:Hc; [exact IH | exact Hc].
Qed.

Lemma trimStart_fixed (c : N) (s : jstring) :
  is_whitespace c = false -> trimStart (c :: s) = c :: s.
Proof. intros Hc; simpl; now rewrite Hc. Qed.

Lemma trimEnd_head (c : N) (s : jstring) :
  is_whitespace c = false -> exists t, trimEnd (c :: s) = c :: t.
Proof.
  intros Hc; simpl. destruct (trimEnd s) as [|d t].
  - rewrite Hc. now exists [].
  - now exists (d :: t).
Qed.

Lemma trimEnd_idempotent (s : jstring) : trimEnd (trimEnd s) = trimEnd s.
Proof.
  induction s as [|c s IH]; simpl; [reflexivity|].
  destruct (trimEnd s) as [|d t] eqn:Hs.
  - destruct (is_whitespace c) eqn:Hc; simpl; [reflexivity | now rewrite Hc].
  - change (trimEnd (c :: d :: t)) with
      (match trimEnd (d :: t) with
       | [] => if is_whitespace c then [] else [c]
       | u => c :: u
       end).
    now rewrite IH.
Qed.

(** [trim] is idempotent: a trimmed string is in normal form. *)
Lemma trim_idempotent (s : jstring) : trim (trim s) = trim s.
Proof.
  unfold trim. pose proof (trimStart_head s) as Hh.
  destruct (trimStart s) as [|c t]; [reflexivity|].
  destruct (trimEnd_head c t Hh) as [u Hu].
  rewrite Hu, (trimStart_fixed c u Hh), <- Hu.
  apply trimEnd_idempotent.
Qed.

Lemma startsWith_spec (s p : jstring) :
  startsWith s p = true <-> exists r, s = p ++ r.
Proof.
  revert s; induction p as [|a p IH]; intros s; simpl.
  - split; [intros _; now exists s | intros _; now destruct s].
  - destruct s as [|b s].
    + split; [discriminate | intros [r Hr]; discriminate].
    + simpl. rewrite andb_true_iff, N.eqb_eq, IH. split.
      * intros [-> [r ->]]. now exists r.
      * intros [r Hr]. injection Hr as -> ->. split; [reflexivity | now exists r].
Qed.

(** [includes] finds exactly the occurrences of [p] as a substring. *)
Lemma includes_spec (s p : jstring) :
  includes s p = true <-> exists l r, s = l ++ p ++ r.
Proof.
  induction s as [|c s IH].
  - cbn [includes]. rewrite orb_false_r, startsWith_spec. split.
    + intros [r Hr]. now exists [], r.
    + intros [l [r Hr]]. destruct l; [now exists r|discriminate].
  - change (includes (c :: s) p) with (startsWith (c :: s) p || includes s p).
    rewrite orb_true_iff, startsWith_spec, IH. split.
    + intros [[r Hr] | [l [r Hr]]].
      * now exists [], r.
      * exists (c :: l), r. simpl. now rewrite Hr.
    + intros [l [r Hr]]. destruct l as [|d l].
      * left. now exists r.
      * right. injection Hr as _ Hr. now exists l, r.
Qed.

Lemma strict_eq_spec (a b : value) : strict_eq a b = true <-> a = b.
Proof.
  destruct a as [| |x|x], b as [| |y|y]; simpl;
    try (split; [discriminate | intros H; discriminate H]);
    try (split; reflexivity).
  - rewrite Bool.eqb_true_iff. split; [now intros -> | now intros [= ->]].
  - rewrite jstring_eqb_eq. split; [now intros -> | now intros [= ->]].
Qed.

Lemma Normal_pair_inv {A B} (a a' : A) (b b' : B) :
  Normal (a, b) = Normal (a', b') -> a = a' /\ b = b'.
Proof. intros H; injection H; auto. Qed.

(** On an array whose callback never throws both filters agree. *)
Lemma filter_from_total {A} (f : A -> nat -> bool) (i : nat) (a : array A) :
  filter_from (fun x j => Normal (f x j)) i a = Normal (filter_total_from f i a).
Proof.
  revert i; induction a as [|[x|] a IH]; intros i; simpl; [reflexivity| |apply IH].
  rewrite IH. simpl. now destruct (f x i).
Qed.

(** [filter] with the form's callback, when it returns, has kept the
    non-blank strings, as they were and in their order. *)
Lemma filter_nonblank_result (i : nat) (a r : array value) :
  filter_from CampaignForm.nonblank i a = Normal r ->
  r = List.filter is_nonblank a.
Proof.
  revert i r; induction a as [|[x|] a IH]; intros i r; simpl.
  - now intros [= <-].
  - destruct x as [| |b|s]; simpl; try discriminate.
    destruct (filter_from CampaignForm.nonblank (S i) a) as [r'|m] eqn:Hr;
      simpl; [|discriminate].
    intros [= <-]. rewrite (IH _ _ Hr).
    now destruct (negb (jstring_eqb (trim s) [])).
  - apply IH.
Qed.

(** On strings it always returns. *)
Lemma filter_nonblank_strings (i : nat) (a : array value) :
  strings_only a ->
  filter_from CampaignForm.nonblank i a = Normal (List.filter is_nonblank a).
Proof.
  intros Ha; revert i; induction Ha as [|[x|] a Hx Ha IH]; intros i; simpl.
  - reflexivity.
  - destruct x as [| |b|s]; try contradiction. simpl.
    rewrite IH. simpl. now destruct (negb (jstring_eqb (trim s) [])).
  - apply IH.
Qed.

Lemma dense_filter_keeps (a : array value) : dense (List.filter is_nonblank a).
Proof.
  unfold dense. induction a as [|[[| |b|s]|] a IH]; simpl; try exact IH.
  - constructor.
  - destruct (negb (jstring_eqb (trim s) [])); [constructor; [now eexists|]|]; exact IH.
Qed.

End JSFacts.

(* ===================================================================== *)
(** ** The campaign form                                                  *)
(* ===================================================================== *)

Section CampaignFormFacts.
Import JS Spec.

Lemma size_zero_lookup (k : string) (v : jstring) (m : gmap string jstring) :
  m !! k = Some v -> Nat.eqb (size m) 0 = false.
Proof.
  intros Hk. apply Nat.eqb_neq. intros H. apply map_size_empty_iff in H.
  subst m. now rewrite lookup_empty in Hk.
Qed.

(** [validate] on a form with fewer than two usable products, whenever
    the filter of line 47 returns. *)
Lemma validate_too_few (st : CampaignForm.state) (r : array value) :
  array_filter CampaignForm.nonblank (CampaignForm.products st) = Normal r ->
  length r < 2 ->
  exists st',
    CampaignForm.validate st = Normal (st', false)
    /\ CampaignForm.errors st' !! "products"
       = Some (lit "At least 2 products are required")
    /\ CampaignForm.handleSubmit st = Normal (st', []).
Proof.
  intros Hf Hlen.
  assert (exists E, CampaignForm.validate st
                    = Normal (CampaignForm.setErrors E st, false)
                    /\ E !! "products"
                       = Some (lit "At least 2 products are required"))
    as (E & Hv & HE).
  { unfold CampaignForm.validate. rewrite Hf. cbn [bind].
    destruct (decide (length r < 2)) as [_|Hn]; [|contradiction].
    match goal with
    | |- context [CampaignForm.setErrors ?E0 st] => set (E := E0)
    end.
    assert (E !! "products" = Some (lit "At least 2 products are required"))
      as HE.
    { subst E.
      destruct (negb (truthy (VStr (trim (CampaignForm.targetMarket st)))));
        destruct (negb (truthy (VStr (trim (CampaignForm.targetAudience st)))));
        now simplify_map_eq. }
    exists E. split; [|exact HE].
    now rewrite (size_zero_lookup _ _ _ HE). }
  exists (CampaignForm.setErrors E st). split; [exact Hv|]. split; [exact HE|].
  unfold CampaignForm.handleSubmit. now rewrite Hv.
Qed.

(** C1.  A submitted form with fewer than two products that are non-empty
    after trimming never reaches [onGenerate], so no generation request is
    issued; and, its product inputs holding strings, [validate] returns
    [false] after recording the error 'At least 2 products are required'
    under the key [products], and [handleSubmit] stops there. *)
Theorem validate_rejects_fewer_than_two_products (st : CampaignForm.state) :
  length (List.filter is_nonblank (CampaignForm.products st)) < 2 ->
  onGenerate_calls (CampaignForm.handleSubmit st) = []
  /\ (strings_only (CampaignForm.products st) ->
      exists st',
        CampaignForm.validate st = Normal (st', false)
        /\ CampaignForm.errors st' !! "products"
           = Some (lit "At least 2 products are required")
        /\ CampaignForm.handleSubmit st = Normal (st', [])).
Proof.
  intros Hlen. split.
  - destruct (array_filter CampaignForm.nonblank (CampaignForm.products st))
      as [r|m] eqn:Hf.
    + pose proof (filter_nonblank_result _ _ _ Hf) as Hr.
      destruct (validate_too_few st r Hf) as (st' & _ & _ & Hs).
      { now rewrite Hr. }
      now rewrite Hs.
    + unfold CampaignForm.handleSubmit, CampaignForm.validate.
      now rewrite Hf.
  - intros Hstr. apply (validate_too_few st (List.filter is_nonblank
                                               (CampaignForm.products st))).
    + now apply filter_nonblank_strings.
    + exact Hlen.
Qed.

Lemma validate_rejects_fewer_than_two_products_witness :
  onGenerate_calls (CampaignForm.handleSubmit Examples.one_product_form) = []
  /\ exists st',
       CampaignForm.validate Examples.one_product_form = Normal (st', false)
       /\ CampaignForm.errors st' !! "products"
          = Some (lit "At least 2 products are required")
       /\ CampaignForm.handleSubmit Examples.one_product_form = Normal (st', []).
Proof.
  destruct (validate_rejects_fewer_than_two_products Examples.one_product_form)
    as [Hcalls Hval].
  - vm_compute. lia.
  - split; [exact Hcalls|]. apply Hval.
    repeat constructor.
Defined.

(** What [validate] has checked when it returns [true]. *)
Lemma validate_true (st st' : CampaignForm.state) :
  CampaignForm.validate st = Normal (st', true) ->
  st' = CampaignForm.setErrors ∅ st
  /\ array_filter CampaignForm.nonblank (CampaignForm.products st)
     = Normal (List.filter is_nonblank (CampaignForm.products st))
  /\ 2 <= length (List.filter is_nonblank (CampaignForm.products st))
  /\ trim (CampaignForm.targetMarket st) <> []
  /\ trim (CampaignForm.targetAudience st) <> [].
Proof.
  unfold CampaignForm.validate.
  destruct (array_filter CampaignForm.nonblank (CampaignForm.products st))
    as [r|m] eqn:Hf; cbn [bind]; [|discriminate].
  pose proof (filter_nonblank_result _ _ _ Hf) as ->.
  cbn [truthy].
  destruct (decide (length (List.filter is_nonblank (CampaignForm.products st)) < 2))
    as [Hl|Hl];
    destruct (jstring_eqb (trim (CampaignForm.targetMarket st)) []) eqn:Hm;
    destruct (jstring_eqb (trim (CampaignForm.targetAudience st)) []) eqn:Ha;
    cbn [negb]; intros H; apply Normal_pair_inv in H as [<- Hsz];
    apply Nat.eqb_eq in Hsz; apply map_size_empty_iff in Hsz;
    try (exfalso; exact (insert_non_empty _ _ _ Hsz)).
  apply jstring_eqb_neq in Hm, Ha.
  repeat split; [lia | exact Hm | exact Ha].
Qed.

Lemma trim_or_null_spec (s : jstring) :
  (trim s = [] -> CampaignForm.trim_or_null s = None)
  /\ (trim s <> [] -> CampaignForm.trim_or_null s = Some (trim s))
  /\ trimmed_or_absent (CampaignForm.trim_or_null s).
Proof.
  unfold CampaignForm.trim_or_null. cbn [truthy].
  destruct (jstring_eqb (trim s) []) eqn:Hs; cbn [negb].
  - apply jstring_eqb_eq in Hs.
    split; [reflexivity|]. split; [congruence | exact I].
  - apply jstring_eqb_neq in Hs.
    split; [congruence|]. split; [reflexivity|].
    split; [apply trim_idempotent | exact Hs].
Qed.

(** C3, as the claim states it, fails: a valid form typed with
    surrounding blanks is emitted with its first product and its target
    audience untrimmed. *)
Lemma handleSubmit_emits_untrimmed_fields :
  CampaignForm.handleSubmit Examples.padded_form
  = Normal (CampaignForm.setErrors ∅ Examples.padded_form,
            [Examples.padded_request])
  /\ ~ normalized Examples.padded_request.
Proof.
  split.
  - vm_compute. reflexivity.
  - intros (Hp & _). inversion Hp as [|x l (s & Hs & Ht) _]; subst.
    injection Hs as <-. vm_compute in Ht. discriminate Ht.
Qed.

(** C3, amended.  A submission that passes validation calls [onGenerate]
    once, with: the products that are non-empty after trimming, in their
    order and as typed (at least two of them); the target market and the
    target audience as typed, both non-blank; the brand name and the
    campaign message trimmed, or [null] when blank. *)
Theorem handleSubmit_emits_request (st st' : CampaignForm.state) :
  CampaignForm.validate st = Normal (st', true) ->
  exists d,
    CampaignForm.handleSubmit st = Normal (st', [d])
    /\ Api.products d = List.filter is_nonblank (CampaignForm.products st)
    /\ 2 <= length (Api.products d)
    /\ Api.target_market d = CampaignForm.targetMarket st
    /\ trim (Api.target_market d) <> []
    /\ Api.target_audience d = CampaignForm.targetAudience st
    /\ trim (Api.target_audience d) <> []
    /\ (trim (CampaignForm.brandName st) = [] -> Api.brand_name d = None)
    /\ (trim (CampaignForm.brandName st) <> [] ->
        Api.brand_name d = Some (trim (CampaignForm.brandName st)))
    /\ (trim (CampaignForm.campaignMessage st) = [] ->
        Api.campaign_message d = None)
    /\ (trim (CampaignForm.campaignMessage st) <> [] ->
        Api.campaign_message d = Some (trim (CampaignForm.campaignMessage st)))
    /\ trimmed_or_absent (Api.brand_name d)
    /\ trimmed_or_absent (Api.campaign_message d).
Proof.
  intros Hv. destruct (validate_true _ _ Hv) as (-> & Hf & Hlen & Hm & Ha).
  eexists. split.
  { unfold CampaignForm.handleSubmit. rewrite Hv. cbn [bind negb].
    rewrite Hf. cbn [bind]. reflexivity. }
  cbn [Api.products Api.target_market Api.target_audience Api.brand_name
       Api.campaign_message].
  destruct (trim_or_null_spec (CampaignForm.brandName st)) as (? & ? & ?).
  destruct (trim_or_null_spec (CampaignForm.campaignMessage st)) as (? & ? & ?).
  repeat split; assumption.
Qed.

Lemma handleSubmit_emits_request_witness :
  exists d,
    CampaignForm.handleSubmit Examples.padded_form
    = Normal (CampaignForm.setErrors ∅ Examples.padded_form, [d])
    /\ Api.products d = [Some (VStr (lit " a ")); Some (VStr (lit "b"))]
    /\ Api.target_audience d = lit " x "
    /\ Api.brand_name d = Some (lit "Acme")
    /\ Api.campaign_message d = None.
Proof.
  destruct (handleSubmit_emits_request Examples.padded_form
              (CampaignForm.setErrors ∅ Examples.padded_form))
    as (d & Hs & Hp & _ & _ & _ & Ha & _ & _ & Hb & Hc & _).
  - vm_compute. reflexivity.
  - exists d. split; [exact Hs|]. split; [exact Hp|]. split; [exact Ha|].
    split; [apply Hb; vm_compute; discriminate | apply Hc; vm_compute; reflexivity].
Defined.

(** *** The products array never shrinks below two *)

Lemma entries_cons_Some {A} (x : A) (a : array A) :
  entries (Some x :: a) = S (entries a).
Proof. reflexivity. Qed.

Lemma entries_cons_None {A} (a : array A) :
  entries (@None A :: a) = entries a.
Proof. reflexivity. Qed.

Lemma entries_app {A} (a b : array A) :
  entries (a ++ b) = entries a + entries b.
Proof. unfold entries. now rewrite List.filter_app, length_app. Qed.

Lemma entries_le_length {A} (a : array A) : entries a <= length a.
Proof. apply List.filter_length_le. Qed.

Lemma entries_dense {A} (a : array A) : dense a -> entries a = length a.
Proof.
  induction 1 as [|x a [y ->] _ IH]; [reflexivity|].
  rewrite entries_cons_Some. simpl. now rewrite IH.
Qed.

Lemma dense_spread {A} (u : A) (a : array A) : dense (spread u a).
Proof. unfold dense, spread. apply Forall_map, Forall_true. intros x; now eexists. Qed.

Lemma length_spread {A} (u : A) (a : array A) : length (spread u a) = length a.
Proof. apply length_map. Qed.

Lemma entries_replicate_None {A} (n : nat) :
  entries (replicate n (@None A)) = 0.
Proof. induction n as [|n IH]; [reflexivity|exact IH]. Qed.

(** Writing past the end of a dense array adds one element and the
    holes before it; writing inside keeps it dense. *)
Lemma array_set_dense {A} (i : nat) (x : A) (a : array A) :
  dense a ->
  length a <= length (array_set i x a)
  /\ (i < length a -> dense (array_set i x a)
                      /\ length (array_set i x a) = length a)
  /\ (length a <= i -> entries (array_set i x a) = S (length a)).
Proof.
  intros Ha. unfold array_set.
  destruct (decide (i < length a)) as [Hi|Hi].
  - rewrite length_insert. split; [lia|]. split; [|lia].
    intros _. split; [|reflexivity].
    apply Forall_insert; [exact Ha | now eexists].
  - split; [rewrite length_app; lia|]. split; [lia|]. intros _.
    rewrite !entries_app, entries_replicate_None, (entries_dense a Ha).
    rewrite entries_cons_Some. unfold entries. simpl. lia.
Qed.

Lemma dense_filter_total_from {A} (f : A -> nat -> bool) (i : nat) (a : array A) :
  dense (filter_total_from f i a).
Proof.
  revert i; induction a as [|[x|] a IH]; intros i; simpl.
  - constructor.
  - destruct (f x i); [constructor; [now eexists|]|]; apply IH.
  - apply IH.
Qed.

(** The callback of [removeProduct] keeps everything once the scan is
    past [index]. *)
Lemma filter_skip_past {A} (index i : nat) (a : array A) :
  index < i ->
  length (filter_total_from (fun _ j => negb (Nat.eqb j index)) i a) = entries a.
Proof.
  revert i; induction a as [|[x|] a IH]; intros i Hi; simpl.
  - reflexivity.
  - destruct (Nat.eqb_spec i index) as [->|_]; [lia|]. simpl.
    rewrite entries_cons_Some. f_equal. apply IH. lia.
  - rewrite entries_cons_None. apply IH. lia.
Qed.

(** It drops at most one element. *)
Lemma filter_skip_length {A} (index i : nat) (a : array A) :
  entries a <= S (length (filter_total_from (fun _ j => negb (Nat.eqb j index)) i a)).
Proof.
  revert i; induction a as [|[x|] a IH]; intros i; simpl.
  - unfold entries; simpl; lia.
  - rewrite entries_cons_Some.
    destruct (Nat.eqb_spec i index) as [->|_]; simpl.
    + rewrite filter_skip_past; lia.
    + specialize (IH (S i)). lia.
  - rewrite entries_cons_None. apply IH.
Qed.

Lemma products_ok_dense (a : array value) :
  dense a -> 2 <= length a -> products_ok a.
Proof. intros Hd Hl. unfold products_ok. rewrite (entries_dense a Hd). lia. Qed.

Lemma handle_products_ok (ev : CampaignForm.event) (st : CampaignForm.state) :
  products_ok (CampaignForm.products st) ->
  products_ok (CampaignForm.products (CampaignForm.handle ev st)).
Proof.
  intros [H2 H3]. pose proof (entries_le_length (CampaignForm.products st)) as Hle.
  destruct ev as [index v|index|]; cbn [CampaignForm.handle].
  - unfold CampaignForm.updateProduct. cbn [CampaignForm.products CampaignForm.setProducts].
    pose proof (dense_spread VUndefined (CampaignForm.products st)) as Hd.
    pose proof (length_spread VUndefined (CampaignForm.products st)) as Hl.
    destruct (array_set_dense index (VStr v) _ Hd) as (Hlen & Hin & Hout).
    destruct (decide (index < length (spread VUndefined (CampaignForm.products st))))
      as [Hi|Hi].
    + destruct (Hin Hi) as [Hd' Hl']. apply products_ok_dense; [exact Hd'|lia].
    + assert (length (spread VUndefined (CampaignForm.products st)) <= index)
        as Hi' by lia.
      unfold products_ok. rewrite (Hout Hi'). split; lia.
  - unfold CampaignForm.removeProduct.
    destruct (decide (2 < length (CampaignForm.products st))) as [Hl|Hl];
      [|now split].
    cbn [CampaignForm.products CampaignForm.setProducts].
    unfold array_filter_total. apply products_ok_dense.
    + apply dense_filter_total_from.
    + pose proof (filter_skip_length index 0 (CampaignForm.products st)). lia.
  - unfold CampaignForm.addProduct. cbn [CampaignForm.products CampaignForm.setProducts].
    apply products_ok_dense.
    + apply Forall_app. split; [apply dense_spread|].
      constructor; [now eexists|constructor].
    + rewrite length_app, length_spread. simpl. lia.
Qed.

Lemma run_products_ok (evs : list CampaignForm.event) (st : CampaignForm.state) :
  products_ok (CampaignForm.products st) ->
  products_ok (CampaignForm.products (CampaignForm.run evs st)).
Proof.
  revert st; induction evs as [|ev evs IH]; intros st Hst; [exact Hst|].
  apply (IH (CampaignForm.handle ev st)). now apply handle_products_ok.
Qed.

(** The form is mounted with a products array that meets the premise:
    the blank form, and the form pre-filled from an emitted request. *)
Lemma initial_products_ok :
  (let a := CampaignForm.products (CampaignForm.initial None) in
   dense a /\ 2 <= length a)
  /\ (forall st st' d,
        CampaignForm.handleSubmit st = Normal (st', [d]) ->
        let a := CampaignForm.products (CampaignForm.initial (Some d)) in
        dense a /\ 2 <= length a).
Proof.
  split.
  - split; [repeat constructor; now eexists | simpl; lia].
  - intros st st' d Hs. unfold CampaignForm.handleSubmit in Hs.
    destruct (CampaignForm.validate st) as [[st1 ok]|m] eqn:Hv; [|discriminate].
    cbn [bind] in Hs. destruct ok; cbn [negb] in Hs; [|discriminate].
    destruct (validate_true _ _ Hv) as (_ & Hf & Hlen & _).
    rewrite Hf in Hs. cbn [bind] in Hs.
    apply Normal_pair_inv in Hs as [_ Hd]. injection Hd as <-.
    cbn [CampaignForm.initial CampaignForm.products Api.products].
    split; [|exact Hlen].
    unfold array_filter in Hf.
    pose proof (dense_filter_keeps (CampaignForm.products st)) as Hk.
    exact Hk.
Qed.

(** C9.  From a products array without holes and with at least two
    entries, every sequence of [updateProduct], [removeProduct] and
    [addProduct] events (whatever their indices) leaves at least two
    entries; [removeProduct] changes nothing when exactly two entries
    remain; and a remove button is on the page only when there are more
    than two. *)
Theorem products_never_below_two (st : CampaignForm.state) :
  dense (CampaignForm.products st) ->
  2 <= length (CampaignForm.products st) ->
  (forall evs,
      2 <= entries (CampaignForm.products (CampaignForm.run evs st))
      /\ 2 <= length (CampaignForm.products (CampaignForm.run evs st)))
  /\ (length (CampaignForm.products st) = 2 ->
      forall index, CampaignForm.removeProduct index st = st)
  /\ (forall index,
        In (CampaignForm.RemoveButton index) (CampaignForm.product_controls st) ->
        2 < length (CampaignForm.products st)).
Proof.
  intros Hd Hl. split; [|split].
  - intros evs.
    destruct (run_products_ok evs st (products_ok_dense _ Hd Hl)) as [H2 _].
    pose proof (entries_le_length
                  (CampaignForm.products (CampaignForm.run evs st))).
    lia.
  - intros H2 index. unfold CampaignForm.removeProduct.
    destruct (decide (2 < length (CampaignForm.products st))); [lia|reflexivity].
  - intros index Hin. unfold CampaignForm.product_controls in Hin.
    destruct (decide (2 < length (CampaignForm.products st))) as [Hgt|Hgt];
      [exact Hgt|exfalso].
    apply in_app_or in Hin as [Hin|[Hin|[]]]; [|discriminate Hin].
    apply in_concat in Hin as (l & Hl1 & Hl2).
    apply list_elem_of_In, elem_of_lookup_imap in Hl1 as (i & slot & -> & _).
    destruct slot as [product|]; [|destruct Hl2].
    destruct Hl2 as [Hl2|[]]. discriminate Hl2.
Qed.

Lemma products_never_below_two_witness :
  2 <= length (CampaignForm.products
                 (CampaignForm.run
                    [CampaignForm.ClickAdd; CampaignForm.ClickRemove 0;
                     CampaignForm.ClickRemove 0; CampaignForm.Change 1 (lit "b")]
                    (CampaignForm.initial None))).
Proof.
  destruct (products_never_below_two (CampaignForm.initial None)) as [Hrun _].
  - repeat constructor; now eexists.
  - simpl. lia.
  - apply Hrun.
Defined.

End CampaignFormFacts.

(* ===================================================================== *)
(** ** The image gallery                                                  *)
(* ===================================================================== *)

Section ImageGalleryFacts.
Import JS Spec.

Lemma filter_strict_eq (r : value) (imgs : list Api.Image) :
  List.filter (fun img => strict_eq (Api.aspect_ratio img) r) imgs
  = filter (fun img => Api.aspect_ratio img = r) imgs.
Proof.
  induction imgs as [|img imgs IH]; [reflexivity|].
  rewrite filter_cons. simpl. rewrite IH.
  destruct (decide (Api.aspect_ratio img = r)) as [He|He].
  - apply strict_eq_spec in He. now rewrite He.
  - destruct (strict_eq (Api.aspect_ratio img) r) eqn:Hs; [|reflexivity].
    apply strict_eq_spec in Hs. contradiction.
Qed.

Lemma getImageUrl_located (p : ImageGallery.props) (img : Api.Image) :
  has_location img -> is_Some (ImageGallery.getImageUrl p img).
Proof.
  unfold ImageGallery.getImageUrl. intros [H|H].
  - rewrite H. now eexists.
  - destruct (truthy (Api.url img)); [now eexists|]. rewrite H. now eexists.
Qed.

(** Mapping with the index a function that keeps the image gives the
    images back. *)
Lemma omap_imap_items (f : nat -> Api.Image -> option ImageGallery.item)
    (l : list Api.Image) :
  (forall i img, has_location img ->
                 exists it, f i img = Some it /\ ImageGallery.item_image it = img) ->
  Forall has_location l ->
  omap (fun o : option ImageGallery.item => ImageGallery.item_image <$> o)
       (imap f l) = l.
Proof.
  intros Hf Hl; revert f Hf.
  induction Hl as [|img l Himg Hl IH]; intros f Hf; [reflexivity|].
  cbn [imap omap]. destruct (Hf 0 img Himg) as (it & -> & Hit).
  cbn. rewrite Hit. f_equal. apply IH.
  intros i img' Hloc. apply (Hf (S i) img' Hloc).
Qed.

(** C6.  Filtering happens in the component, on the [images] prop: the
    click on a filter button only stores the ratio and sends nothing.
    With no ratio selected ([null]) every image is kept, in order; with a
    ratio [r] selected the images kept are exactly those whose
    [aspect_ratio] is [r], a subsequence in the original order; and, the
    images carrying a location, the gallery renders exactly the images
    kept. *)
Theorem filteredImages_subsequence (p : ImageGallery.props)
    (st : ImageGallery.state) (imgs : list Api.Image) (r : value) :
  ImageGallery.images p = Some imgs ->
  truthy r = true ->
  Forall has_location imgs ->
  ImageGallery.filteredImages VNull imgs = imgs
  /\ ImageGallery.filteredImages r imgs
     = filter (fun img => Api.aspect_ratio img = r) imgs
  /\ ImageGallery.filteredImages r imgs `sublist_of` imgs
  /\ ImageGallery.handle p (ImageGallery.SelectRatio r) st
     = (ImageGallery.setSelectedAspectRatio r st, None)
  /\ rendered_images p (ImageGallery.setSelectedAspectRatio VNull st) = imgs
  /\ rendered_images p (ImageGallery.setSelectedAspectRatio r st)
     = filter (fun img => Api.aspect_ratio img = r) imgs.
Proof.
  intros Hp Hr Hloc.
  assert (ImageGallery.filteredImages r imgs
          = filter (fun img => Api.aspect_ratio img = r) imgs) as Hf.
  { unfold ImageGallery.filteredImages. rewrite Hr. apply filter_strict_eq. }
  assert (forall sel,
             rendered_images p (ImageGallery.setSelectedAspectRatio sel st)
             = ImageGallery.filteredImages sel imgs) as Hrend.
  { intros sel. unfold rendered_images, ImageGallery.render. rewrite Hp.
    destruct imgs as [|img imgs'] eqn:Himgs.
    { unfold ImageGallery.filteredImages. now destruct (truthy sel). }
    rewrite <- Himgs in *. clear Himgs.
    unfold ImageGallery.gallery_grid.
    cbn [ImageGallery.selectedAspectRatio ImageGallery.setSelectedAspectRatio].
    apply omap_imap_items.
    - intros i img0 Himg.
      destruct (getImageUrl_located p img0 Himg) as [u ->].
      eexists. split; reflexivity.
    - unfold ImageGallery.filteredImages. destruct (truthy sel); [|exact Hloc].
      apply List.Forall_forall. intros img0 Hin.
      apply List.filter_In in Hin as [Hin _].
      revert img0 Hin. now apply List.Forall_forall. }
  split; [reflexivity|]. split; [exact Hf|].
  split; [rewrite Hf; apply sublist_filter|]. split; [reflexivity|].
  split; [apply (Hrend VNull)|]. now rewrite Hrend.
Qed.

Lemma filteredImages_subsequence_witness :
  ImageGallery.filteredImages (VStr (lit "1:1"))
    [Examples.square; Examples.portrait; Examples.landscape; Examples.square]
  = [Examples.square; Examples.square].
Proof.
  destruct (filteredImages_subsequence Examples.gallery ImageGallery.initial
              [Examples.square; Examples.portrait; Examples.landscape;
               Examples.square] (VStr (lit "1:1")))
    as (_ & Hf & _).
  - reflexivity.
  - vm_compute. reflexivity.
  - repeat (apply List.Forall_cons;
            [(left; reflexivity) || (right; reflexivity)|]).
    apply List.Forall_nil.
  - rewrite Hf. vm_compute. reflexivity.
Defined.

(** C5.  When the brand name or the image path is absent (falsy:
    [undefined], [null] or the empty string), [handleCheckCompliance]
    sends no request; it records 'Missing brand name or image' for that
    index and touches nothing else. *)
Theorem compliance_check_needs_brand_and_image (p : ImageGallery.props)
    (imagePath : value) (imageIndex : nat) (st : ImageGallery.state) :
  truthy (ImageGallery.brandName p) = false \/ truthy imagePath = false ->
  exists st',
    ImageGallery.handleCheckCompliance_start p imagePath imageIndex st
    = (st', None)
    /\ ImageGallery.complianceErrors st' !! imageIndex
       = Some (Some (lit "Missing brand name or image"))
    /\ (forall j, j <> imageIndex ->
                  ImageGallery.complianceErrors st' !! j
                  = ImageGallery.complianceErrors st !! j)
    /\ ImageGallery.complianceLoading st' = ImageGallery.complianceLoading st
    /\ ImageGallery.complianceResults st' = ImageGallery.complianceResults st
    /\ ImageGallery.selectedAspectRatio st' = ImageGallery.selectedAspectRatio st.
Proof.
  intros Habs. unfold ImageGallery.handleCheckCompliance_start.
  assert (negb (truthy (ImageGallery.brandName p)) || negb (truthy imagePath)
          = true) as ->.
  { destruct Habs as [-> | ->]; [reflexivity | apply orb_true_r]. }
  eexists. split; [reflexivity|].
  cbn [ImageGallery.complianceErrors ImageGallery.setComplianceErrors
       ImageGallery.complianceLoading ImageGallery.complianceResults
       ImageGallery.selectedAspectRatio].
  split; [apply lookup_insert_eq|].
  split; [intros j Hj; now apply lookup_insert_ne|].
  repeat split.
Qed.

Lemma compliance_check_needs_brand_and_image_witness :
  exists st',
    ImageGallery.handleCheckCompliance_start Examples.unbranded_gallery
      (VStr (lit "a/square.png")) 0 ImageGallery.initial
    = (st', None)
    /\ ImageGallery.complianceErrors st' !! 0
       = Some (Some (lit "Missing brand name or image")).
Proof.
  destruct (compliance_check_needs_brand_and_image Examples.unbranded_gallery
              (VStr (lit "a/square.png")) 0 ImageGallery.initial)
    as (st' & Hs & He & _).
  - left. reflexivity.
  - exists st'. split; [exact Hs | exact He].
Defined.

Lemma gallery_grid_lookup (p : ImageGallery.props) (st : ImageGallery.state)
    (imgs : list Api.Image) (k : nat) (it : ImageGallery.item) :
  ImageGallery.gallery_grid p st imgs !! k = Some (Some it) ->
  ImageGallery.item_index it = k
  /\ ImageGallery.filteredImages (ImageGallery.selectedAspectRatio st) imgs !! k
     = Some (ImageGallery.item_image it)
  /\ (forall c, ImageGallery.item_check it = Some c ->
                c = (Api.path (ImageGallery.item_image it), k))
  /\ ImageGallery.item_loading it = ImageGallery.complianceLoading st !! k
  /\ ImageGallery.item_error it = ImageGallery.complianceErrors st !! k
  /\ ImageGallery.item_result it = ImageGallery.complianceResults st !! k.
Proof.
  unfold ImageGallery.gallery_grid. rewrite list_lookup_imap.
  destruct (ImageGallery.filteredImages (ImageGallery.selectedAspectRatio st) imgs !! k)
    as [img|]; [|discriminate].
  cbn. destruct (ImageGallery.getImageUrl p img); [|discriminate].
  intros [= <-]. cbn. repeat split.
  intros c. destruct (truthy (ImageGallery.brandName p)); [|discriminate].
  now intros [= <-].
Qed.

(** C8.  The item rendered at position [k] of the filtered sequence
    passes [k] to [handleCheckCompliance] and shows the entries at key [k]
    of the loading, result and error objects.  A check for index
    [imageIndex], when it starts and when its response arrives, leaves
    the entries of every other index in the three objects as they were. *)
Theorem compliance_state_keyed_by_index (p : ImageGallery.props)
    (st : ImageGallery.state) (imgs : list Api.Image)
    (imagePath : value) (imageIndex j : nat)
    (r : Api.response Api.ErrorData Api.ComplianceVerdict) :
  j <> imageIndex ->
  (forall k it,
      ImageGallery.gallery_grid p st imgs !! k = Some (Some it) ->
      ImageGallery.item_index it = k
      /\ ImageGallery.filteredImages (ImageGallery.selectedAspectRatio st) imgs !! k
         = Some (ImageGallery.item_image it)
      /\ (forall c, ImageGallery.item_check it = Some c ->
                    c = (Api.path (ImageGallery.item_image it), k))
      /\ ImageGallery.item_loading it = ImageGallery.complianceLoading st !! k
      /\ ImageGallery.item_error it = ImageGallery.complianceErrors st !! k
      /\ ImageGallery.item_result it = ImageGallery.complianceResults st !! k)
  /\ (let st' := (ImageGallery.handleCheckCompliance_start
                    p imagePath imageIndex st).1 in
      ImageGallery.complianceLoading st' !! j = ImageGallery.complianceLoading st !! j
      /\ ImageGallery.complianceResults st' !! j = ImageGallery.complianceResults st !! j
      /\ ImageGallery.complianceErrors st' !! j = ImageGallery.complianceErrors st !! j)
  /\ (let st' := ImageGallery.handleCheckCompliance_finish imageIndex r st in
      ImageGallery.complianceLoading st' !! j = ImageGallery.complianceLoading st !! j
      /\ ImageGallery.complianceResults st' !! j = ImageGallery.complianceResults st !! j
      /\ ImageGallery.complianceErrors st' !! j = ImageGallery.complianceErrors st !! j).
Proof.
  intros Hj. split; [|split].
  - intros k it. apply gallery_grid_lookup.
  - unfold ImageGallery.handleCheckCompliance_start.
    destruct (negb (truthy (ImageGallery.brandName p)) || negb (truthy imagePath));
      cbn; rewrite ?lookup_insert_ne by congruence; repeat split.
  - unfold ImageGallery.handleCheckCompliance_finish.
    destruct (ImageGallery.check_outcome r);
      cbn; rewrite ?lookup_insert_ne by congruence; repeat split.
Qed.

Lemma compliance_state_keyed_by_index_witness :
  let st := (ImageGallery.handleCheckCompliance_start Examples.gallery
               (VStr (lit "a/portrait.png")) 1 ImageGallery.initial).1 in
  ImageGallery.complianceLoading st !! 1 = Some true
  /\ ImageGallery.complianceLoading st !! 0 = None
  /\ ImageGallery.complianceResults st !! 0 = None
  /\ ImageGallery.complianceErrors st !! 0 = None.
Proof.
  destruct (compliance_state_keyed_by_index Examples.gallery ImageGallery.initial
              [Examples.square; Examples.portrait] (VStr (lit "a/portrait.png"))
              1 0 (Api.NetworkError (lit "Failed to fetch")))
    as (_ & (Hl & Hr & He) & _).
  - lia.
  - split; [reflexivity|]. split; [exact Hl|]. split; [exact Hr | exact He].
Defined.

End ImageGalleryFacts.

(* ===================================================================== *)
(** ** The application: errors and the forms on the page                  *)
(* ===================================================================== *)

Section AppFacts.
Import JS Spec.

Lemma truthy_VStr (m : jstring) : truthy (VStr m) = true <-> m <> [].
Proof.
  cbn [truthy]. destruct (jstring_eqb m []) eqn:H; cbn [negb].
  - apply jstring_eqb_eq in H. split; [discriminate | congruence].
  - apply jstring_eqb_neq in H. split; [now intros _ | reflexivity].
Qed.

(** What [failure_info] hands to [setError], case by case; an exception
    ends in the [catch] block, which records a non-sensitive error. *)
Lemma failure_info_sensitive (err : value) :
  (exists e, App.failure_info err = Normal e
             /\ (truthy (App.isSensitiveContent e) = true <->
                 exists m l r, err = VStr m /\ m = l ++ lit "sensitive" ++ r))
  \/ ((exists msg, App.failure_info err = Throw msg)
      /\ ~ exists m, err = VStr m).
Proof.
  unfold App.failure_info. destruct err as [| |[|]|m].
  - left. eexists. split; [reflexivity|]. cbn. split; [discriminate|].
    intros (m & l & r & H & _). discriminate H.
  - left. eexists. split; [reflexivity|]. cbn. split; [discriminate|].
    intros (m & l & r & H & _). discriminate H.
  - right. split; [now eexists|]. intros (m & H). discriminate H.
  - left. eexists. split; [reflexivity|]. cbn. split; [discriminate|].
    intros (m & l & r & H & _). discriminate H.
  - left. destruct (truthy (VStr m)) eqn:Hm.
    + eexists. split; [reflexivity|]. cbn [App.isSensitiveContent truthy].
      rewrite includes_spec. split.
      * intros (l & r & H). now exists m, l, r.
      * intros (m' & l & r & [= <-] & H). now exists l, r.
    + eexists. split; [reflexivity|]. cbn [App.isSensitiveContent].
      rewrite Hm. split; [discriminate|].
      intros (m' & l & r & [= <-] & H).
      assert (m = []) as ->.
      { destruct (truthy_VStr m) as [_ Hn].
        destruct (decide (m = [])) as [?|Hne]; [assumption|].
        rewrite (Hn Hne) in Hm. discriminate Hm. }
      destruct l; discriminate H.
Qed.

Lemma strict_eq_failed_completed :
  strict_eq (VStr (lit "failed")) (VStr (lit "completed")) = false.
Proof. reflexivity. Qed.

(** C4.  On a polled status that says [failed], the error recorded is
    classified as sensitive exactly when the status carries an error
    string in which 'sensitive' occurs; every other failed status, the one
    without an error message included, is recorded as not sensitive. *)
Theorem failed_status_sensitive_iff (w : App.world) (pollInterval : nat)
    (job : value) (s : Api.JobStatus) :
  Api.status s = VStr (lit "failed") ->
  exists e,
    App.error (App.cells (App.on_status pollInterval job
                            (Api.HttpOk (Api.Json s)) w)) = Some e
    /\ (truthy (App.isSensitiveContent e) = true <->
        exists m l r, Api.error s = VStr m /\ m = l ++ lit "sensitive" ++ r).
Proof.
  intros Hs. unfold App.on_status. rewrite Hs, strict_eq_failed_completed.
  assert (strict_eq (VStr (lit "failed")) (VStr (lit "failed")) = true) as ->
    by reflexivity.
  destruct (failure_info_sensitive (Api.error s))
    as [(e & -> & He) | ((msg & ->) & Hn)].
  - exists e. split; [reflexivity | exact He].
  - eexists. split; [reflexivity|]. cbn. split; [discriminate|].
    intros (m & l & r & H & _). exfalso. apply Hn. now exists m.
Qed.

Lemma failed_status_sensitive_iff_witness :
  exists e,
    App.error (App.cells (App.on_status 0 (VStr (lit "job-1"))
      (Api.HttpOk (Api.Json Examples.flagged_status)) App.initial)) = Some e
    /\ truthy (App.isSensitiveContent e) = true.
Proof.
  destruct (failed_status_sensitive_iff App.initial 0 (VStr (lit "job-1"))
              Examples.flagged_status) as (e & He & Hiff).
  - reflexivity.
  - exists e. split; [exact He|]. apply Hiff.
    exists (lit "Input flagged as sensitive content"),
           (lit "Input flagged as "), (lit " content").
    split; reflexivity.
Defined.

(** After [handleReset], with either argument, the page shows the main
    form of line 217 and nothing else; that form takes no [initialData]. *)
Lemma handleReset_renders_main_form (clearData : bool) (w : App.world) :
  App.render (App.cells (App.handleReset clearData w)) = [App.Form None].
Proof.
  unfold App.handleReset, App.setJobId.
  destruct (decide (App.jobId (App.cells w) = VNull)) as [Hj|Hj];
    destruct clearData; cbn; rewrite ?Hj; reflexivity.
Qed.

Lemma initial_from_request (st st' : CampaignForm.state) (d : Api.CampaignRequest) :
  CampaignForm.handleSubmit st = Normal (st', [d]) ->
  CampaignForm.initial (Some d)
  = {| CampaignForm.products := Api.products d;
       CampaignForm.targetMarket := Api.target_market d;
       CampaignForm.targetAudience := Api.target_audience d;
       CampaignForm.brandName := default [] (Api.brand_name d);
       CampaignForm.campaignMessage := default [] (Api.campaign_message d);
       CampaignForm.errors := ∅ |}.
Proof.
  intros Hs. unfold CampaignForm.handleSubmit in Hs.
  destruct (CampaignForm.validate st) as [[st1 ok]|m] eqn:Hv; [|discriminate].
  cbn [bind] in Hs. destruct ok; cbn [negb] in Hs; [|discriminate].
  destruct (validate_true _ _ Hv) as (_ & Hf & _ & Hm & Ha).
  rewrite Hf in Hs. cbn [bind] in Hs.
  apply Normal_pair_inv in Hs as [_ Hd]. injection Hd as <-.
  cbn [CampaignForm.initial Api.products Api.target_market Api.target_audience
       Api.brand_name Api.campaign_message].
  assert (forall x, trim x <> [] -> CampaignForm.str_or x (lit "US") = x
                                    /\ CampaignForm.str_or x [] = x) as Hor.
  { intros x Hx. unfold CampaignForm.str_or.
    assert (truthy (VStr x) = true) as ->; [|now split].
    apply truthy_VStr. intros ->. now apply Hx. }
  assert (forall x, CampaignForm.field_or (CampaignForm.trim_or_null x) []
                    = default [] (CampaignForm.trim_or_null x)) as Hfield.
  { intros x. unfold CampaignForm.trim_or_null, CampaignForm.field_or,
      CampaignForm.str_or.
    destruct (truthy (VStr (trim x))) eqn:Hx; [|reflexivity].
    cbn [default]. now rewrite Hx. }
  destruct (Hor _ Hm) as [-> _]. destruct (Hor _ Ha) as [_ ->].
  now rewrite !Hfield.
Qed.

End AppFacts.

(* ===================================================================== *)
(** ** The application: polling                                           *)
(* ===================================================================== *)

(** Unfolds the setters and the bookkeeping of the event loop. *)
Ltac app_simpl :=
  cbn [App.cells App.interval App.next_timer App.inflight App.sent
       App.with_cells App.setJobStatus App.setGeneratedImages App.setError
       App.setLastCampaignData App.fetch App.resume App.poll App.poll_catch
       App.generate_catch App.handleGenerate_start] in *.

Section PollingFacts.
Import JS Spec.

Lemma clearInterval_frame (id : nat) (w : App.world) :
  App.cells (App.clearInterval id w) = App.cells w
  /\ App.sent (App.clearInterval id w) = App.sent w
  /\ App.inflight (App.clearInterval id w) = App.inflight w
  /\ App.next_timer (App.clearInterval id w) = App.next_timer w.
Proof.
  unfold App.clearInterval. destruct (App.interval w) as [t|]; [|now repeat split].
  destruct (Nat.eqb (App.timer_id t) id); now repeat split.
Qed.

Lemma clearInterval_interval (id : nat) (w : App.world) :
  match App.interval w with
  | Some t =>
      if Nat.eqb (App.timer_id t) id
      then App.interval (App.clearInterval id w) = None
      else App.interval (App.clearInterval id w) = Some t
  | None => App.interval (App.clearInterval id w) = None
  end.
Proof.
  unfold App.clearInterval. destruct (App.interval w) as [t|] eqn:Hi; [|exact Hi].
  destruct (Nat.eqb (App.timer_id t) id); [reflexivity | exact Hi].
Qed.

Lemma clearInterval_own (t : App.timer) (w : App.world) :
  App.interval w = Some t ->
  App.interval (App.clearInterval (App.timer_id t) w) = None.
Proof.
  intros Hi. pose proof (clearInterval_interval (App.timer_id t) w) as H.
  rewrite Hi, Nat.eqb_refl in H. exact H.
Qed.

Lemma clearInterval_none (id : nat) (w : App.world) :
  App.interval w = None -> App.clearInterval id w = w.
Proof. intros Hi. unfold App.clearInterval. now rewrite Hi. Qed.

(** A cleared interval stays cleared, and nothing registers one. *)
Lemma clearInterval_shrinks (id : nat) (w : App.world) (t : App.timer) :
  App.interval (App.clearInterval id w) = Some t -> App.interval w = Some t.
Proof.
  intros H. pose proof (clearInterval_interval id w) as Hc.
  destruct (App.interval w) as [t'|]; [|congruence].
  destruct (Nat.eqb (App.timer_id t') id); congruence.
Qed.

Lemma setJobId_sent (v : value) (w : App.world) :
  App.sent (App.setJobId v w) = App.sent w
  /\ App.inflight (App.setJobId v w) = App.inflight w.
Proof.
  unfold App.setJobId. destruct (decide _); [now split|].
  destruct (truthy v); now split.
Qed.

(** The requests a status response makes the callback send: the images
    request when the status says [completed], nothing otherwise. *)
Lemma on_status_sent (id : nat) (job : value)
    (r : Api.response Api.ErrorData Api.JobStatus) (w : App.world) :
  App.sent (App.on_status id job r w)
  = App.sent w ++
    (if observes_completed (App.StatusResponse 0 r) then [Api.GetImages job] else []).
Proof.
  destruct (clearInterval_frame id w) as (_ & Hs & _).
  destruct r as [m|b|[s|m]]; cbn [App.on_status observes_completed];
    app_simpl; rewrite ?Hs, ?app_nil_r; try reflexivity.
  destruct (strict_eq (Api.status s) (VStr (lit "completed"))).
  - app_simpl.
    destruct (clearInterval_frame id (App.setJobStatus (Some s) w)) as (_ & -> & _).
    reflexivity.
  - rewrite app_nil_r.
    destruct (strict_eq (Api.status s) (VStr (lit "failed"))); [|reflexivity].
    destruct (clearInterval_frame id (App.setJobStatus (Some s) w)) as (_ & Hs' & _).
    destruct (App.failure_info (Api.error s)); app_simpl.
    + exact Hs'.
    + destruct (clearInterval_frame id
                  (App.clearInterval id (App.setJobStatus (Some s) w)))
        as (_ & -> & _).
      exact Hs'.
Qed.

(** The interval after a status response: cleared for this poll's handle
    when the response stops polling, untouched otherwise. *)
Lemma on_status_interval (id : nat) (job : value)
    (r : Api.response Api.ErrorData Api.JobStatus) (w : App.world) :
  App.interval (App.on_status id job r w)
  = if stops_polling r then App.interval (App.clearInterval id w)
    else App.interval w.
Proof.
  assert (forall v, App.interval (App.clearInterval id (App.setJobStatus v w))
                    = App.interval (App.clearInterval id w)) as Hset.
  { intros v. unfold App.clearInterval. app_simpl.
    destruct (App.interval w) as [t|]; [|reflexivity].
    destruct (Nat.eqb (App.timer_id t) id); reflexivity. }
  assert (forall w0, App.interval (App.clearInterval id (App.clearInterval id w0))
                     = App.interval (App.clearInterval id w0)) as Hidem.
  { intros w0. pose proof (clearInterval_interval id w0) as H0.
    destruct (App.interval w0) as [t|] eqn:Hi.
    - destruct (Nat.eqb (App.timer_id t) id) eqn:Ht.
      + now rewrite clearInterval_none.
      + pose proof (clearInterval_interval id (App.clearInterval id w0)) as H1.
        rewrite H0, Ht in H1. congruence.
    - now rewrite !clearInterval_none. }
  destruct r as [m|b|[s|m]]; cbn [App.on_status stops_polling]; app_simpl;
    try reflexivity.
  destruct (strict_eq (Api.status s) (VStr (lit "completed"))); cbn [orb].
  - app_simpl. apply Hset.
  - destruct (strict_eq (Api.status s) (VStr (lit "failed"))); [|reflexivity].
    destruct (App.failure_info (Api.error s)); app_simpl.
    + apply Hset.
    + rewrite Hidem. apply Hset.
Qed.

Lemma on_status_inflight (id : nat) (job : value)
    (r : Api.response Api.ErrorData Api.JobStatus) (w : App.world) :
  App.inflight (App.on_status id job r w)
  = App.inflight w ++
    (if observes_completed (App.StatusResponse 0 r)
     then [App.AwaitImages id job] else []).
Proof.
  destruct (clearInterval_frame id w) as (_ & _ & Hs & _).
  destruct r as [m|b|[s|m]]; cbn [App.on_status observes_completed];
    app_simpl; rewrite ?Hs, ?app_nil_r; try reflexivity.
  destruct (strict_eq (Api.status s) (VStr (lit "completed"))).
  - app_simpl.
    destruct (clearInterval_frame id (App.setJobStatus (Some s) w)) as (_ & _ & -> & _).
    reflexivity.
  - rewrite app_nil_r.
    destruct (strict_eq (Api.status s) (VStr (lit "failed"))); [|reflexivity].
    destruct (clearInterval_frame id (App.setJobStatus (Some s) w)) as (_ & _ & Hs' & _).
    destruct (App.failure_info (Api.error s)); app_simpl.
    + exact Hs'.
    + destruct (clearInterval_frame id
                  (App.clearInterval id (App.setJobStatus (Some s) w)))
        as (_ & _ & -> & _).
      exact Hs'.
Qed.

Lemma on_images_frame (id : nat)
    (r : Api.response Api.ErrorData Api.GenerationResult) (w : App.world) :
  App.sent (App.on_images id r w) = App.sent w
  /\ App.inflight (App.on_images id r w) = App.inflight w
  /\ (App.interval (App.on_images id r w) = App.interval w
      \/ App.interval (App.on_images id r w) = App.interval (App.clearInterval id w)).
Proof.
  destruct (clearInterval_frame id w) as (_ & Hs & Hi & _).
  destruct r as [m|b|[g|m]]; cbn [App.on_images]; app_simpl;
    rewrite ?Hs, ?Hi; repeat split; auto.
Qed.

Lemma on_generate_frame
    (r : Api.response Api.ErrorData Api.GenerateAccepted) (w : App.world) :
  App.sent (App.on_generate r w) = App.sent w
  /\ App.inflight (App.on_generate r w) = App.inflight w.
Proof.
  destruct r as [m|[e|m]|[g|m]]; cbn [App.on_generate]; app_simpl;
    try (now split).
  apply setJobId_sent.
Qed.

Lemma handleReset_frame (clearData : bool) (w : App.world) :
  App.sent (App.handleReset clearData w) = App.sent w
  /\ App.inflight (App.handleReset clearData w) = App.inflight w
  /\ (App.interval (App.handleReset clearData w) = None
      \/ App.interval (App.handleReset clearData w) = App.interval w).
Proof.
  unfold App.handleReset, App.setJobId.
  destruct (decide (App.jobId (App.cells w) = VNull)); destruct clearData;
    cbn; repeat split; auto.
Qed.

Lemma observes_completed_position (k : nat)
    (r : Api.response Api.ErrorData Api.JobStatus) :
  observes_completed (App.StatusResponse k r)
  = observes_completed (App.StatusResponse 0 r).
Proof. reflexivity. Qed.

Lemma images_requests_sent (w w' : App.world) (l : list Api.request) :
  App.sent w' = App.sent w ++ l ->
  images_requests w' = images_requests w + length (List.filter is_images_request l).
Proof.
  intros H. unfold images_requests. now rewrite H, List.filter_app, length_app.
Qed.

Lemma status_requests_sent (w w' : App.world) (l : list Api.request) :
  App.sent w' = App.sent w ++ l ->
  status_requests w' = status_requests w + length (List.filter is_status_request l).
Proof.
  intros H. unfold status_requests. now rewrite H, List.filter_app, length_app.
Qed.

(** What one turn of the event loop sends. *)
Lemma step_sent (ev : App.event) (w w' : App.world) :
  App.step ev w = Some w' ->
  exists l,
    App.sent w' = App.sent w ++ l
    /\ length (List.filter is_images_request l)
       = (if observes_completed ev then 1 else 0)
    /\ length (List.filter is_status_request l)
       = (match ev with App.Tick => 1 | _ => 0 end).
Proof.
  destruct ev as [d|b| |k r|k r|k r]; cbn [App.step].
  - intros [= <-]. eexists. app_simpl. split; [reflexivity|]. now split.
  - intros [= <-]. exists []. rewrite app_nil_r.
    split; [apply handleReset_frame|]. now split.
  - destruct (App.interval w) as [t|]; [|discriminate].
    intros [= <-]. eexists. app_simpl. split; [reflexivity|]. now split.
  - destruct (App.inflight w !! k) as [[| |]|]; try discriminate.
    intros [= <-]. exists []. rewrite app_nil_r.
    destruct (on_generate_frame r (App.resume k w)) as [-> _].
    split; [reflexivity|]. now split.
  - destruct (App.inflight w !! k) as [[|id job|]|]; try discriminate.
    intros [= <-].
    exists (if observes_completed (App.StatusResponse 0 r)
            then [Api.GetImages job] else []).
    split; [now rewrite on_status_sent|].
    rewrite (observes_completed_position k r).
    destruct (observes_completed (App.StatusResponse 0 r)); now split.
  - destruct (App.inflight w !! k) as [[| |id job]|]; try discriminate.
    intros [= <-]. exists []. rewrite app_nil_r.
    destruct (on_images_frame id r (App.resume k w)) as (-> & _).
    split; [reflexivity|]. now split.
Qed.

(** Over a whole run the images requests are counted by the [completed]
    observations: each one sends exactly one. *)
Lemma run_images_requests (evs : list App.event) (w w' : App.world) :
  App.run evs w = Some w' ->
  images_requests w' = images_requests w + completed_observations evs.
Proof.
  revert w; induction evs as [|ev evs IH]; intros w; cbn [App.run].
  - intros [= <-]. unfold completed_observations. simpl. lia.
  - destruct (App.step ev w) as [w1|] eqn:Hstep; [|discriminate].
    intros Hrun. rewrite (IH _ Hrun).
    destruct (step_sent _ _ _ Hstep) as (l & Hl & Hi & _).
    rewrite (images_requests_sent _ _ _ Hl), Hi.
    unfold completed_observations. cbn [List.filter].
    destruct (observes_completed ev); simpl; lia.
Qed.

(** With no interval registered, nothing polls until a response to
    [POST /api/generate] arrives. *)
Lemma step_without_interval (ev : App.event) (w w' : App.world) :
  App.interval w = None ->
  accepts_job ev = false ->
  App.step ev w = Some w' ->
  App.interval w' = None /\ status_requests w' = status_requests w.
Proof.
  intros Hi Hev Hstep.
  destruct (step_sent _ _ _ Hstep) as (l & Hl & _ & Hs).
  rewrite (status_requests_sent _ _ _ Hl), Hs.
  destruct ev as [d|b| |k r|k r|k r]; cbn [App.step] in Hstep;
    try discriminate Hev.
  - injection Hstep as <-. app_simpl. split; [exact Hi | lia].
  - injection Hstep as <-.
    destruct (handleReset_frame b w) as (_ & _ & [H|H]); split; try lia; congruence.
  - rewrite Hi in Hstep. discriminate Hstep.
  - destruct (App.inflight w !! k) as [[|id job|]|]; try discriminate.
    injection Hstep as <-. split; [|lia].
    rewrite on_status_interval.
    destruct (stops_polling r); [|exact Hi].
    rewrite clearInterval_none; [exact Hi | exact Hi].
  - destruct (App.inflight w !! k) as [[| |id job]|]; try discriminate.
    injection Hstep as <-. split; [|lia].
    destruct (on_images_frame id r (App.resume k w)) as (_ & _ & [H|H]);
      rewrite H; [exact Hi|].
    rewrite clearInterval_none; [exact Hi | exact Hi].
Qed.

Lemma run_without_interval (evs : list App.event) (w w' : App.world) :
  App.interval w = None ->
  existsb accepts_job evs = false ->
  App.run evs w = Some w' ->
  App.interval w' = None /\ status_requests w' = status_requests w.
Proof.
  revert w; induction evs as [|ev evs IH]; intros w Hi Hevs; cbn [App.run].
  - intros [= <-]. now split.
  - cbn [existsb] in Hevs. apply orb_false_iff in Hevs as [Hev Hevs].
    destruct (App.step ev w) as [w1|] eqn:Hstep; [|discriminate].
    intros Hrun.
    destruct (step_without_interval _ _ _ Hi Hev Hstep) as [Hi1 Hs1].
    destruct (IH _ Hi1 Hevs Hrun) as [Hi' Hs']. split; [exact Hi' | congruence].
Qed.

Lemma on_status_jobId (id : nat) (job : value)
    (r : Api.response Api.ErrorData Api.JobStatus) (w : App.world) :
  App.jobId (App.cells (App.on_status id job r w)) = App.jobId (App.cells w).
Proof.
  assert (forall w0, App.jobId (App.cells (App.clearInterval id w0))
                     = App.jobId (App.cells w0)) as Hc.
  { intros w0. now destruct (clearInterval_frame id w0) as (-> & _). }
  destruct r as [m|b|[s|m]]; cbn [App.on_status]; app_simpl;
    cbn [App.jobId]; rewrite ?Hc; try reflexivity.
  destruct (strict_eq (Api.status s) (VStr (lit "completed"))).
  { app_simpl. now rewrite Hc. }
  destruct (strict_eq (Api.status s) (VStr (lit "failed"))); [|reflexivity].
  destruct (App.failure_info (Api.error s)); app_simpl; cbn [App.jobId];
    now rewrite ?Hc.
Qed.

Lemma on_images_jobId (id : nat)
    (r : Api.response Api.ErrorData Api.GenerationResult) (w : App.world) :
  App.jobId (App.cells (App.on_images id r w)) = App.jobId (App.cells w).
Proof.
  destruct (clearInterval_frame id w) as (Hc & _).
  destruct r as [m|b|[g|m]]; cbn [App.on_images]; app_simpl;
    cbn [App.jobId]; rewrite ?Hc; reflexivity.
Qed.

Lemma setJobId_interval_ok (v : value) (w : App.world) :
  interval_ok w -> interval_ok (App.setJobId v w).
Proof.
  intros Hw. unfold App.setJobId.
  destruct (decide (App.jobId (App.cells w) = v)) as [_|_]; [exact Hw|].
  destruct (truthy v) eqn:Hv; intros t; cbn; [|discriminate].
  intros [= <-]. cbn. now repeat split.
Qed.

Lemma step_interval_ok (ev : App.event) (w w' : App.world) :
  interval_ok w -> App.step ev w = Some w' -> interval_ok w'.
Proof.
  intros Hw. destruct ev as [d|b| |k r|k r|k r]; cbn [App.step].
  - intros [= <-]. exact Hw.
  - intros [= <-]. unfold App.handleReset.
    pose proof (setJobId_interval_ok VNull w Hw) as H.
    destruct b; exact H.
  - destruct (App.interval w) as [t|] eqn:Hi; [|discriminate].
    intros [= <-]. exact Hw.
  - destruct (App.inflight w !! k) as [[| |]|]; try discriminate.
    intros [= <-].
    destruct r as [m|[e|m]|[g|m]]; cbn [App.on_generate]; try exact Hw.
    exact (setJobId_interval_ok _ (App.resume k w) Hw).
  - destruct (App.inflight w !! k) as [[|id job|]|]; try discriminate.
    intros [= <-] t Ht. rewrite on_status_jobId.
    apply Hw. rewrite on_status_interval in Ht.
    destruct (stops_polling r); [|exact Ht].
    exact (clearInterval_shrinks _ _ _ Ht).
  - destruct (App.inflight w !! k) as [[| |id job]|]; try discriminate.
    intros [= <-] t Ht. rewrite on_images_jobId.
    apply Hw.
    destruct (on_images_frame id r (App.resume k w)) as (_ & _ & [H|H]);
      rewrite H in Ht; [exact Ht|].
    exact (clearInterval_shrinks _ _ _ Ht).
Qed.

(** Every registered interval has the period 2000 ms and polls the job
    held in [jobId]. *)
Lemma reachable_interval_ok (w : App.world) : reachable w -> interval_ok w.
Proof.
  intros [evs Hrun].
  assert (forall w0, interval_ok w0 -> App.run evs w0 = Some w -> interval_ok w)
    as Hgen.
  { clear Hrun. induction evs as [|ev evs IH]; intros w0 H0; cbn [App.run].
    - now intros [= <-].
    - destruct (App.step ev w0) as [w1|] eqn:Hstep; [|discriminate].
      apply IH. exact (step_interval_ok _ _ _ H0 Hstep). }
  apply (Hgen App.initial); [|exact Hrun].
  intros t Ht. discriminate Ht.
Qed.

(** *** Polls that do not overlap *)

Lemma In_delete {A} (k : nat) (l : list A) (x : A) :
  In x (delete k l) -> In x l.
Proof.
  revert k; induction l as [|y l IH]; intros k; [now destruct k|].
  destruct k as [|k]; cbn; [now right|].
  intros [H|H]; [now left | right; now apply (IH k)].
Qed.

Lemma filter_delete_length {A} (P : A -> bool) (k : nat) (l : list A) (x : A) :
  l !! k = Some x ->
  length (List.filter P (delete k l)) + (if P x then 1 else 0)
  = length (List.filter P l).
Proof.
  revert k; induction l as [|y l IH]; intros k; [now destruct k|].
  destruct k as [|k].
  - cbn. intros [= ->]. destruct (P x); simpl; lia.
  - intros Hk. change (delete (S k) (y :: l)) with (y :: delete k l).
    cbn [List.filter]. specialize (IH k Hk).
    destruct (P y), (P x); cbn [length] in *; lia.
Qed.

Lemma filter_none_not_in {A} (P : A -> bool) (l : list A) (x : A) :
  length (List.filter P l) = 0 -> P x = true -> ~ In x l.
Proof.
  intros Hl Hx Hin.
  assert (In x (List.filter P l)) as H by (apply List.filter_In; now split).
  destruct (List.filter P l); [destruct H | discriminate Hl].
Qed.

Lemma existsb_false_filter {A} (P : A -> bool) (l : list A) :
  existsb P l = false -> length (List.filter P l) = 0.
Proof.
  induction l as [|x l IH]; [reflexivity|]. cbn.
  destruct (P x); [discriminate | exact IH].
Qed.

Lemma sequential_step_is_step (ev : App.event) (w w' : App.world) :
  sequential_step ev w = Some w' -> App.step ev w = Some w'.
Proof.
  destruct ev; cbn [sequential_step]; try discriminate; try (intros H; exact H).
  destruct (existsb awaits_status (App.inflight w)); [discriminate|]. intros H; exact H.
Qed.

Lemma sequential_run_is_run (evs : list App.event) (w w' : App.world) :
  sequential_run evs w = Some w' -> App.run evs w = Some w'.
Proof.
  revert w; induction evs as [|ev evs IH]; intros w; cbn; [intros H; exact H|].
  destruct (sequential_step ev w) as [w1|] eqn:Hs; [|discriminate].
  rewrite (sequential_step_is_step _ _ _ Hs). apply IH.
Qed.

(** One turn keeps the polls in step, and a [completed] observation
    leaves no interval behind. *)
Lemma sequential_step_in_step (ev : App.event) (w w' : App.world) :
  polls_in_step w ->
  sequential_step ev w = Some w' ->
  polls_in_step w'
  /\ (observes_completed ev = true -> App.interval w' = None)
  /\ (App.interval w = None -> App.interval w' = None
                               /\ observes_completed ev = false).
Proof.
  intros (Hcount & Hstatus & Himages).
  destruct ev as [d|b| |k r|k r|k r]; cbn [sequential_step App.step];
    try discriminate.
  - (* the interval fires *)
    destruct (existsb awaits_status (App.inflight w)) eqn:Hex; [discriminate|].
    destruct (App.interval w) as [t|] eqn:Hi; [|discriminate].
    intros [= <-]. unfold polls_in_step. app_simpl. rewrite Hi.
    split; [|split; [discriminate | discriminate]].
    split; [|split].
    + rewrite List.filter_app, length_app, (existsb_false_filter _ _ Hex).
      simpl. lia.
    + intros id job Hin. apply in_app_or in Hin as [Hin|[Hin|[]]].
      * now apply (Hstatus id job).
      * injection Hin as <- _. now exists t.
    + intros id job t' Hin Ht'. apply in_app_or in Hin as [Hin|[Hin|[]]];
        [|discriminate Hin].
      apply (Himages id job t' Hin). congruence.
  - (* a status response arrives *)
    destruct (App.inflight w !! k) as [[|id job|]|] eqn:Hk; try discriminate.
    intros [= <-]. unfold polls_in_step.
    destruct (Hstatus id job) as (t & Hi & Hid).
    { apply list_elem_of_In. eapply list_elem_of_lookup_2. exact Hk. }
    pose proof (filter_delete_length awaits_status k _ _ Hk) as Hdel.
    cbn [awaits_status] in Hdel.
    assert (length (List.filter awaits_status (delete k (App.inflight w))) = 0)
      as Hnone by lia.
    assert (App.interval (App.clearInterval id (App.resume k w)) = None) as Hclr.
    { subst id. now apply clearInterval_own. }
    assert (forall id' job',
               ~ In (App.AwaitStatus id' job')
                    (App.inflight (App.on_status id job r (App.resume k w))))
      as Hno.
    { intros id' job' Hin. rewrite on_status_inflight in Hin. app_simpl.
      apply in_app_or in Hin as [Hin|Hin].
      - exact (filter_none_not_in awaits_status _ (App.AwaitStatus id' job')
                 Hnone eq_refl Hin).
      - destruct (observes_completed _); [|destruct Hin].
        destruct Hin as [Hin|[]]. discriminate Hin. }
    split; [|split].
    + split; [|split].
      * rewrite on_status_inflight. app_simpl.
        rewrite List.filter_app, length_app, Hnone.
        destruct (observes_completed _); simpl; lia.
      * intros id' job' Hin. now apply Hno in Hin.
      * intros id' job' t' Hin Ht'. rewrite on_status_interval in Ht'.
        rewrite on_status_inflight in Hin. app_simpl.
        assert (App.interval w = Some t') as Hw.
        { destruct (stops_polling r); [|exact Ht'].
          rewrite Hclr in Ht'. discriminate Ht'. }
        apply in_app_or in Hin as [Hin|Hin].
        { apply In_delete in Hin. now apply (Himages id' job' t' Hin). }
        destruct r as [m|b|[s|m]]; cbn [observes_completed stops_polling] in *;
          try (destruct Hin; fail).
        destruct (strict_eq (Api.status s) (VStr (lit "completed")));
          [|destruct Hin].
        cbn [orb] in Ht'. rewrite Hclr in Ht'. discriminate Ht'.
    + intros Hobs. rewrite on_status_interval.
      destruct r as [m|b|[s|m]]; cbn [observes_completed stops_polling] in *;
        try discriminate Hobs.
      now rewrite Hobs.
    + intros Hn. rewrite Hn in Hi. discriminate Hi.
  - (* an images response arrives *)
    destruct (App.inflight w !! k) as [[| |id job]|] eqn:Hk; try discriminate.
    intros [= <-]. unfold polls_in_step.
    assert (In (App.AwaitImages id job) (App.inflight w)) as Hin0.
    { apply list_elem_of_In. eapply list_elem_of_lookup_2. exact Hk. }
    assert (App.interval (App.on_images id r (App.resume k w)) = App.interval w)
      as Hsame.
    { destruct (on_images_frame id r (App.resume k w)) as (_ & _ & [H|H]);
        rewrite H; [reflexivity|].
      pose proof (clearInterval_interval id (App.resume k w)) as Hc. app_simpl.
      destruct (App.interval w) as [t|] eqn:Hi; [|exact Hc].
      destruct (Nat.eqb_spec (App.timer_id t) id) as [He|_]; [|exact Hc].
      now destruct (Himages id job t Hin0 eq_refl). }
    destruct (on_images_frame id r (App.resume k w)) as (_ & Hinf & _).
    app_simpl.
    pose proof (filter_delete_length awaits_status k _ _ Hk) as Hdel.
    cbn [awaits_status] in Hdel.
    split; [|split; [discriminate|]].
    + split; [|split].
      * rewrite Hinf. lia.
      * intros id' job' Hin. rewrite Hinf in Hin. apply In_delete in Hin.
        rewrite Hsame. now apply (Hstatus id' job').
      * intros id' job' t' Hin Ht'. rewrite Hinf in Hin. apply In_delete in Hin.
        rewrite Hsame in Ht'. now apply (Himages id' job' t' Hin).
    + intros Hn. split; [|reflexivity]. now rewrite Hsame.
Qed.

(** Polls that do not overlap observe [completed] at most once. *)
Lemma sequential_run_observes_once (evs : list App.event) (w w' : App.world) :
  polls_in_step w ->
  sequential_run evs w = Some w' ->
  completed_observations evs <= 1
  /\ (App.interval w = None -> completed_observations evs = 0).
Proof.
  revert w; induction evs as [|ev evs IH]; intros w Hw; cbn [sequential_run].
  - intros _. unfold completed_observations. simpl. split; [lia | reflexivity].
  - destruct (sequential_step ev w) as [w1|] eqn:Hstep; [|discriminate].
    intros Hrun.
    destruct (sequential_step_in_step _ _ _ Hw Hstep) as (Hw1 & Hobs & Hnone).
    destruct (IH _ Hw1 Hrun) as [Hle Hzero].
    unfold completed_observations in *. cbn [List.filter].
    destruct (observes_completed ev) eqn:Hev.
    + split.
      * rewrite length_cons, (Hzero (Hobs eq_refl)). lia.
      * intros Hn. destruct (Hnone Hn) as [_ Hf]. discriminate Hf.
    + split; [exact Hle|]. intros Hn. destruct (Hnone Hn) as [Hn1 _]. now apply Hzero.
Qed.

(** Once the poll of the registered interval stops polling, no interval
    is left and no status request goes out until a job is accepted. *)
Lemma polling_stops (w : App.world) (t : App.timer) (k : nat)
    (r : Api.response Api.ErrorData Api.JobStatus) :
  App.interval w = Some t ->
  App.inflight w !! k = Some (App.AwaitStatus (App.timer_id t) (App.timer_jobId t)) ->
  stops_polling r = true ->
  exists w',
    App.step (App.StatusResponse k r) w = Some w'
    /\ w' = App.on_status (App.timer_id t) (App.timer_jobId t) r (App.resume k w)
    /\ App.interval w' = None
    /\ App.step App.Tick w' = None
    /\ forall evs w'',
         existsb accepts_job evs = false ->
         App.run evs w' = Some w'' ->
         App.interval w'' = None /\ status_requests w'' = status_requests w'.
Proof.
  intros Hi Hk Hr. eexists. cbn [App.step]. rewrite Hk.
  split; [reflexivity|]. split; [reflexivity|].
  assert (App.interval (App.on_status (App.timer_id t) (App.timer_jobId t) r
                          (App.resume k w)) = None) as Hnone.
  { rewrite on_status_interval, Hr. now apply clearInterval_own. }
  split; [exact Hnone|]. split; [now rewrite Hnone|].
  intros evs w'' Hevs Hrun. exact (run_without_interval _ _ _ Hnone Hevs Hrun).
Qed.

(** Accepting a job registers the interval that polls it. *)
Lemma accepted_job_starts_polling (w : App.world) (v : value) :
  truthy v = true ->
  App.jobId (App.cells w) <> v ->
  App.interval (App.on_generate
                  (Api.HttpOk (Api.Json {| Api.accepted_job_id := v |})) w)
  = Some {| App.timer_id := App.next_timer w; App.delay := 2000;
            App.timer_jobId := v |}.
Proof.
  intros Hv Hne. cbn [App.on_generate Api.accepted_job_id]. unfold App.setJobId.
  destruct (decide (App.jobId (App.cells w) = v)) as [He|_]; [contradiction|].
  rewrite Hv. reflexivity.
Qed.

(** Any suspended poll that observes [completed] sends the images request
    of its own job, and only that. *)
Lemma completed_poll_fetches_images (w : App.world) (k id : nat) (job : value)
    (s : Api.JobStatus) :
  App.inflight w !! k = Some (App.AwaitStatus id job) ->
  Api.status s = VStr (lit "completed") ->
  exists w',
    App.step (App.StatusResponse k (Api.HttpOk (Api.Json s))) w = Some w'
    /\ App.sent w' = App.sent w ++ [Api.GetImages job].
Proof.
  intros Hk Hs. eexists. cbn [App.step]. rewrite Hk. split; [reflexivity|].
  rewrite on_status_sent. cbn [observes_completed]. now rewrite Hs.
Qed.

(** C2, as the claim states it, fails: the interval fires every two
    seconds whether or not the previous poll has been answered.  In this
    run a single job, [job-1], is accepted; the interval fires twice
    before the first answer; the first answer says [completed] and clears
    the interval; the second poll, already in flight, is answered
    [completed] too, and [GET /api/images] goes out a second time for the
    same job. *)
Lemma overlapping_polls_fetch_images_twice :
  App.run Examples2.overlapping_events App.initial
  = Some Examples2.overlapping_world
  /\ Spec2.accepted_ids Examples2.overlapping_events = [VStr (lit "job-1")]
  /\ App.sent Examples2.overlapping_world
     = [Api.PostGenerate Examples.padded_request;
        Api.GetStatus (VStr (lit "job-1"));
        Api.GetStatus (VStr (lit "job-1"));
        Api.GetImages (VStr (lit "job-1"));
        Api.GetImages (VStr (lit "job-1"))]
  /\ images_requests Examples2.overlapping_world = 2
  /\ images_requests Examples2.overlapping_world <> 1.
Proof.
  split; [vm_compute; reflexivity|]. split; [reflexivity|].
  split; [vm_compute; reflexivity|]. split; [vm_compute; reflexivity|].
  vm_compute. discriminate.
Qed.

(** C2, amended.  Accepting a job registers an interval of 2000 ms for
    it, and in a reachable world the registered interval has that period
    and polls the job held by the component: each time it fires, whether
    or not an earlier poll is still unanswered, one [GET /api/status] for
    that job goes out and one more poll is in flight.  When one of its
    polls observes [completed] or [failed], the interval is cleared: it
    cannot fire again, and no status request is sent until a new job is
    accepted.  Every poll that observes [completed], of the registered
    interval or of an earlier one, sends exactly one [GET /api/images] for
    its job, and a poll that observes [failed] sends nothing; so over any
    run the images requests are as many as the [completed] observations:
    at most one when polls do not overlap, one more for each further poll
    in flight that observes [completed] as well. *)
Theorem polling_until_terminal (w : App.world) (t : App.timer) (k : nat)
    (s : Api.JobStatus) :
  reachable w ->
  App.interval w = Some t ->
  App.inflight w !! k = Some (App.AwaitStatus (App.timer_id t) (App.timer_jobId t)) ->
  Api.status s = VStr (lit "completed") \/ Api.status s = VStr (lit "failed") ->
  (forall w0 v,
      truthy v = true ->
      App.jobId (App.cells w0) <> v ->
      App.interval (App.on_generate
                      (Api.HttpOk (Api.Json {| Api.accepted_job_id := v |})) w0)
      = Some {| App.timer_id := App.next_timer w0; App.delay := 2000;
                App.timer_jobId := v |})
  /\ (App.delay t = 2000%N /\ App.timer_jobId t = App.jobId (App.cells w))
  /\ (exists w1,
        App.step App.Tick w = Some w1
        /\ App.sent w1 = App.sent w ++ [Api.GetStatus (App.timer_jobId t)]
        /\ App.inflight w1
           = App.inflight w ++ [App.AwaitStatus (App.timer_id t) (App.timer_jobId t)]
        /\ App.interval w1 = Some t)
  /\ (exists w',
        App.step (App.StatusResponse k (Api.HttpOk (Api.Json s))) w = Some w'
        /\ App.interval w' = None
        /\ App.step App.Tick w' = None
        /\ (Api.status s = VStr (lit "completed") ->
            App.sent w' = App.sent w ++ [Api.GetImages (App.timer_jobId t)])
        /\ (Api.status s = VStr (lit "failed") -> App.sent w' = App.sent w)
        /\ forall evs w'',
             existsb accepts_job evs = false ->
             App.run evs w' = Some w'' ->
             App.interval w'' = None /\ status_requests w'' = status_requests w')
  /\ (forall w0 k0 id job s0,
        App.inflight w0 !! k0 = Some (App.AwaitStatus id job) ->
        Api.status s0 = VStr (lit "completed") ->
        exists w1,
          App.step (App.StatusResponse k0 (Api.HttpOk (Api.Json s0))) w0 = Some w1
          /\ App.sent w1 = App.sent w0 ++ [Api.GetImages job])
  /\ (forall evs w0 w1,
        App.run evs w0 = Some w1 ->
        images_requests w1 = images_requests w0 + completed_observations evs)
  /\ (forall evs w0 w1,
        polls_in_step w0 ->
        sequential_run evs w0 = Some w1 ->
        completed_observations evs <= 1
        /\ images_requests w1 <= images_requests w0 + 1).
Proof.
  intros Hreach Hi Hk Hs.
  split; [exact accepted_job_starts_polling|].
  split; [|split; [|split; [|split; [|split]]]].
  - destruct (reachable_interval_ok w Hreach t Hi) as (Hd & _ & Hj). now split.
  - eexists. cbn [App.step]. rewrite Hi. split; [reflexivity|].
    app_simpl. split; [reflexivity|]. split; [reflexivity | exact Hi].
  - assert (stops_polling (Api.HttpOk (Api.Json s)) = true) as Hstop.
    { cbn [stops_polling]. destruct Hs as [-> | ->]; reflexivity. }
    destruct (polling_stops w t k _ Hi Hk Hstop) as (w' & Hstep & Hw' & Hn & Ht & Hrun).
    exists w'. split; [exact Hstep|]. split; [exact Hn|]. split; [exact Ht|].
    split; [|split; [|exact Hrun]].
    + intros Hc. rewrite Hw', on_status_sent. cbn [observes_completed].
      rewrite Hc. reflexivity.
    + intros Hf. rewrite Hw', on_status_sent. cbn [observes_completed].
      rewrite Hf, strict_eq_failed_completed. apply app_nil_r.
  - exact completed_poll_fetches_images.
  - apply run_images_requests.
  - intros evs w0 w1 H0 Hrun.
    destruct (sequential_run_observes_once _ _ _ H0 Hrun) as [Hle _].
    split; [exact Hle|].
    rewrite (run_images_requests _ _ _ (sequential_run_is_run _ _ _ Hrun)). lia.
Qed.

Lemma polling_until_terminal_witness :
  (exists w',
    App.step (App.StatusResponse 0 (Api.HttpOk (Api.Json Examples.completed_status)))
             Examples.polling_world = Some w'
    /\ App.interval w' = None
    /\ App.sent w'
       = [Api.PostGenerate Examples.padded_request;
          Api.GetStatus (VStr (lit "job-1"));
          Api.GetImages (VStr (lit "job-1"))])
  /\ completed_observations
       [App.StatusResponse 0 (Api.HttpOk (Api.Json Examples.completed_status))] <= 1.
Proof.
  destruct (polling_until_terminal Examples.polling_world Examples.polling_timer 0
              Examples.completed_status)
    as (_ & _ & _ & (w' & Hstep & Hn & _ & Hsent & _) & _ & _ & Hseq).
  - exists Examples.polling_events. vm_compute. reflexivity.
  - reflexivity.
  - reflexivity.
  - left. reflexivity.
  - split.
    + exists w'. split; [exact Hstep|]. split; [exact Hn|].
      rewrite (Hsent eq_refl). reflexivity.
    + refine (proj1 (Hseq _ Examples.polling_world w' _ _)).
      * split; [vm_compute; lia|]. split.
        -- intros id job [H|[]]. injection H as <- <-.
           exists Examples.polling_timer. split; reflexivity.
        -- intros id job t0 [H|[]]. discriminate H.
      * cbn [sequential_run sequential_step]. rewrite Hstep. reflexivity.
Defined.

(** C10.  When a poll of the registered interval fails, by a network
    error or by a response that is not OK, the callback clears the
    interval and records an error that is not flagged as sensitive; the
    interval cannot fire again and no status request is sent, whatever the
    server would answer, until a new job is accepted. *)
Theorem poll_failure_stops_polling (w : App.world) (t : App.timer) (k : nat)
    (r : Api.response Api.ErrorData Api.JobStatus) :
  App.interval w = Some t ->
  App.inflight w !! k = Some (App.AwaitStatus (App.timer_id t) (App.timer_jobId t)) ->
  (exists m, r = Api.NetworkError m) \/ (exists b, r = Api.HttpError b) ->
  exists w' message,
    App.step (App.StatusResponse k r) w = Some w'
    /\ App.interval w' = None
    /\ App.error (App.cells w')
       = Some {| App.message := VStr message;
                 App.isSensitiveContent := VBool false |}
    /\ message = match r with
                 | Api.NetworkError m => m
                 | _ => lit "Failed to fetch status"
                 end
    /\ App.sent w' = App.sent w
    /\ App.step App.Tick w' = None
    /\ forall evs w'',
         existsb accepts_job evs = false ->
         App.run evs w' = Some w'' ->
         App.interval w'' = None /\ status_requests w'' = status_requests w'.
Proof.
  intros Hi Hk Hr.
  assert (stops_polling r = true) as Hstop.
  { destruct Hr as [[m ->] | [b ->]]; reflexivity. }
  destruct (polling_stops w t k r Hi Hk Hstop) as (w' & Hstep & Hw' & Hn & Ht & Hrun).
  exists w'. eexists. split; [exact Hstep|]. split; [exact Hn|].
  split; [|split; [reflexivity|split; [|split; [exact Ht | exact Hrun]]]].
  - rewrite Hw'. destruct Hr as [[m ->] | [b ->]]; reflexivity.
  - rewrite Hw', on_status_sent.
    destruct Hr as [[m ->] | [b ->]]; cbn [observes_completed]; apply app_nil_r.
Qed.

Lemma poll_failure_stops_polling_witness :
  exists w',
    App.step (App.StatusResponse 0 (Api.NetworkError (lit "Failed to fetch")))
             Examples.polling_world = Some w'
    /\ App.interval w' = None
    /\ App.error (App.cells w')
       = Some {| App.message := VStr (lit "Failed to fetch");
                 App.isSensitiveContent := VBool false |}.
Proof.
  destruct (poll_failure_stops_polling Examples.polling_world Examples.polling_timer 0
              (Api.NetworkError (lit "Failed to fetch")))
    as (w' & message & Hstep & Hn & He & -> & _).
  - reflexivity.
  - reflexivity.
  - left. now eexists.
  - exists w'. split; [exact Hstep|]. split; [exact Hn | exact He].
Defined.

End PollingFacts.

(* ===================================================================== *)
(** ** The application: the retry form                                    *)
(* ===================================================================== *)

Section RetryFacts.
Import JS Spec Spec2.

(** *** The request [App] remembers *)

Lemma clearInterval_lastCampaignData (id : nat) (w : App.world) :
  App.lastCampaignData (App.cells (App.clearInterval id w))
  = App.lastCampaignData (App.cells w).
Proof. now destruct (clearInterval_frame id w) as (-> & _). Qed.

Lemma setJobId_lastCampaignData (v : value) (w : App.world) :
  App.lastCampaignData (App.cells (App.setJobId v w))
  = App.lastCampaignData (App.cells w).
Proof.
  unfold App.setJobId. destruct (decide _); [reflexivity|].
  destruct (truthy v); reflexivity.
Qed.

Lemma on_status_lastCampaignData (id : nat) (job : value)
    (r : Api.response Api.ErrorData Api.JobStatus) (w : App.world) :
  App.lastCampaignData (App.cells (App.on_status id job r w))
  = App.lastCampaignData (App.cells w).
Proof.
  destruct r as [m|b|[s|m]]; cbn [App.on_status]; app_simpl;
    cbn [App.lastCampaignData]; rewrite ?clearInterval_lastCampaignData;
    try reflexivity.
  destruct (strict_eq (Api.status s) (VStr (lit "completed"))).
  { app_simpl. now rewrite clearInterval_lastCampaignData. }
  destruct (strict_eq (Api.status s) (VStr (lit "failed"))); [|reflexivity].
  destruct (App.failure_info (Api.error s)); app_simpl;
    cbn [App.lastCampaignData]; now rewrite ?clearInterval_lastCampaignData.
Qed.

Lemma on_images_lastCampaignData (id : nat)
    (r : Api.response Api.ErrorData Api.GenerationResult) (w : App.world) :
  App.lastCampaignData (App.cells (App.on_images id r w))
  = App.lastCampaignData (App.cells w).
Proof.
  destruct r as [m|b|[g|m]]; cbn [App.on_images]; app_simpl;
    cbn [App.lastCampaignData]; now rewrite ?clearInterval_lastCampaignData.
Qed.

Lemma on_generate_lastCampaignData
    (r : Api.response Api.ErrorData Api.GenerateAccepted) (w : App.world) :
  App.lastCampaignData (App.cells (App.on_generate r w))
  = App.lastCampaignData (App.cells w).
Proof.
  destruct r as [m|[e|m]|[g|m]]; cbn [App.on_generate]; app_simpl;
    cbn [App.lastCampaignData]; try reflexivity.
  apply setJobId_lastCampaignData.
Qed.

(** What one turn of the event loop does to the remembered request:
    [handleGenerate] stores the one it was called with, [handleReset(true)]
    drops it, and nothing else writes the cell. *)
Lemma step_lastCampaignData (ev : App.event) (w w' : App.world) :
  App.step ev w = Some w' ->
  App.lastCampaignData (App.cells w')
  = match ev with
    | App.Generate d => Some d
    | App.Reset true => None
    | _ => App.lastCampaignData (App.cells w)
    end.
Proof.
  destruct ev as [d|b| |k r|k r|k r]; cbn [App.step].
  - intros [= <-]. reflexivity.
  - intros [= <-]. unfold App.handleReset. destruct b; app_simpl;
      cbn [App.lastCampaignData]; [reflexivity|].
    apply setJobId_lastCampaignData.
  - destruct (App.interval w); [|discriminate]. intros [= <-]. reflexivity.
  - destruct (App.inflight w !! k) as [[| |]|]; try discriminate.
    intros [= <-]. now rewrite on_generate_lastCampaignData.
  - destruct (App.inflight w !! k) as [[|id job|]|]; try discriminate.
    intros [= <-]. now rewrite on_status_lastCampaignData.
  - destruct (App.inflight w !! k) as [[| |id job]|]; try discriminate.
    intros [= <-]. now rewrite on_images_lastCampaignData.
Qed.

Lemma run_split (evs1 evs2 : list App.event) (w w' : App.world) :
  App.run (evs1 ++ evs2) w = Some w' ->
  exists w1, App.run evs1 w = Some w1 /\ App.run evs2 w1 = Some w'.
Proof.
  revert w; induction evs1 as [|ev evs1 IH]; intros w; cbn [app App.run].
  - intros H. now exists w.
  - destruct (App.step ev w) as [w1|]; [|discriminate]. apply IH.
Qed.

Lemma run_keeps_stored_request (evs : list App.event) (w w' : App.world) :
  forallb keeps_stored_request evs = true ->
  App.run evs w = Some w' ->
  App.lastCampaignData (App.cells w') = App.lastCampaignData (App.cells w).
Proof.
  revert w; induction evs as [|ev evs IH]; intros w Hk; cbn [App.run].
  - now intros [= <-].
  - cbn [forallb] in Hk. apply andb_true_iff in Hk as [Hev Hk].
    destruct (App.step ev w) as [w1|] eqn:Hstep; [|discriminate].
    intros Hrun. rewrite (IH _ Hk Hrun), (step_lastCampaignData _ _ _ Hstep).
    destruct ev as [d|[|]| |k r|k r|k r]; try discriminate Hev; reflexivity.
Qed.

Lemma run_without_submission (evs : list App.event) (w w' : App.world) :
  existsb is_generate evs = false ->
  App.lastCampaignData (App.cells w) = None ->
  App.run evs w = Some w' ->
  App.lastCampaignData (App.cells w') = None.
Proof.
  revert w; induction evs as [|ev evs IH]; intros w Hg Hn; cbn [App.run].
  - now intros [= <-].
  - cbn [existsb] in Hg. apply orb_false_iff in Hg as [Hev Hg].
    destruct (App.step ev w) as [w1|] eqn:Hstep; [|discriminate].
    apply (IH _ Hg). rewrite (step_lastCampaignData _ _ _ Hstep).
    destruct ev as [d|[|]| |k r|k r|k r]; try discriminate Hev;
      reflexivity || exact Hn.
Qed.

(** The request remembered at the end of a run is the one of the last
    submission, unless a reset that clears it came later. *)
Lemma run_stores_last_submission (evs1 evs2 : list App.event)
    (d : Api.CampaignRequest) (w w' : App.world) :
  App.run (evs1 ++ App.Generate d :: evs2) w = Some w' ->
  forallb keeps_stored_request evs2 = true ->
  App.lastCampaignData (App.cells w') = Some d.
Proof.
  intros Hrun Hk. apply run_split in Hrun as (w1 & _ & Hrun).
  cbn [App.run App.step] in Hrun.
  now rewrite (run_keeps_stored_request _ _ _ Hk Hrun).
Qed.

Lemma run_cleared_by_reset (evs1 evs2 : list App.event) (w w' : App.world) :
  App.run (evs1 ++ App.Reset true :: evs2) w = Some w' ->
  existsb is_generate evs2 = false ->
  App.lastCampaignData (App.cells w') = None.
Proof.
  intros Hrun Hg. apply run_split in Hrun as (w1 & _ & Hrun).
  cbn [App.run] in Hrun.
  destruct (App.step (App.Reset true) w1) as [w2|] eqn:Hstep; [|discriminate].
  apply (run_without_submission evs2 w2 w' Hg); [|exact Hrun].
  now rewrite (step_lastCampaignData _ _ _ Hstep).
Qed.

(** The campaign forms on a page that shows an error: the retry form of
    lines 304-311, there when the error is flagged and a request is
    remembered, and no other. *)
Lemma forms_on_error_view (c : App.state) (e : App.ErrorInfo)
    (x : option Api.CampaignRequest) :
  App.error c = Some e ->
  In (App.Form x) (App.render c)
  <-> truthy (App.isSensitiveContent e) = true
      /\ exists d, App.lastCampaignData c = Some d /\ x = Some d.
Proof.
  intros He. unfold App.render. rewrite He.
  assert (bool_decide (is_Some (Some e)) = true) as ->
    by (apply bool_decide_eq_true; now eexists).
  rewrite andb_false_r. split.
  - intros Hin.
    apply in_app_or in Hin as [Hin|Hin]; [destruct Hin|].
    apply in_app_or in Hin as [Hin|Hin].
    { destruct (App.jobStatus c) as [s|]; [|destruct Hin].
      destruct (_ && _); [|destruct Hin].
      destruct Hin as [Hin|[]]. discriminate Hin. }
    apply in_app_or in Hin as [Hin|Hin].
    + destruct Hin as [Hin|Hin]; [discriminate Hin|].
      destruct (truthy (App.isSensitiveContent e)); [|destruct Hin].
      split; [reflexivity|].
      destruct (App.lastCampaignData c) as [d|]; [|destruct Hin].
      destruct Hin as [[= <-]|[]]. now exists d.
    + destruct (App.generatedImages c); [|destruct Hin].
      destruct Hin as [Hin|[]]. discriminate Hin.
  - intros (Hs & d & Hd & ->). rewrite Hs, Hd.
    apply in_or_app; right. apply in_or_app; right. apply in_or_app; left.
    right. now left.
Qed.

Lemma error_card_on_error_view (c : App.state) (e : App.ErrorInfo) :
  App.error c = Some e ->
  In (App.ErrorCard e (if truthy (App.isSensitiveContent e)
                       then [App.ModifyAndRetry; App.StartOver]
                       else [App.TryAgain]))
     (App.render c).
Proof.
  intros He. unfold App.render. rewrite He.
  apply in_or_app; right. apply in_or_app; right. apply in_or_app; left.
  now left.
Qed.

(** C7, as the claim states it, fails.  In this run the campaign
    [padded_request] is submitted, the only submission of the run, and
    accepted as [job-1]; two polls are in flight when the first fails on
    the network; the user clicks 'Try Again' on the error card then shown,
    which calls [handleReset(true)]; then the second poll comes back with
    a failure whose message contains 'sensitive'.  The page now shows the
    'Content Flagged' card and no campaign form at all, pre-filled or not,
    and its button 'Modify Campaign & Retry' leads to the blank form.  In
    the run without the reset ([failed_events]) the pre-filled form is on
    the error view, but there too the button leads to the blank form, not
    to one filled with the previous input. *)
Lemma sensitive_failure_without_prefilled_form :
  App.run Examples2.late_flag_events App.initial = Some Examples2.late_flag_world
  /\ List.filter is_generate Examples2.late_flag_events
     = [App.Generate Examples.padded_request]
  /\ (exists w1 e1,
        App.run (firstn 5 Examples2.late_flag_events) App.initial = Some w1
        /\ In (App.ErrorCard e1 [App.TryAgain]) (App.render (App.cells w1))
        /\ nth_error Examples2.late_flag_events 5 = Some (App.onClick App.TryAgain))
  /\ App.error (App.cells Examples2.late_flag_world) = Some Examples2.flagged_error
  /\ truthy (App.isSensitiveContent Examples2.flagged_error) = true
  /\ App.render (App.cells Examples2.late_flag_world)
     = [App.ErrorCard Examples2.flagged_error [App.ModifyAndRetry; App.StartOver]]
  /\ ~ In (App.Form (Some Examples.padded_request))
          (App.render (App.cells Examples2.late_flag_world))
  /\ (exists w',
        App.step (App.onClick App.ModifyAndRetry) Examples2.late_flag_world = Some w'
        /\ App.render (App.cells w') = [App.Form None])
  /\ (exists w',
        App.step (App.onClick App.ModifyAndRetry) Examples2.failed_world = Some w'
        /\ App.render (App.cells w') = [App.Form None])
  /\ App.mounted_form (App.Form None) = Some blank_form
  /\ blank_form <> CampaignForm.initial (Some Examples.padded_request).
Proof.
  split; [vm_compute; reflexivity|]. split; [reflexivity|].
  split.
  { eexists _, _. split; [vm_compute; reflexivity|].
    split; [right; left; reflexivity | reflexivity]. }
  split; [vm_compute; reflexivity|].
  split; [reflexivity|].
  assert (App.render (App.cells Examples2.late_flag_world)
          = [App.ErrorCard Examples2.flagged_error
               [App.ModifyAndRetry; App.StartOver]]) as Hr
    by (vm_compute; reflexivity).
  split; [exact Hr|]. split.
  { rewrite Hr. intros [H|[]]. discriminate H. }
  split; [eexists; split; [reflexivity | apply handleReset_renders_main_form]|].
  split; [eexists; split; [reflexivity | apply handleReset_renders_main_form]|].
  split; [reflexivity|].
  intros H. apply (f_equal CampaignForm.brandName) in H. vm_compute in H.
  discriminate H.
Qed.

(** C7, amended.  With an error on the page at the end of a run: if it
    is flagged as sensitive, the error card offers 'Modify Campaign &
    Retry' and 'Start Over', and, provided no reset that clears the stored
    data came after the last submission, the page shows under the card a
    campaign form mounted with the request of that submission, and no
    other form; its five fields are initialised from the submitted request
    (an absent brand name or message as the empty input).  When such a
    reset came after the last submission, no form is shown with the
    flagged error.  If the error is not flagged, the page shows no form,
    only the error card with the single button 'Try Again', which calls
    [handleReset(true)] and brings back the blank form. *)
Theorem retry_form_prefilled (evs : list App.event) (w0 w : App.world)
    (e : App.ErrorInfo) :
  App.run evs w0 = Some w ->
  App.error (App.cells w) = Some e ->
  (truthy (App.isSensitiveContent e) = true ->
   In (App.ErrorCard e [App.ModifyAndRetry; App.StartOver])
      (App.render (App.cells w))
   /\ (forall evs1 d evs2,
         evs = evs1 ++ App.Generate d :: evs2 ->
         forallb keeps_stored_request evs2 = true ->
         In (App.Form (Some d)) (App.render (App.cells w))
         /\ (forall x, In (App.Form x) (App.render (App.cells w)) -> x = Some d)
         /\ App.mounted_form (App.Form (Some d))
            = Some (CampaignForm.initial (Some d))
         /\ forall st st',
              CampaignForm.handleSubmit st = Normal (st', [d]) ->
              CampaignForm.initial (Some d)
              = {| CampaignForm.products := Api.products d;
                   CampaignForm.targetMarket := Api.target_market d;
                   CampaignForm.targetAudience := Api.target_audience d;
                   CampaignForm.brandName := default [] (Api.brand_name d);
                   CampaignForm.campaignMessage :=
                     default [] (Api.campaign_message d);
                   CampaignForm.errors := ∅ |})
   /\ (forall evs1 evs2,
         evs = evs1 ++ App.Reset true :: evs2 ->
         existsb is_generate evs2 = false ->
         forall x, ~ In (App.Form x) (App.render (App.cells w))))
  /\ (truthy (App.isSensitiveContent e) = false ->
      (forall initialData, ~ In (App.Form initialData) (App.render (App.cells w)))
      /\ In (App.ErrorCard e [App.TryAgain]) (App.render (App.cells w))
      /\ App.onClick App.TryAgain = App.Reset true
      /\ (forall w1, App.step (App.Reset true) w1 = Some (App.handleReset true w1)
                     /\ App.render (App.cells (App.handleReset true w1))
                        = [App.Form None])
      /\ App.mounted_form (App.Form None) = Some blank_form).
Proof.
  intros Hrun He.
  pose proof (error_card_on_error_view _ _ He) as Hcard.
  split; intros Hsens; rewrite Hsens in Hcard.
  - split; [exact Hcard|]. split.
    + intros evs1 d evs2 -> Hkeep.
      pose proof (run_stores_last_submission _ _ _ _ _ Hrun Hkeep) as Hd.
      split; [|split; [|split]].
      * apply (forms_on_error_view _ _ _ He). split; [exact Hsens|]. now exists d.
      * intros x Hx. apply (forms_on_error_view _ _ _ He) in Hx
          as (_ & d' & Hd' & ->). congruence.
      * reflexivity.
      * intros st st'. apply initial_from_request.
    + intros evs1 evs2 -> Hg x Hx.
      pose proof (run_cleared_by_reset _ _ _ _ Hrun Hg) as Hn.
      apply (forms_on_error_view _ _ _ He) in Hx as (_ & d' & Hd' & _).
      congruence.
  - split; [|split; [exact Hcard|split; [reflexivity|split; [|reflexivity]]]].
    + intros x Hx. apply (forms_on_error_view _ _ _ He) in Hx as (Hs & _).
      congruence.
    + intros w1. split; [reflexivity | apply handleReset_renders_main_form].
Qed.

Lemma retry_form_prefilled_witness :
  In (App.Form (Some Examples.padded_request))
     (App.render (App.cells Examples2.failed_world))
  /\ CampaignForm.brandName (CampaignForm.initial (Some Examples.padded_request))
     = lit "Acme".
Proof.
  destruct (retry_form_prefilled Examples2.failed_events App.initial
              Examples2.failed_world Examples2.flagged_error)
    as [Hsens _].
  - vm_compute. reflexivity.
  - vm_compute. reflexivity.
  - destruct (Hsens eq_refl) as (_ & Hform & _).
    destruct (Hform [] Examples.padded_request
                (tl Examples2.failed_events) eq_refl eq_refl) as (Hin & _).
    split; [exact Hin | reflexivity].
Defined.

End RetryFacts.

(* ===================================================================== *)
(** ** More about the campaign form                                       *)
(* ===================================================================== *)

Section CampaignFormMore.
Import JS Spec Spec2.

Lemma blank_true (s : jstring) :
  trim s = [] -> negb (truthy (VStr (trim s))) = true.
Proof.
  intros H. cbn [truthy]. rewrite negb_involutive. now apply jstring_eqb_eq.
Qed.

Lemma blank_false (s : jstring) :
  trim s <> [] -> negb (truthy (VStr (trim s))) = false.
Proof.
  intros H. cbn [truthy]. rewrite negb_involutive. now apply jstring_eqb_neq.
Qed.

(** The error object [validate] builds, key by key, whenever the filter
    of line 47 returns. *)
Lemma validate_result (st : CampaignForm.state) (r : array value) :
  array_filter CampaignForm.nonblank (CampaignForm.products st) = Normal r ->
  exists E,
    CampaignForm.validate st
    = Normal (CampaignForm.setErrors E st, Nat.eqb (size E) 0)
    /\ (forall k,
          E !! k =
          if decide (k = "products") then
            if decide (length r < 2)
            then Some (lit "At least 2 products are required") else None
          else if decide (k = "targetMarket") then
            if decide (trim (CampaignForm.targetMarket st) = [])
            then Some (lit "Target market is required") else None
          else if decide (k = "targetAudience") then
            if decide (trim (CampaignForm.targetAudience st) = [])
            then Some (lit "Target audience is required") else None
          else None).
Proof.
  intros Hf. unfold CampaignForm.validate. rewrite Hf. cbn [bind].
  eexists. split; [reflexivity|].
  intros k.
  destruct (decide (length r < 2));
    destruct (decide (trim (CampaignForm.targetMarket st) = [])) as [Hm|Hm];
    destruct (decide (trim (CampaignForm.targetAudience st) = [])) as [Ha|Ha];
    rewrite ?(blank_true _ Hm), ?(blank_false _ Hm),
            ?(blank_true _ Ha), ?(blank_false _ Ha);
    repeat case_decide; subst; simplify_map_eq; reflexivity.
Qed.

(** X1.  On a form whose product inputs hold strings [validate] always
    returns; it replaces the error object by one that has an entry for
    each failing field and for no other key (all failing fields are
    reported together), leaves the other cells alone, and answers [true]
    exactly when nothing failed. *)
Theorem validate_reports_every_failing_field (st : CampaignForm.state) :
  strings_only (CampaignForm.products st) ->
  exists E ok,
    CampaignForm.validate st = Normal (CampaignForm.setErrors E st, ok)
    /\ (forall k,
          E !! k =
          if decide (k = "products") then
            if decide (length (List.filter is_nonblank (CampaignForm.products st)) < 2)
            then Some (lit "At least 2 products are required") else None
          else if decide (k = "targetMarket") then
            if decide (trim (CampaignForm.targetMarket st) = [])
            then Some (lit "Target market is required") else None
          else if decide (k = "targetAudience") then
            if decide (trim (CampaignForm.targetAudience st) = [])
            then Some (lit "Target audience is required") else None
          else None)
    /\ (ok = true <->
        2 <= length (List.filter is_nonblank (CampaignForm.products st))
        /\ trim (CampaignForm.targetMarket st) <> []
        /\ trim (CampaignForm.targetAudience st) <> []).
Proof.
  intros Hs.
  destruct (validate_result st _ (filter_nonblank_strings 0 _ Hs)) as (E & Hv & HE).
  exists E, (Nat.eqb (size E) 0). split; [exact Hv|]. split; [exact HE|].
  rewrite Nat.eqb_eq, map_size_empty_iff. split.
  - intros ->.
    pose proof (HE "products") as Hp. pose proof (HE "targetMarket") as Hm.
    pose proof (HE "targetAudience") as Ha.
    rewrite lookup_empty in Hp, Hm, Ha.
    rewrite decide_True in Hp by reflexivity.
    rewrite decide_False, decide_True in Hm by done.
    rewrite decide_False, decide_False, decide_True in Ha by done.
    destruct (decide (length (List.filter is_nonblank (CampaignForm.products st)) < 2));
      [discriminate Hp|].
    destruct (decide (trim (CampaignForm.targetMarket st) = [])); [discriminate Hm|].
    destruct (decide (trim (CampaignForm.targetAudience st) = [])); [discriminate Ha|].
    repeat split; (lia || assumption).
  - intros (Hp & Hm & Ha). apply map_empty. intros k. rewrite (HE k).
    rewrite (decide_False (P := length _ < 2)) by lia.
    rewrite (decide_False (P := trim (CampaignForm.targetMarket st) = [])) by exact Hm.
    rewrite (decide_False (P := trim (CampaignForm.targetAudience st) = [])) by exact Ha.
    repeat (destruct (decide (k = _)); [reflexivity|]). reflexivity.
Qed.

Lemma validate_reports_every_failing_field_witness :
  exists E ok,
    CampaignForm.validate Examples.one_product_form
    = Normal (CampaignForm.setErrors E Examples.one_product_form, ok)
    /\ E !! "products" = Some (lit "At least 2 products are required")
    /\ E !! "targetAudience" = None.
Proof.
  destruct (validate_reports_every_failing_field Examples.one_product_form)
    as (E & ok & Hv & HE & _).
  - repeat constructor.
  - exists E, ok. split; [exact Hv|]. split.
    + rewrite (HE "products"). reflexivity.
    + rewrite (HE "targetAudience"). reflexivity.
Defined.

Lemma filter_idempotent {A} (f : A -> bool) (l : list A) :
  List.filter f (List.filter f l) = List.filter f l.
Proof.
  induction l as [|x l IH]; [reflexivity|]. simpl.
  destruct (f x) eqn:Hx; [|exact IH]. simpl. now rewrite Hx, IH.
Qed.

Lemma strings_only_filter (a : array value) :
  strings_only (List.filter is_nonblank a).
Proof.
  unfold strings_only. induction a as [|[[| |b|s]|] a IH]; simpl; try exact IH.
  - constructor.
  - destruct (negb (jstring_eqb (trim s) [])); [constructor; [exact I|]|]; exact IH.
Qed.

(** What [handleSubmit] does on a form that passes every check. *)
Lemma handleSubmit_accepts (st : CampaignForm.state) :
  strings_only (CampaignForm.products st) ->
  2 <= length (List.filter is_nonblank (CampaignForm.products st)) ->
  trim (CampaignForm.targetMarket st) <> [] ->
  trim (CampaignForm.targetAudience st) <> [] ->
  CampaignForm.handleSubmit st
  = Normal (CampaignForm.setErrors ∅ st,
      [ {| Api.products := List.filter is_nonblank (CampaignForm.products st);
           Api.target_market := CampaignForm.targetMarket st;
           Api.target_audience := CampaignForm.targetAudience st;
           Api.brand_name := CampaignForm.trim_or_null (CampaignForm.brandName st);
           Api.campaign_message :=
             CampaignForm.trim_or_null (CampaignForm.campaignMessage st) |} ]).
Proof.
  intros Hs Hp Hm Ha.
  destruct (validate_reports_every_failing_field st Hs) as (E & ok & Hv & HE & Hok).
  assert (ok = true) as -> by (apply Hok; now repeat split).
  assert (E = ∅) as ->.
  { apply map_empty. intros k. rewrite (HE k).
    rewrite (decide_False (P := length _ < 2)) by lia.
    rewrite (decide_False (P := trim (CampaignForm.targetMarket st) = [])) by exact Hm.
    rewrite (decide_False (P := trim (CampaignForm.targetAudience st) = [])) by exact Ha.
    repeat (destruct (decide (k = _)); [reflexivity|]). reflexivity. }
  unfold CampaignForm.handleSubmit. rewrite Hv. cbn [bind negb].
  unfold array_filter. rewrite (filter_nonblank_strings 0 _ Hs). reflexivity.
Qed.

Lemma trim_or_null_stable (b : jstring) :
  CampaignForm.trim_or_null (default [] (CampaignForm.trim_or_null b))
  = CampaignForm.trim_or_null b.
Proof.
  destruct (trim_or_null_spec b) as (H0 & H1 & _).
  destruct (decide (trim b = [])) as [Hb|Hb].
  - rewrite (H0 Hb). reflexivity.
  - rewrite (H1 Hb). change (default [] (Some (trim b))) with (trim b).
    destruct (trim_or_null_spec (trim b)) as (_ & H2 & _).
    rewrite H2 by (now rewrite trim_idempotent).
    now rewrite trim_idempotent.
Qed.

(** X2.  Round trip through the retry form: the form mounted with a
    request that [handleSubmit] emitted, submitted as it is, emits the
    same request again and reports no error. *)
Theorem prefilled_form_resubmits_same_request
    (st st' : CampaignForm.state) (d : Api.CampaignRequest) :
  CampaignForm.handleSubmit st = Normal (st', [d]) ->
  CampaignForm.handleSubmit (CampaignForm.initial (Some d))
  = Normal (CampaignForm.initial (Some d), [d]).
Proof.
  intros Hsub. rewrite (initial_from_request _ _ _ Hsub).
  unfold CampaignForm.handleSubmit in Hsub.
  destruct (CampaignForm.validate st) as [[st1 ok]|m] eqn:Hv; [|discriminate].
  cbn [bind] in Hsub. destruct ok; cbn [negb] in Hsub; [|discriminate].
  destruct (validate_true _ _ Hv) as (_ & Hf & Hlen & Hm & Ha).
  rewrite Hf in Hsub. cbn [bind] in Hsub.
  apply Normal_pair_inv in Hsub as [_ Hd]. injection Hd as <-.
  cbn [Api.products Api.target_market Api.target_audience Api.brand_name
       Api.campaign_message].
  rewrite handleSubmit_accepts;
    cbn [CampaignForm.products CampaignForm.targetMarket
         CampaignForm.targetAudience CampaignForm.brandName
         CampaignForm.campaignMessage].
  - now rewrite filter_idempotent, !trim_or_null_stable.
  - apply strings_only_filter.
  - now rewrite filter_idempotent.
  - exact Hm.
  - exact Ha.
Qed.

Lemma prefilled_form_resubmits_same_request_witness :
  CampaignForm.handleSubmit (CampaignForm.initial (Some Examples.padded_request))
  = Normal (CampaignForm.initial (Some Examples.padded_request),
            [Examples.padded_request]).
Proof.
  apply (prefilled_form_resubmits_same_request Examples.padded_form
           (CampaignForm.setErrors ∅ Examples.padded_form)).
  vm_compute. reflexivity.
Defined.

(** *** The product handlers on an array without holes *)

Lemma spread_dense {A} (u : A) (a : array A) : dense a -> spread u a = a.
Proof.
  induction 1 as [|x a [y ->] _ IH]; [reflexivity|].
  unfold spread in *. simpl. now rewrite IH.
Qed.

Lemma filter_skip_delete {A} (index i : nat) (a : array A) :
  dense a ->
  filter_total_from (fun _ j => negb (Nat.eqb j index)) i a
  = if decide (i <= index) then delete (index - i) a else a.
Proof.
  intros Ha; revert i; induction Ha as [|x a [y ->] _ IH]; intros i.
  - simpl. destruct (decide (i <= index)); [now destruct (index - i)|reflexivity].
  - simpl. rewrite IH. destruct (Nat.eqb_spec i index) as [->|Hne]; simpl.
    + rewrite Nat.sub_diag, decide_False by lia.
      rewrite decide_True by lia. reflexivity.
    + destruct (decide (i <= index)) as [Hle|Hle].
      * rewrite decide_True by lia.
        replace (index - i) with (S (index - S i)) by lia. reflexivity.
      * rewrite decide_False by lia. reflexivity.
Qed.

Lemma delete_past_end {A} (l : list A) (i : nat) :
  length l <= i -> delete i l = l.
Proof.
  revert i; induction l as [|x l IH]; intros i Hi; [now destruct i|].
  destruct i as [|i]; [simpl in Hi; lia|].
  cbn. f_equal. apply IH. simpl in Hi. lia.
Qed.

(** X3.  On a products array without holes the three handlers are the
    list operations: [addProduct] appends an empty product;
    [updateProduct] replaces the entry at an index inside the array and
    keeps the others (past the end it appends holes and then the value);
    [removeProduct], once there are more than two entries, deletes the
    entry at the index and nothing else, none when the index is outside. *)
Theorem product_handlers_on_dense_array (st : CampaignForm.state) :
  dense (CampaignForm.products st) ->
  CampaignForm.products (CampaignForm.addProduct st)
  = CampaignForm.products st ++ [Some (VStr [])]
  /\ (forall index v,
        index < length (CampaignForm.products st) ->
        CampaignForm.products (CampaignForm.updateProduct index v st)
        = <[index := Some (VStr v)]> (CampaignForm.products st))
  /\ (forall index v,
        length (CampaignForm.products st) <= index ->
        CampaignForm.products (CampaignForm.updateProduct index v st)
        = CampaignForm.products st
          ++ replicate (index - length (CampaignForm.products st)) None
          ++ [Some (VStr v)])
  /\ (forall index,
        2 < length (CampaignForm.products st) ->
        CampaignForm.products (CampaignForm.removeProduct index st)
        = delete index (CampaignForm.products st))
  /\ (forall index,
        2 < length (CampaignForm.products st) ->
        length (CampaignForm.products st) <= index ->
        CampaignForm.removeProduct index st
        = CampaignForm.setProducts (CampaignForm.products st) st).
Proof.
  intros Hd.
  assert (forall index, 2 < length (CampaignForm.products st) ->
            CampaignForm.products (CampaignForm.removeProduct index st)
            = delete index (CampaignForm.products st)) as Hrem.
  { intros index Hl. unfold CampaignForm.removeProduct.
    rewrite decide_True by exact Hl. cbn [CampaignForm.products CampaignForm.setProducts].
    unfold array_filter_total. rewrite (filter_skip_delete _ _ _ Hd).
    rewrite decide_True by lia. now rewrite Nat.sub_0_r. }
  split; [|split; [|split; [|split]]].
  - unfold CampaignForm.addProduct. cbn [CampaignForm.products CampaignForm.setProducts].
    now rewrite (spread_dense _ _ Hd).
  - intros index v Hi. unfold CampaignForm.updateProduct.
    cbn [CampaignForm.products CampaignForm.setProducts].
    rewrite (spread_dense _ _ Hd). unfold array_set.
    now rewrite decide_True by exact Hi.
  - intros index v Hi. unfold CampaignForm.updateProduct.
    cbn [CampaignForm.products CampaignForm.setProducts].
    rewrite (spread_dense _ _ Hd). unfold array_set.
    now rewrite decide_False by lia.
  - exact Hrem.
  - intros index Hl Hi. unfold CampaignForm.removeProduct.
    rewrite decide_True by exact Hl. f_equal.
    unfold array_filter_total. rewrite (filter_skip_delete _ _ _ Hd).
    rewrite decide_True by lia. rewrite Nat.sub_0_r.
    apply delete_past_end. exact Hi.
Qed.

Lemma product_handlers_on_dense_array_witness :
  CampaignForm.products
    (CampaignForm.updateProduct 1 (lit "Socks") (CampaignForm.initial None))
  = [Some (VStr []); Some (VStr (lit "Socks"))].
Proof.
  destruct (product_handlers_on_dense_array (CampaignForm.initial None))
    as (_ & Hupd & _).
  - repeat constructor; now eexists.
  - rewrite Hupd; [reflexivity | simpl; lia].
Defined.

(** *** Sessions at the form *)

Lemma product_input_lookup (st : CampaignForm.state) (i : nat) (p : value) :
  In (CampaignForm.ProductInput i p) (CampaignForm.product_controls st) ->
  CampaignForm.products st !! i = Some (Some p).
Proof.
  unfold CampaignForm.product_controls. intros Hin.
  apply in_app_or in Hin as [Hin|[Hin|[]]]; [|discriminate Hin].
  apply in_concat in Hin as (l & Hl1 & Hl2).
  apply list_elem_of_In, elem_of_lookup_imap in Hl1 as (j & slot & -> & Hj).
  destruct slot as [product|]; [|destruct Hl2].
  destruct Hl2 as [Hl2|Hl2].
  - injection Hl2 as <- <-. exact Hj.
  - destruct (decide _); [|destruct Hl2]. destruct Hl2 as [Hl2|[]]. discriminate Hl2.
Qed.

Lemma remove_button_lookup (st : CampaignForm.state) (i : nat) :
  In (CampaignForm.RemoveButton i) (CampaignForm.product_controls st) ->
  2 < length (CampaignForm.products st)
  /\ is_Some (CampaignForm.products st !! i).
Proof.
  unfold CampaignForm.product_controls. intros Hin.
  apply in_app_or in Hin as [Hin|[Hin|[]]]; [|discriminate Hin].
  apply in_concat in Hin as (l & Hl1 & Hl2).
  apply list_elem_of_In, elem_of_lookup_imap in Hl1 as (j & slot & -> & Hj).
  destruct slot as [product|]; [|destruct Hl2].
  destruct Hl2 as [Hl2|Hl2]; [discriminate Hl2|].
  destruct (decide _) as [Hgt|]; [|destruct Hl2].
  destruct Hl2 as [Hl2|[]]. injection Hl2 as <-.
  split; [exact Hgt | exists (Some product); exact Hj].
Qed.

Lemma strings_only_insert (a : array value) (i : nat) (v : jstring) :
  strings_only a -> strings_only (<[i := Some (VStr v)]> a).
Proof. intros Ha. apply Forall_insert; [exact Ha | exact I]. Qed.

(** An event the page offers keeps the products array in shape. *)
Lemma handle_form_ok (st : CampaignForm.state) (ev : CampaignFormUI.event) :
  form_ok st ->
  CampaignFormUI.offers st ev = true ->
  form_ok (CampaignFormUI.handle ev st).
Proof.
  intros (Hd & Hs & Hl) Hoff.
  destruct (product_handlers_on_dense_array st Hd) as (Hadd & Hupd & _ & Hrem & _).
  destruct ev as [[index v|index|]|v|v|v|v];
    cbn [CampaignFormUI.handle CampaignForm.handle CampaignFormUI.offers] in *;
    try (split; [exact Hd | split; [exact Hs | exact Hl]]).
  - apply existsb_exists in Hoff as (c & Hin & Hc).
    destruct c as [i p| |]; try discriminate Hc.
    apply Nat.eqb_eq in Hc as ->.
    apply product_input_lookup, lookup_lt_Some in Hin.
    unfold form_ok. rewrite (Hupd index v Hin). split; [|split].
    + apply Forall_insert; [exact Hd | now eexists].
    + now apply strings_only_insert.
    + now rewrite length_insert.
  - apply existsb_exists in Hoff as (c & Hin & Hc).
    destruct c as [|i|]; try discriminate Hc.
    apply Nat.eqb_eq in Hc as ->.
    apply remove_button_lookup in Hin as [Hgt Hsome].
    unfold form_ok. rewrite (Hrem index Hgt). split; [|split].
    + now apply Forall_delete.
    + now apply Forall_delete.
    + rewrite length_delete by exact Hsome. lia.
  - unfold form_ok. rewrite Hadd. split; [|split].
    + apply Forall_app. split; [exact Hd|]. constructor; [now eexists|constructor].
    + apply Forall_app. split; [exact Hs|]. constructor; [exact I|constructor].
    + rewrite length_app. simpl. lia.
Qed.

(** X4.  The form starts, blank, with a products array of two strings
    and no hole, and every session of events offered by the page keeps it
    an array of at least two strings without holes; on such a form
    [handleSubmit] returns (the [TypeError] of [trim] on a missing product
    cannot happen). *)
Theorem form_sessions_never_throw (evs : list CampaignFormUI.event)
    (st st' : CampaignForm.state) :
  form_ok st ->
  CampaignFormUI.run evs st = Some st' ->
  form_ok (CampaignForm.initial None)
  /\ form_ok st'
  /\ exists next calls, CampaignForm.handleSubmit st' = Normal (next, calls).
Proof.
  intros Hst Hrun. split.
  { split; [repeat constructor; now eexists|].
    split; [repeat constructor | simpl; lia]. }
  assert (form_ok st') as Hok.
  { revert st Hst Hrun. induction evs as [|ev evs IH]; intros st Hst; cbn.
    - now intros [= <-].
    - destruct (CampaignFormUI.offers st ev) eqn:Hoff; [|discriminate].
      apply IH. now apply handle_form_ok. }
  split; [exact Hok|].
  destruct Hok as (_ & Hs & _).
  destruct (validate_reports_every_failing_field st' Hs) as (E & ok & Hv & _).
  unfold CampaignForm.handleSubmit. rewrite Hv. cbn [bind].
  destruct ok; cbn [negb]; [|now eexists _, _].
  unfold array_filter. rewrite (filter_nonblank_strings 0 _ Hs). cbn [bind].
  now eexists _, _.
Qed.

Lemma form_sessions_never_throw_witness :
  exists st',
    CampaignFormUI.run Examples2.typing (CampaignForm.initial None) = Some st'
    /\ exists next calls, CampaignForm.handleSubmit st' = Normal (next, calls).
Proof.
  destruct (CampaignFormUI.run Examples2.typing (CampaignForm.initial None))
    as [st'|] eqn:Hrun; [|vm_compute in Hrun; discriminate Hrun].
  destruct (form_sessions_never_throw Examples2.typing (CampaignForm.initial None) st')
    as (_ & _ & Hsub).
  - split; [repeat constructor; now eexists|].
    split; [repeat constructor | simpl; lia].
  - exact Hrun.
  - exists st'. split; [reflexivity | exact Hsub].
Defined.

Lemma markets_nonblank : Forall (fun m => trim m <> []) CampaignFormUI.markets.
Proof. repeat constructor; vm_compute; discriminate. Qed.

Lemma us_is_listed :
  CampaignForm.targetMarket (CampaignForm.initial None) ∈ CampaignFormUI.markets.
Proof. unfold CampaignFormUI.markets. simpl. constructor. Qed.

(** X5.  The select offers only non-blank markets and the blank form
    starts on 'US', one of them: in every session from a form whose market
    is a listed one the market stays a listed one, and [validate] never
    reports 'Target market is required'. *)
Theorem listed_market_never_rejected (evs : list CampaignFormUI.event)
    (st st' : CampaignForm.state) :
  CampaignForm.targetMarket st ∈ CampaignFormUI.markets ->
  CampaignFormUI.run evs st = Some st' ->
  CampaignForm.targetMarket (CampaignForm.initial None) ∈ CampaignFormUI.markets
  /\ CampaignForm.targetMarket st' ∈ CampaignFormUI.markets
  /\ forall next ok,
       CampaignForm.validate st' = Normal (next, ok) ->
       CampaignForm.errors next !! "targetMarket" = None.
Proof.
  intros Hst Hrun. split; [apply us_is_listed|].
  assert (CampaignForm.targetMarket st' ∈ CampaignFormUI.markets) as Hin.
  { revert st Hst Hrun. induction evs as [|ev evs IH]; intros st Hst; cbn.
    - now intros [= <-].
    - destruct (CampaignFormUI.offers st ev) eqn:Hoff; [|discriminate].
      apply IH.
      destruct ev as [[index v|index|]|v|v|v|v];
        cbn [CampaignFormUI.handle CampaignForm.handle]; try exact Hst.
      + unfold CampaignForm.removeProduct. now destruct (decide _).
      + now apply bool_decide_eq_true in Hoff. }
  split; [exact Hin|].
  intros next ok Hv.
  pose proof markets_nonblank as Hnb. rewrite Forall_forall in Hnb.
  specialize (Hnb _ Hin).
  unfold CampaignForm.validate in Hv.
  destruct (array_filter CampaignForm.nonblank (CampaignForm.products st'))
    as [r|m] eqn:Hf; [|discriminate].
  destruct (validate_result st' r Hf) as (E & Hv' & HE).
  unfold CampaignForm.validate in Hv'. rewrite Hf in Hv'. rewrite Hv' in Hv.
  apply Normal_pair_inv in Hv as [<- _].
  cbn [CampaignForm.errors CampaignForm.setErrors].
  rewrite (HE "targetMarket").
  rewrite decide_False, decide_True by done.
  now rewrite decide_False by exact Hnb.
Qed.

Lemma listed_market_never_rejected_witness :
  exists st',
    CampaignFormUI.run Examples2.typing (CampaignForm.initial None) = Some st'
    /\ CampaignForm.targetMarket st' ∈ CampaignFormUI.markets.
Proof.
  destruct (CampaignFormUI.run Examples2.typing (CampaignForm.initial None))
    as [st'|] eqn:Hrun; [|vm_compute in Hrun; discriminate Hrun].
  destruct (listed_market_never_rejected Examples2.typing (CampaignForm.initial None) st')
    as (_ & Hin & _).
  - apply us_is_listed.
  - exact Hrun.
  - exists st'. split; [reflexivity | exact Hin].
Defined.

End CampaignFormMore.

(* ===================================================================== *)
(** ** More about the image gallery                                       *)
(* ===================================================================== *)

Section ImageGalleryMore.
Import JS Spec Spec2.

Lemma unique_from_elem (seen l : list value) (x : value) :
  x ∈ ImageGalleryUI.unique_from seen l <-> x ∈ l /\ x ∉ seen.
Proof.
  revert seen; induction l as [|y l IH]; intros seen; simpl.
  - split; [intros H; inversion H | intros [H _]; inversion H].
  - destruct (bool_decide (y ∈ seen)) eqn:Hy.
    + apply bool_decide_eq_true in Hy. rewrite IH, elem_of_cons. split.
      * intros [H1 H2]. split; [now right | exact H2].
      * intros [[->|H1] H2]; [contradiction | now split].
    + apply bool_decide_eq_false in Hy. rewrite !elem_of_cons, IH, elem_of_cons.
      split.
      * intros [->|[H1 H2]]; [split; [now left | exact Hy]|].
        split; [now right | tauto].
      * intros [[->|H1] H2]; [now left|].
        destruct (decide (x = y)) as [->|Hne]; [now left|].
        right. split; [exact H1|]. intros [?|?]; contradiction.
Qed.

Lemma unique_from_NoDup (seen l : list value) :
  NoDup (ImageGalleryUI.unique_from seen l).
Proof.
  revert seen; induction l as [|y l IH]; intros seen; simpl; [constructor|].
  destruct (bool_decide (y ∈ seen)); [apply IH|].
  constructor; [|apply IH].
  rewrite unique_from_elem. intros [_ H]. apply H. now left.
Qed.

Lemma aspectRatios_elem (imgs : list Api.Image) (r : value) :
  r ∈ ImageGalleryUI.aspectRatios imgs
  <-> exists img, img ∈ imgs /\ Api.aspect_ratio img = r.
Proof.
  unfold ImageGalleryUI.aspectRatios. rewrite unique_from_elem, list_elem_of_fmap.
  split.
  - intros [(img & -> & Hin) _]. now exists img.
  - intros (img & Hin & <-). split; [now exists img|]. intros H; inversion H.
Qed.

(** X6.  The ratios offered by the filter bar are the aspect ratios that
    occur among the images, each once; and the bar is on the page exactly
    when two images differ in aspect ratio. *)
Theorem filter_bar_offers_the_ratios_present (st : ImageGallery.state)
    (imgs : list Api.Image) :
  NoDup (ImageGalleryUI.aspectRatios imgs)
  /\ (forall r, r ∈ ImageGalleryUI.aspectRatios imgs
                <-> exists img, img ∈ imgs /\ Api.aspect_ratio img = r)
  /\ (ImageGalleryUI.filter_buttons st imgs <> []
      <-> exists a b, a ∈ imgs /\ b ∈ imgs
                      /\ Api.aspect_ratio a <> Api.aspect_ratio b).
Proof.
  pose proof (unique_from_NoDup [] (map Api.aspect_ratio imgs)) as Hnd.
  fold (ImageGalleryUI.aspectRatios imgs) in Hnd.
  split; [exact Hnd|]. split; [apply aspectRatios_elem|].
  unfold ImageGalleryUI.filter_buttons.
  destruct (decide (1 < length (ImageGalleryUI.aspectRatios imgs))) as [Hl|Hl].
  - split; [intros _|discriminate].
    destruct (ImageGalleryUI.aspectRatios imgs) as [|x [|y u]] eqn:Hu;
      try (simpl in Hl; lia).
    assert (x ∈ ImageGalleryUI.aspectRatios imgs) as Hx by (rewrite Hu; now left).
    assert (y ∈ ImageGalleryUI.aspectRatios imgs) as Hy
      by (rewrite Hu; right; now left).
    apply aspectRatios_elem in Hx as (a & Ha & Hax).
    apply aspectRatios_elem in Hy as (b & Hb & Hby).
    exists a, b. split; [exact Ha|]. split; [exact Hb|].
    rewrite Hax, Hby. intros ->.
    apply NoDup_cons in Hnd as [Hnin _]. apply Hnin. now left.
  - split; [intros H; now contradiction H|].
    intros (a & b & Ha & Hb & Hne). exfalso. apply Hl.
    assert (Api.aspect_ratio a ∈ ImageGalleryUI.aspectRatios imgs) as Hx
      by (apply aspectRatios_elem; now exists a).
    assert (Api.aspect_ratio b ∈ ImageGalleryUI.aspectRatios imgs) as Hy
      by (apply aspectRatios_elem; now exists b).
    destruct (ImageGalleryUI.aspectRatios imgs) as [|x [|y u]];
      [inversion Hx| |simpl; lia].
    apply list_elem_of_singleton in Hx, Hy. congruence.
Qed.

(** *** The counts on the filter buttons *)

Lemma sum_list_map_add {A} (f g : A -> nat) (u : list A) :
  sum_list (map (fun r => f r + g r) u) = sum_list (map f u) + sum_list (map g u).
Proof. induction u as [|x u IH]; simpl; lia. Qed.

Lemma sum_indicator_absent (x : value) (u : list value) :
  x ∉ u -> sum_list (map (fun r => if strict_eq x r then 1 else 0) u) = 0.
Proof.
  induction u as [|y u IH]; intros Hx; [reflexivity|]. simpl.
  rewrite not_elem_of_cons in Hx. destruct Hx as [Hne Hx].
  destruct (strict_eq x y) eqn:He; [apply strict_eq_spec in He; contradiction|].
  now rewrite IH.
Qed.

Lemma sum_indicator_present (x : value) (u : list value) :
  NoDup u -> x ∈ u ->
  sum_list (map (fun r => if strict_eq x r then 1 else 0) u) = 1.
Proof.
  induction 1 as [|y u Hy Hnd IH]; intros Hx; [inversion Hx|]. simpl.
  apply elem_of_cons in Hx as [->|Hx].
  - assert (strict_eq y y = true) as -> by now apply strict_eq_spec.
    now rewrite sum_indicator_absent.
  - destruct (strict_eq x y) eqn:He.
    + apply strict_eq_spec in He. subst. contradiction.
    + now rewrite IH.
Qed.

Lemma ratio_counts_sum (u : list value) (imgs : list Api.Image) :
  NoDup u ->
  (forall img, img ∈ imgs -> Api.aspect_ratio img ∈ u) ->
  sum_list (map (fun r => length (List.filter
                                    (fun img => strict_eq (Api.aspect_ratio img) r)
                                    imgs)) u)
  = length imgs.
Proof.
  intros Hnd. induction imgs as [|img imgs IH]; intros Hin.
  - clear Hnd Hin. induction u as [|x u IHu]; [reflexivity | simpl; exact IHu].
  - assert (forall i, i ∈ imgs -> Api.aspect_ratio i ∈ u) as Hin'
      by (intros i Hi; apply Hin; now right).
    specialize (IH Hin'). cbn [length]. rewrite <- IH.
    rewrite (map_ext _ (fun r => (if strict_eq (Api.aspect_ratio img) r then 1 else 0)
                   + length (List.filter
                               (fun img0 => strict_eq (Api.aspect_ratio img0) r) imgs))).
    + rewrite sum_list_map_add, (sum_indicator_present _ _ Hnd); [simpl; lia|].
      apply Hin. now left.
    + intros r. simpl. now destruct (strict_eq (Api.aspect_ratio img) r).
Qed.

(** *** The counts on the filter buttons and what is shown *)

(** The images on the page are the filtered images that carry a
    location; the others leave their slot empty. *)
Lemma omap_imap_located (f : nat -> Api.Image -> option ImageGallery.item)
    (l : list Api.Image) :
  (forall i img, unlocated img = false ->
                 exists it, f i img = Some it /\ ImageGallery.item_image it = img) ->
  (forall i img, unlocated img = true -> f i img = None) ->
  omap (fun o : option ImageGallery.item => ImageGallery.item_image <$> o)
       (imap f l)
  = List.filter (fun img => negb (unlocated img)) l.
Proof.
  intros Hs Hn; revert f Hs Hn.
  induction l as [|img l IH]; intros f Hs Hn; [reflexivity|].
  cbn [imap omap List.filter].
  destruct (unlocated img) eqn:Hu; cbn [negb].
  - rewrite (Hn 0 img Hu). cbn.
    apply IH; intros i img'; [apply (Hs (S i)) | apply (Hn (S i))].
  - destruct (Hs 0 img Hu) as (it & -> & Hit). cbn. rewrite Hit. f_equal.
    apply IH; intros i img'; [apply (Hs (S i)) | apply (Hn (S i))].
Qed.

Lemma rendered_images_located (p : ImageGallery.props) (st : ImageGallery.state)
    (imgs : list Api.Image) :
  ImageGallery.images p = Some imgs ->
  rendered_images p st
  = List.filter (fun img => negb (unlocated img))
      (ImageGallery.filteredImages (ImageGallery.selectedAspectRatio st) imgs).
Proof.
  intros Hp. unfold rendered_images, ImageGallery.render. rewrite Hp.
  destruct imgs as [|img imgs'] eqn:Himgs.
  { unfold ImageGallery.filteredImages.
    now destruct (truthy (ImageGallery.selectedAspectRatio st)). }
  rewrite <- Himgs. unfold ImageGallery.gallery_grid.
  apply omap_imap_located; intros i img0; unfold unlocated, ImageGallery.getImageUrl;
    destruct (truthy (Api.url img0)); cbn [negb andb];
    try discriminate; try (intros _; eexists; split; reflexivity);
    destruct (truthy (Api.path img0)); cbn [negb];
    try discriminate; try reflexivity; intros _; eexists; split; reflexivity.
Qed.

Lemma filter_split_length {A} (f : A -> bool) (l : list A) :
  length (List.filter (fun x => negb (f x)) l) + length (List.filter f l)
  = length l.
Proof.
  induction l as [|x l IH]; [reflexivity|]. cbn [List.filter].
  destruct (f x); cbn [negb length]; lia.
Qed.

Lemma located_filter_all (l : list Api.Image) :
  Forall has_location l -> List.filter unlocated l = [].
Proof.
  induction 1 as [|img l Himg _ IH]; [reflexivity|]. cbn [List.filter].
  unfold unlocated at 1.
  destruct Himg as [-> | ->]; cbn [negb andb]; rewrite ?andb_false_r; exact IH.
Qed.

(** X7.  When the filter bar is shown, the count on 'All' is the number
    of images and the counts on the ratio buttons add up to it.  After a
    click on 'All' or on a button whose ratio is a non-empty string, the
    images selected are as many as its label announced, and the label is
    the number of images shown plus the number of selected images that
    have neither [url] nor [path], which are counted but not rendered: the
    label is exact when every image carries a location. *)
Theorem filter_button_counts (p : ImageGallery.props) (st : ImageGallery.state)
    (imgs : list Api.Image) :
  ImageGallery.images p = Some imgs ->
  1 < length (ImageGalleryUI.aspectRatios imgs) ->
  exists active ratio_buttons,
    ImageGalleryUI.filter_buttons st imgs
    = ImageGalleryUI.AllButton active (length imgs) :: ratio_buttons
    /\ sum_list (map ImageGalleryUI.button_count ratio_buttons) = length imgs
    /\ forall b,
         In b (ImageGalleryUI.filter_buttons st imgs) ->
         match b with
         | ImageGalleryUI.RatioButton r _ _ => truthy r = true
         | ImageGalleryUI.AllButton _ _ => True
         end ->
         let st' := (ImageGallery.handle p (ImageGalleryUI.onClick b) st).1 in
         let selected :=
           ImageGallery.filteredImages (ImageGallery.selectedAspectRatio st') imgs in
         length selected = ImageGalleryUI.button_count b
         /\ length (rendered_images p st') + length (List.filter unlocated selected)
            = ImageGalleryUI.button_count b
         /\ (Forall has_location imgs ->
             length (rendered_images p st') = ImageGalleryUI.button_count b).
Proof.
  intros Hp Hl. unfold ImageGalleryUI.filter_buttons.
  rewrite decide_True by exact Hl. eexists _, _. split; [reflexivity|]. split.
  - rewrite map_map. cbn [ImageGalleryUI.button_count].
    apply ratio_counts_sum; [apply unique_from_NoDup|].
    intros img Hin. apply aspectRatios_elem. now exists img.
  - intros b Hb Hr.
    set (st' := (ImageGallery.handle p (ImageGalleryUI.onClick b) st).1).
    set (selected :=
           ImageGallery.filteredImages (ImageGallery.selectedAspectRatio st') imgs).
    assert (length selected = ImageGalleryUI.button_count b) as Hcount.
    { subst selected st'. destruct Hb as [<-|Hb]; [reflexivity|].
      apply in_map_iff in Hb as (r & <- & _).
      cbn [ImageGalleryUI.onClick ImageGallery.handle fst
           ImageGallery.selectedAspectRatio ImageGallery.setSelectedAspectRatio
           ImageGalleryUI.button_count].
      unfold ImageGallery.filteredImages. now rewrite Hr. }
    assert (length (rendered_images p st') + length (List.filter unlocated selected)
            = ImageGalleryUI.button_count b) as Hshown.
    { rewrite (rendered_images_located p st' imgs Hp). fold selected.
      rewrite <- Hcount. apply filter_split_length. }
    split; [exact Hcount|]. split; [exact Hshown|].
    intros Hloc. rewrite <- Hshown.
    assert (Forall has_location selected) as Hsel.
    { subst selected. unfold ImageGallery.filteredImages.
      destruct (truthy _); [|exact Hloc].
      apply List.Forall_forall. intros img0 Hin.
      apply List.filter_In in Hin as [Hin _].
      revert img0 Hin. now apply List.Forall_forall. }
    rewrite (located_filter_all _ Hsel). simpl. lia.
Qed.

Lemma filter_button_counts_witness :
  exists active ratio_buttons,
    ImageGalleryUI.filter_buttons ImageGallery.initial
      [Examples.square; Examples2.nowhere]
    = ImageGalleryUI.AllButton active 2 :: ratio_buttons
    /\ sum_list (map ImageGalleryUI.button_count ratio_buttons) = 2
    /\ In (ImageGalleryUI.RatioButton (VStr (lit "9:16")) false 1) ratio_buttons
    /\ length (rendered_images Examples2.partial_gallery
                 (ImageGallery.setSelectedAspectRatio (VStr (lit "9:16"))
                    ImageGallery.initial))
       + length (List.filter unlocated [Examples2.nowhere]) = 1
    /\ rendered_images Examples2.partial_gallery
         (ImageGallery.setSelectedAspectRatio (VStr (lit "9:16"))
            ImageGallery.initial)
       = [].
Proof.
  destruct (filter_button_counts Examples2.partial_gallery ImageGallery.initial
              [Examples.square; Examples2.nowhere])
    as (active & rbs & Hf & Hsum & Hshown).
  - reflexivity.
  - vm_compute. lia.
  - exists active, rbs. split; [exact Hf|]. split; [exact Hsum|].
    assert (In (ImageGalleryUI.RatioButton (VStr (lit "9:16")) false 1) rbs) as Hin.
    { vm_compute in Hf. injection Hf as _ <-. right. now left. }
    split; [exact Hin|].
    destruct (Hshown (ImageGalleryUI.RatioButton (VStr (lit "9:16")) false 1))
      as (_ & Hs & _).
    + rewrite Hf. now right.
    + reflexivity.
    + split; [exact Hs | vm_compute; reflexivity].
Defined.

(** X8.  A compliance check with a brand name and an image path: it
    posts the path as the only element of [image_paths] with the brand name
    and the campaign message, marks the index as loading and resets its
    error and result to [null]; when the response is in, the index is no
    longer loading and holds either the verdict of an OK response and no
    error, or an error message and no result.  The message of a non-OK
    response without [detail] is 'Failed to check compliance'. *)
Theorem compliance_check_lifecycle (p : ImageGallery.props) (imagePath : value)
    (imageIndex : nat) (st : ImageGallery.state)
    (r : Api.response Api.ErrorData Api.ComplianceVerdict) :
  truthy (ImageGallery.brandName p) = true ->
  truthy imagePath = true ->
  exists st1,
    ImageGallery.handleCheckCompliance_start p imagePath imageIndex st
    = (st1, Some (Api.PostCheckCompliance [imagePath] (ImageGallery.brandName p)
                    (ImageGallery.campaignMessage p)))
    /\ ImageGallery.complianceLoading st1 !! imageIndex = Some true
    /\ ImageGallery.complianceErrors st1 !! imageIndex = Some None
    /\ ImageGallery.complianceResults st1 !! imageIndex = Some None
    /\ let st2 := ImageGallery.handleCheckCompliance_finish imageIndex r st1 in
       ImageGallery.complianceLoading st2 !! imageIndex = Some false
       /\ match r with
          | Api.HttpOk (Api.Json verdict) =>
              ImageGallery.complianceResults st2 !! imageIndex = Some (Some verdict)
              /\ ImageGallery.complianceErrors st2 !! imageIndex = Some None
          | _ =>
              ImageGallery.complianceResults st2 !! imageIndex = Some None
              /\ exists message,
                   ImageGallery.complianceErrors st2 !! imageIndex
                   = Some (Some message)
                   /\ match r with
                      | Api.NetworkError m => message = m
                      | Api.HttpError (Api.Json errorData) =>
                          (truthy (Api.detail errorData) = false ->
                           message = lit "Failed to check compliance")
                          /\ (truthy (Api.detail errorData) = true ->
                              message = to_string (Api.detail errorData))
                      | Api.HttpError (Api.BadJson m) => message = m
                      | Api.HttpOk (Api.BadJson m) => message = m
                      | Api.HttpOk (Api.Json _) => True
                      end
          end.
Proof.
  intros Hb Hp. unfold ImageGallery.handleCheckCompliance_start.
  rewrite Hb, Hp. cbn [negb orb]. eexists. split; [reflexivity|].
  cbn. rewrite !lookup_insert_eq. repeat split.
  unfold ImageGallery.handleCheckCompliance_finish.
  destruct r as [m|[e|m]|[v|m]]; cbn; rewrite !lookup_insert_eq;
    repeat split; try (eexists; split; [reflexivity|]); try reflexivity.
  unfold js_or. split; intros ->; reflexivity.
Qed.

Lemma compliance_check_lifecycle_witness :
  ImageGallery.complianceResults Examples2.checked_state !! 1
  = Some (Some Examples2.verdict)
  /\ ImageGallery.complianceLoading Examples2.checked_state !! 1 = Some false.
Proof.
  destruct (compliance_check_lifecycle Examples.gallery (VStr (lit "a/portrait.png"))
              1 ImageGallery.initial (Api.HttpOk (Api.Json Examples2.verdict)))
    as (st1 & Hs & _ & _ & _ & Hl & Hr & _).
  - reflexivity.
  - reflexivity.
  - unfold Examples2.checked_state. rewrite Hs. split; [exact Hr | exact Hl].
Defined.

(** X9.  The grid has one slot per filtered image, in order; the slot of
    an image without [url] and [path] is empty, so the items after it keep
    the index of their image in the filtered sequence. *)
Theorem grid_slots_follow_filtered_images (p : ImageGallery.props)
    (st : ImageGallery.state) (imgs : list Api.Image) :
  length (ImageGallery.gallery_grid p st imgs)
  = length (ImageGallery.filteredImages (ImageGallery.selectedAspectRatio st) imgs)
  /\ forall k img,
       ImageGallery.filteredImages (ImageGallery.selectedAspectRatio st) imgs !! k
       = Some img ->
       (has_location img ->
        exists it, ImageGallery.gallery_grid p st imgs !! k = Some (Some it)
                   /\ ImageGallery.item_image it = img
                   /\ ImageGallery.item_index it = k)
       /\ (~ has_location img ->
           ImageGallery.gallery_grid p st imgs !! k = Some None).
Proof.
  unfold ImageGallery.gallery_grid. split; [apply length_imap|].
  intros k img Hk. rewrite list_lookup_imap, Hk. cbn. split.
  - intros Hloc. destruct (getImageUrl_located p img Hloc) as [u ->].
    eexists. split; [reflexivity|]. now split.
  - intros Hloc. unfold ImageGallery.getImageUrl.
    destruct (truthy (Api.url img)) eqn:Hu; [exfalso; apply Hloc; now left|].
    destruct (truthy (Api.path img)) eqn:Hp; [exfalso; apply Hloc; now right|].
    reflexivity.
Qed.

(** X10.  Changing the filter does not move the compliance state: the
    three objects stay as they are, so the item at a position shows
    after the change what the item at that position showed before,
    whichever image is rendered there. *)
Theorem filter_change_keeps_compliance_by_position (p : ImageGallery.props)
    (st : ImageGallery.state) (imgs : list Api.Image) (r : value) (k : nat)
    (it it' : ImageGallery.item) :
  ImageGallery.gallery_grid p st imgs !! k = Some (Some it) ->
  ImageGallery.gallery_grid p
    (ImageGallery.handle p (ImageGallery.SelectRatio r) st).1 imgs !! k
  = Some (Some it') ->
  ImageGalleryUI.checking it' = ImageGalleryUI.checking it
  /\ ImageGalleryUI.shown_error it' = ImageGalleryUI.shown_error it
  /\ ImageGalleryUI.shown_result it' = ImageGalleryUI.shown_result it.
Proof.
  intros H1 H2.
  destruct (gallery_grid_lookup _ _ _ _ _ H1) as (_ & _ & _ & Hl & He & Hr).
  destruct (gallery_grid_lookup _ _ _ _ _ H2) as (_ & _ & _ & Hl' & He' & Hr').
  cbn in Hl', He', Hr'.
  unfold ImageGalleryUI.checking, ImageGalleryUI.shown_error,
    ImageGalleryUI.shown_result.
  now rewrite Hl, He, Hr, Hl', He', Hr'.
Qed.

Lemma filter_change_keeps_compliance_by_position_witness :
  exists it it',
    ImageGallery.gallery_grid Examples.gallery Examples2.checked_state
      [Examples.square; Examples.portrait; Examples.square] !! 1 = Some (Some it)
    /\ ImageGallery.gallery_grid Examples.gallery
         (ImageGallery.handle Examples.gallery
            (ImageGallery.SelectRatio (VStr (lit "1:1"))) Examples2.checked_state).1
         [Examples.square; Examples.portrait; Examples.square] !! 1 = Some (Some it')
    /\ ImageGallery.item_image it = Examples.portrait
    /\ ImageGallery.item_image it' = Examples.square
    /\ ImageGalleryUI.shown_result it' = ImageGalleryUI.shown_result it.
Proof.
  destruct (ImageGallery.gallery_grid Examples.gallery Examples2.checked_state
              [Examples.square; Examples.portrait; Examples.square] !! 1)
    as [[it|]|] eqn:H1; try discriminate H1.
  destruct (ImageGallery.gallery_grid Examples.gallery
              (ImageGallery.handle Examples.gallery
                 (ImageGallery.SelectRatio (VStr (lit "1:1")))
                 Examples2.checked_state).1
              [Examples.square; Examples.portrait; Examples.square] !! 1)
    as [[it'|]|] eqn:H2; try discriminate H2.
  exists it, it'. split; [reflexivity|]. split; [reflexivity|].
  split; [now injection H1 as <-|]. split; [now injection H2 as <-|].
  apply (filter_change_keeps_compliance_by_position _ _ _ _ _ _ _ H1 H2).
Defined.

(** X11.  The compliance button is on an item only when there is a brand
    name, and it passes the image's [path]: clicking it sends a request
    exactly when the image has a [path]; an image located by [url] alone
    gets the error 'Missing brand name or image' instead. *)
Theorem check_button_needs_a_path (p : ImageGallery.props)
    (st : ImageGallery.state) (imgs : list Api.Image) (k : nat)
    (it : ImageGallery.item) (imagePath : value) (imageIndex : nat) :
  ImageGallery.gallery_grid p st imgs !! k = Some (Some it) ->
  ImageGallery.item_check it = Some (imagePath, imageIndex) ->
  truthy (ImageGallery.brandName p) = true
  /\ imagePath = Api.path (ImageGallery.item_image it)
  /\ imageIndex = k
  /\ (truthy (Api.path (ImageGallery.item_image it)) = true ->
      (ImageGallery.handleCheckCompliance_start p imagePath imageIndex st).2
      = Some (Api.PostCheckCompliance [imagePath] (ImageGallery.brandName p)
                (ImageGallery.campaignMessage p)))
  /\ (truthy (Api.path (ImageGallery.item_image it)) = false ->
      (ImageGallery.handleCheckCompliance_start p imagePath imageIndex st).2 = None
      /\ ImageGallery.complianceErrors
           (ImageGallery.handleCheckCompliance_start p imagePath imageIndex st).1
         !! k = Some (Some (lit "Missing brand name or image"))).
Proof.
  intros Hk Hc.
  destruct (gallery_grid_lookup _ _ _ _ _ Hk) as (_ & _ & Hcheck & _).
  specialize (Hcheck _ Hc). injection Hcheck as -> ->.
  assert (truthy (ImageGallery.brandName p) = true) as Hb.
  { unfold ImageGallery.gallery_grid in Hk. rewrite list_lookup_imap in Hk.
    destruct (ImageGallery.filteredImages _ imgs !! k) as [img|]; [|discriminate].
    cbn in Hk. destruct (ImageGallery.getImageUrl p img); [|discriminate].
    injection Hk as <-. cbn in Hc.
    destruct (truthy (ImageGallery.brandName p)); [reflexivity | discriminate]. }
  split; [exact Hb|]. split; [reflexivity|]. split; [reflexivity|].
  unfold ImageGallery.handleCheckCompliance_start. rewrite Hb. cbn [negb orb].
  split; intros ->; cbn; [reflexivity|].
  split; [reflexivity | apply lookup_insert_eq].
Qed.

Lemma check_button_needs_a_path_witness :
  exists it,
    ImageGallery.gallery_grid Examples.gallery ImageGallery.initial
      [Examples.square; Examples.landscape] !! 1 = Some (Some it)
    /\ (ImageGallery.handleCheckCompliance_start Examples.gallery
          (Api.path Examples.landscape) 1 ImageGallery.initial).2 = None.
Proof.
  destruct (ImageGallery.gallery_grid Examples.gallery ImageGallery.initial
              [Examples.square; Examples.landscape] !! 1)
    as [[it|]|] eqn:H1; try discriminate H1.
  exists it. split; [reflexivity|].
  destruct (check_button_needs_a_path Examples.gallery ImageGallery.initial
              [Examples.square; Examples.landscape] 1 it
              (Api.path Examples.landscape) 1 H1)
    as (_ & _ & _ & _ & Hnone).
  - now injection H1 as <-.
  - apply Hnone. now injection H1 as <-.
Defined.

End ImageGalleryMore.

(* ===================================================================== *)
(** ** More about the application                                         *)
(* ===================================================================== *)

Section AppMore.
Import JS Spec Spec2.

(** X12.  What [App] sends over a run of the event loop: one
    [POST /api/generate] per call of [handleGenerate], one
    [GET /api/status] per firing of the interval, one [GET /api/images]
    per [completed] observation, and never a compliance request (those
    are sent by the gallery). *)
Theorem requests_follow_events (evs : list App.event) (w w' : App.world) :
  App.run evs w = Some w' ->
  length (List.filter is_generate_request (App.sent w'))
  = length (List.filter is_generate_request (App.sent w))
    + length (List.filter is_generate evs)
  /\ status_requests w' = status_requests w + length (List.filter is_tick evs)
  /\ images_requests w' = images_requests w + completed_observations evs
  /\ length (List.filter is_compliance_request (App.sent w'))
     = length (List.filter is_compliance_request (App.sent w)).
Proof.
  intros Hrun. split; [|split; [|split; [now apply run_images_requests|]]];
    revert w Hrun; induction evs as [|ev evs IH]; intros w; cbn [App.run];
    try (intros [= <-]; simpl; lia);
    destruct (App.step ev w) as [w1|] eqn:Hstep; try discriminate;
    intros Hrun; rewrite (IH _ Hrun); clear IH Hrun.
  - destruct ev as [d|b| |k r|k r|k r]; cbn [App.step] in Hstep.
    + injection Hstep as <-. app_simpl. rewrite List.filter_app, length_app.
      simpl. lia.
    + injection Hstep as <-. destruct (handleReset_frame b w) as (-> & _). simpl. lia.
    + destruct (App.interval w); [|discriminate]. injection Hstep as <-.
      app_simpl. rewrite List.filter_app, length_app. simpl. lia.
    + destruct (App.inflight w !! k) as [[| |]|]; try discriminate.
      injection Hstep as <-.
      destruct (on_generate_frame r (App.resume k w)) as [-> _]. simpl. lia.
    + destruct (App.inflight w !! k) as [[|id job|]|]; try discriminate.
      injection Hstep as <-. rewrite on_status_sent, List.filter_app, length_app.
      destruct (observes_completed _); simpl; lia.
    + destruct (App.inflight w !! k) as [[| |id job]|]; try discriminate.
      injection Hstep as <-.
      destruct (on_images_frame id r (App.resume k w)) as (-> & _). simpl. lia.
  - destruct (step_sent _ _ _ Hstep) as (l & Hl & _ & Hs).
    rewrite (status_requests_sent _ _ _ Hl), Hs. cbn [List.filter].
    destruct ev; simpl; lia.
  - destruct ev as [d|b| |k r|k r|k r]; cbn [App.step] in Hstep.
    + injection Hstep as <-. app_simpl. rewrite List.filter_app, length_app.
      simpl. lia.
    + injection Hstep as <-. now destruct (handleReset_frame b w) as (-> & _).
    + destruct (App.interval w); [|discriminate]. injection Hstep as <-.
      app_simpl. rewrite List.filter_app, length_app. simpl. lia.
    + destruct (App.inflight w !! k) as [[| |]|]; try discriminate.
      injection Hstep as <-.
      now destruct (on_generate_frame r (App.resume k w)) as [-> _].
    + destruct (App.inflight w !! k) as [[|id job|]|]; try discriminate.
      injection Hstep as <-. rewrite on_status_sent, List.filter_app, length_app.
      destruct (observes_completed _); simpl; lia.
    + destruct (App.inflight w !! k) as [[| |id job]|]; try discriminate.
      injection Hstep as <-.
      now destruct (on_images_frame id r (App.resume k w)) as (-> & _).
Qed.

Lemma requests_follow_events_witness :
  status_requests Examples.polling_world = 1
  /\ length (List.filter is_generate_request (App.sent Examples.polling_world)) = 1.
Proof.
  destruct (requests_follow_events Examples.polling_events App.initial
              Examples.polling_world) as (Hg & Hs & _).
  - vm_compute. reflexivity.
  - split; [rewrite Hs | rewrite Hg]; reflexivity.
Defined.

(** X13.  The main form is on the page exactly when there is no job, no
    result and no error, and then it is the only thing on the page. *)
Theorem main_form_stands_alone (c : App.state) :
  (In (App.Form None) (App.render c)
   <-> truthy (App.jobId c) = false
       /\ App.generatedImages c = None /\ App.error c = None)
  /\ (In (App.Form None) (App.render c) -> App.render c = [App.Form None]).
Proof.
  assert (truthy (App.jobId c) = false /\ App.generatedImages c = None
          /\ App.error c = None -> App.render c = [App.Form None]) as Hthen.
  { intros (Hj & Hg & He). unfold App.render. rewrite Hj, Hg, He. cbn.
    now destruct (App.jobStatus c). }
  assert (In (App.Form None) (App.render c) ->
          truthy (App.jobId c) = false /\ App.generatedImages c = None
          /\ App.error c = None) as Hif.
  { unfold App.render. intros Hin.
    destruct (truthy (App.jobId c)) eqn:Hj;
      destruct (App.generatedImages c) as [g|] eqn:Hg;
      destruct (App.error c) as [e|] eqn:He; cbn in Hin;
      try (now repeat split); exfalso;
      repeat match goal with
             | H : In _ (_ ++ _) |- _ => apply in_app_or in H as [H|H]
             | H : In _ (match ?x with _ => _ end) |- _ => destruct x
             | H : In _ (if ?x then _ else _) |- _ => destruct x
             | H : In _ (_ :: _) |- _ => destruct H as [H|H]; [discriminate H|]
             | H : In _ [] |- _ => destruct H
             end. }
  split; [split; [exact Hif|]|].
  - intros H. rewrite (Hthen H). now left.
  - intros Hin. apply Hthen, Hif, Hin.
Qed.



(** X15.  A submission that is not accepted (network error, non-OK
    response, unreadable body) starts no job and no polling and records an
    error that is never flagged as sensitive, whatever its text: the
    [detail] of the error body when there is one, 'Failed to start
    generation' otherwise.  From the main form the page then shows the
    error card with 'Try Again' only. *)
Theorem rejected_submission_is_generic_error (w : App.world) (k : nat)
    (r : Api.response Api.ErrorData Api.GenerateAccepted) :
  App.inflight w !! k = Some App.AwaitGenerate ->
  (forall accepted, r <> Api.HttpOk (Api.Json accepted)) ->
  exists w' message,
    App.step (App.GenerateResponse k r) w = Some w'
    /\ App.error (App.cells w')
       = Some {| App.message := VStr message;
                 App.isSensitiveContent := VBool false |}
    /\ match r with
       | Api.HttpError (Api.Json errorData) =>
           (truthy (Api.detail errorData) = true ->
            message = to_string (Api.detail errorData))
           /\ (truthy (Api.detail errorData) = false ->
               message = lit "Failed to start generation")
       | Api.NetworkError m | Api.HttpError (Api.BadJson m)
       | Api.HttpOk (Api.BadJson m) => message = m
       | Api.HttpOk (Api.Json _) => False
       end
    /\ App.jobId (App.cells w') = App.jobId (App.cells w)
    /\ App.interval w' = App.interval w
    /\ App.sent w' = App.sent w
    /\ (truthy (App.jobId (App.cells w)) = false ->
        App.jobStatus (App.cells w) = None ->
        App.generatedImages (App.cells w) = None ->
        App.render (App.cells w')
        = [App.ErrorCard {| App.message := VStr message;
                            App.isSensitiveContent := VBool false |}
             [App.TryAgain]]).
Proof.
  intros Hk Hr. cbn [App.step]. rewrite Hk.
  destruct r as [m|[e|m]|[g|m]]; try (now contradiction (Hr g));
    eexists _, _; (split; [reflexivity|]); cbn [App.on_generate]; app_simpl;
    (split; [reflexivity|]);
    (split; [try reflexivity|]);
    try (unfold js_or; split; intros ->; reflexivity);
    repeat (split; [reflexivity|]);
    intros Hj Hs Hg; unfold App.render; cbn; rewrite Hj, Hs, Hg; reflexivity.
Qed.

Lemma rejected_submission_is_generic_error_witness :
  exists w',
    App.step (App.GenerateResponse 0
                (Api.HttpError (Api.Json {| Api.detail := VStr (lit "sensitive words") |})))
             (App.handleGenerate_start Examples.padded_request App.initial)
    = Some w'
    /\ App.error (App.cells w')
       = Some {| App.message := VStr (lit "sensitive words");
                 App.isSensitiveContent := VBool false |}.
Proof.
  destruct (rejected_submission_is_generic_error
              (App.handleGenerate_start Examples.padded_request App.initial) 0
              (Api.HttpError (Api.Json {| Api.detail := VStr (lit "sensitive words") |})))
    as (w' & message & Hs & He & [Hm _] & _).
  - reflexivity.
  - intros accepted H. discriminate H.
  - exists w'. split; [exact Hs|]. rewrite He, (Hm eq_refl). reflexivity.
Defined.

(** *** The two reset buttons *)

Lemma same_outcome_refl (a : option App.world) : same_outcome a a.
Proof. destruct a; simpl; [now split | exact I]. Qed.

(** With nothing in flight, no interval and no error on the page, the
    stored request cannot reach the page: dropping it changes nothing
    that is rendered or sent afterwards. *)
Lemma stored_request_is_never_shown (evs : list App.event) (w : App.world) :
  App.inflight w = [] ->
  App.interval w = None ->
  App.error (App.cells w) = None ->
  same_outcome (App.run evs w) (App.run evs (App.setLastCampaignData None w)).
Proof.
  revert w; induction evs as [|ev evs IH]; intros w Hin Hi He.
  - cbn. split; [|reflexivity]. unfold App.render. cbn. now rewrite He.
  - destruct ev as [d|b| |k r|k r|k r]; cbn [App.run App.step]; app_simpl.
    + apply same_outcome_refl.
    + unfold App.handleReset, App.setJobId. app_simpl. cbn [App.jobId].
      destruct (decide (App.jobId (App.cells w) = VNull)) as [Hj|Hj]; destruct b;
        try apply same_outcome_refl.
      * apply (IH (App.setError None (App.setGeneratedImages None
                     (App.setJobStatus None w)))); [exact Hin | exact Hi | reflexivity].
      * cbn [truthy]. app_simpl.
        match goal with
        | |- same_outcome (App.run evs ?a) _ => apply (IH a); reflexivity || exact Hin
        end.
    + now rewrite Hi.
    + now rewrite Hin.
    + now rewrite Hin.
    + now rewrite Hin.
Qed.

(** X16.  In a reachable world with nothing in flight the two reset
    buttons cannot be told apart: 'Modify Campaign & Retry'
    ([handleReset(false)]) keeps the last request in its cell, but after
    it, as after 'Start Over' ([handleReset(true)]), the page shows the
    blank main form, and every later sequence of events renders the same
    page and sends the same requests. *)
Theorem reset_buttons_are_equivalent (w : App.world) (evs : list App.event) :
  reachable w ->
  App.inflight w = [] ->
  App.lastCampaignData (App.cells (App.handleReset false w))
  = App.lastCampaignData (App.cells w)
  /\ App.mounted_form (App.Form None) = Some blank_form
  /\ same_outcome (App.run evs (App.handleReset false w))
                  (App.run evs (App.handleReset true w)).
Proof.
  intros Hreach Hin.
  pose proof (reachable_interval_ok w Hreach) as Hok.
  split; [|split; [reflexivity|]].
  - unfold App.handleReset, App.setJobId.
    destruct (decide (App.jobId (App.cells w) = VNull)); reflexivity.
  - change (App.handleReset true w)
      with (App.setLastCampaignData None (App.handleReset false w)).
    apply stored_request_is_never_shown.
    + now destruct (handleReset_frame false w) as (_ & -> & _).
    + unfold App.handleReset, App.setJobId.
      destruct (decide (App.jobId (App.cells w) = VNull)) as [Hj|Hj];
        [|reflexivity].
      app_simpl. destruct (App.interval w) as [t|] eqn:Hi; [|reflexivity].
      destruct (Hok t Hi) as (_ & Htruthy & Hjob).
      rewrite Hjob, Hj in Htruthy. discriminate Htruthy.
    + unfold App.handleReset, App.setJobId.
      destruct (decide (App.jobId (App.cells w) = VNull)); reflexivity.
Qed.

Lemma reset_buttons_are_equivalent_witness :
  same_outcome
    (App.run [App.Generate Examples.padded_request]
       (App.handleReset false Examples2.failed_world))
    (App.run [App.Generate Examples.padded_request]
       (App.handleReset true Examples2.failed_world)).
Proof.
  destruct (reset_buttons_are_equivalent Examples2.failed_world
              [App.Generate Examples.padded_request]) as (_ & _ & H).
  - exists Examples2.failed_events. vm_compute. reflexivity.
  - reflexivity.
  - exact H.
Defined.

(** *** After a terminal status *)

(** The page while [jobId] is set. *)
Lemma render_with_job (c : App.state) :
  truthy (App.jobId c) = true ->
  App.render c
  = (match App.jobStatus c with
     | Some s =>
         if negb (strict_eq (Api.status s) (VStr (lit "completed")))
         then [App.StatusCard s] else []
     | None => []
     end)
    ++ (match App.error c with
        | Some e =>
            App.ErrorCard e (if truthy (App.isSensitiveContent e)
                             then [App.ModifyAndRetry; App.StartOver]
                             else [App.TryAgain])
            :: (if truthy (App.isSensitiveContent e)
                then match App.lastCampaignData c with
                     | Some d => [App.Form (Some d)]
                     | None => []
                     end
                else [])
        | None => []
        end)
    ++ (match App.generatedImages c with
        | Some g => [App.Results g [App.CreateNewCampaign]]
        | None => []
        end).
Proof. intros Hj. unfold App.render. now rewrite Hj. Qed.

Lemma clearInterval_cells (id : nat) (w : App.world) :
  App.cells (App.clearInterval id w) = App.cells w.
Proof. now destruct (clearInterval_frame id w) as (-> & _). Qed.

(** The cells after a status response that says [completed]. *)
Lemma on_status_completed_cells (id : nat) (job : value) (s : Api.JobStatus)
    (w : App.world) :
  Api.status s = VStr (lit "completed") ->
  App.cells (App.on_status id job (Api.HttpOk (Api.Json s)) w)
  = {| App.jobId := App.jobId (App.cells w); App.jobStatus := Some s;
       App.generatedImages := App.generatedImages (App.cells w);
       App.error := App.error (App.cells w);
       App.lastCampaignData := App.lastCampaignData (App.cells w) |}.
Proof.
  intros Hs. cbn [App.on_status]. rewrite Hs.
  assert (strict_eq (VStr (lit "completed")) (VStr (lit "completed")) = true) as ->
    by reflexivity.
  app_simpl. now rewrite clearInterval_cells.
Qed.

(** X17.  What the page shows once the images request made after a
    [completed] status has been answered, when no error and no result were
    there before: the results with 'Create New Campaign' for an OK response
    with a readable body; a generic error card for a network error or an
    unreadable body; and nothing at all for a response that is not OK,
    which the code ignores: no form, no progress card, no error, no
    result, and no interval left to poll again. *)
Theorem images_response_outcomes (w : App.world) (t : App.timer) (k : nat)
    (s : Api.JobStatus) (r : Api.response Api.ErrorData Api.GenerationResult) :
  reachable w ->
  App.interval w = Some t ->
  App.inflight w !! k = Some (App.AwaitStatus (App.timer_id t) (App.timer_jobId t)) ->
  Api.status s = VStr (lit "completed") ->
  App.error (App.cells w) = None ->
  App.generatedImages (App.cells w) = None ->
  exists w1 k' w2,
    App.step (App.StatusResponse k (Api.HttpOk (Api.Json s))) w = Some w1
    /\ App.inflight w1 !! k'
       = Some (App.AwaitImages (App.timer_id t) (App.timer_jobId t))
    /\ App.step (App.ImagesResponse k' r) w1 = Some w2
    /\ App.interval w2 = None
    /\ App.render (App.cells w2)
       = match r with
         | Api.HttpOk (Api.Json images) =>
             [App.Results images [App.CreateNewCampaign]]
         | Api.HttpError _ => []
         | Api.NetworkError m | Api.HttpOk (Api.BadJson m) =>
             [App.ErrorCard {| App.message := VStr m;
                               App.isSensitiveContent := VBool false |}
                [App.TryAgain]]
         end.
Proof.
  intros Hreach Hi Hk Hs He Hg.
  destruct (reachable_interval_ok w Hreach t Hi) as (_ & Htruthy & Hjob).
  set (w1 := App.on_status (App.timer_id t) (App.timer_jobId t)
               (Api.HttpOk (Api.Json s)) (App.resume k w)).
  assert (App.inflight w1
          = delete k (App.inflight w)
            ++ [App.AwaitImages (App.timer_id t) (App.timer_jobId t)]) as Hinf.
  { subst w1. rewrite on_status_inflight. cbn [observes_completed]. rewrite Hs.
    reflexivity. }
  assert (App.interval w1 = None) as Hn1.
  { subst w1. rewrite on_status_interval. cbn [stops_polling]. rewrite Hs.
    cbn. now apply clearInterval_own. }
  assert (App.cells w1
          = {| App.jobId := App.jobId (App.cells w); App.jobStatus := Some s;
               App.generatedImages := None; App.error := None;
               App.lastCampaignData := App.lastCampaignData (App.cells w) |})
    as Hc1.
  { subst w1. rewrite (on_status_completed_cells _ _ _ _ Hs). app_simpl.
    now rewrite He, Hg. }
  exists w1, (length (delete k (App.inflight w))). eexists.
  split; [cbn [App.step]; now rewrite Hk|].
  assert (App.inflight w1 !! length (delete k (App.inflight w))
          = Some (App.AwaitImages (App.timer_id t) (App.timer_jobId t))) as Hk'.
  { rewrite Hinf. apply list_lookup_middle. reflexivity. }
  split; [exact Hk'|]. cbn [App.step]. rewrite Hk'. split; [reflexivity|].
  assert (truthy (App.jobId (App.cells w)) = true) as Hj by now rewrite <- Hjob.
  assert (strict_eq (Api.status s) (VStr (lit "completed")) = true) as Hsc
    by (rewrite Hs; reflexivity).
  destruct r as [m|b|[g|m]]; cbn [App.on_images]; app_simpl;
    rewrite ?clearInterval_cells; app_simpl; rewrite Hc1;
    (split; [try exact Hn1; rewrite clearInterval_none; app_simpl; exact Hn1|]);
    rewrite render_with_job by exact Hj;
    cbn [App.jobStatus App.error App.generatedImages App.lastCampaignData
         App.isSensitiveContent truthy];
    rewrite Hsc; reflexivity.
Qed.

Lemma images_response_outcomes_witness :
  exists w1 k' w2,
    App.step (App.StatusResponse 0 (Api.HttpOk (Api.Json Examples.completed_status)))
             Examples.polling_world = Some w1
    /\ App.step (App.ImagesResponse k' (Api.HttpError (Api.BadJson [])))
                w1 = Some w2
    /\ App.render (App.cells w2) = [].
Proof.
  destruct (images_response_outcomes Examples.polling_world Examples.polling_timer 0
              Examples.completed_status (Api.HttpError (Api.BadJson [])))
    as (w1 & k' & w2 & H1 & _ & H2 & _ & Hr).
  - exists Examples.polling_events. vm_compute. reflexivity.
  - reflexivity.
  - reflexivity.
  - reflexivity.
  - reflexivity.
  - reflexivity.
  - exists w1, k', w2. split; [exact H1|]. split; [exact H2 | exact Hr].
Defined.

(** X18.  A status response that says neither [completed] nor [failed]
    (pending, processing, a missing or an unknown status) only replaces
    [jobStatus]: no error, nothing sent, and the interval stays, so that
    its next firing polls the same job again. *)
Theorem other_statuses_keep_polling (w : App.world) (t : App.timer) (k : nat)
    (s : Api.JobStatus) :
  App.interval w = Some t ->
  App.inflight w !! k = Some (App.AwaitStatus (App.timer_id t) (App.timer_jobId t)) ->
  Api.status s <> VStr (lit "completed") ->
  Api.status s <> VStr (lit "failed") ->
  exists w',
    App.step (App.StatusResponse k (Api.HttpOk (Api.Json s))) w = Some w'
    /\ App.cells w'
       = {| App.jobId := App.jobId (App.cells w); App.jobStatus := Some s;
            App.generatedImages := App.generatedImages (App.cells w);
            App.error := App.error (App.cells w);
            App.lastCampaignData := App.lastCampaignData (App.cells w) |}
    /\ App.sent w' = App.sent w
    /\ App.interval w' = Some t
    /\ exists w'',
         App.step App.Tick w' = Some w''
         /\ App.sent w'' = App.sent w ++ [Api.GetStatus (App.timer_jobId t)].
Proof.
  intros Hi Hk Hc Hf. cbn [App.step]. rewrite Hk.
  assert (forall v, Api.status s <> v -> strict_eq (Api.status s) v = false) as Hne.
  { intros v Hv. destruct (strict_eq (Api.status s) v) eqn:H; [|reflexivity].
    apply strict_eq_spec in H. contradiction. }
  pose proof (Hne _ Hc) as Hc'. pose proof (Hne _ Hf) as Hf'.
  eexists. split; [reflexivity|]. cbn [App.on_status]. rewrite Hc', Hf'.
  app_simpl. repeat (split; [reflexivity|]). split; [exact Hi|].
  rewrite Hi. eexists. split; reflexivity.
Qed.

Lemma other_statuses_keep_polling_witness :
  exists w',
    App.step (App.StatusResponse 0 (Api.HttpOk (Api.Json Examples2.processing_status)))
             Examples.polling_world = Some w'
    /\ App.interval w' = Some Examples.polling_timer.
Proof.
  destruct (other_statuses_keep_polling Examples.polling_world Examples.polling_timer 0
              Examples2.processing_status) as (w' & Hs & _ & _ & Hi & _).
  - reflexivity.
  - reflexivity.
  - intros H. discriminate H.
  - intros H. discriminate H.
  - exists w'. split; [exact Hs | exact Hi].
Defined.

(** X19.  After a status that says [failed] the progress card ('Generating
    Your Banners') stays on the page, above the error card: [jobId] is
    still set and [jobStatus] is the failed status, which is not
    [completed]. *)
Theorem failed_job_keeps_progress_card (w : App.world) (t : App.timer) (k : nat)
    (s : Api.JobStatus) :
  reachable w ->
  App.interval w = Some t ->
  App.inflight w !! k = Some (App.AwaitStatus (App.timer_id t) (App.timer_jobId t)) ->
  Api.status s = VStr (lit "failed") ->
  exists w' e rest,
    App.step (App.StatusResponse k (Api.HttpOk (Api.Json s))) w = Some w'
    /\ App.error (App.cells w') = Some e
    /\ App.render (App.cells w')
       = App.StatusCard s
         :: App.ErrorCard e (if truthy (App.isSensitiveContent e)
                             then [App.ModifyAndRetry; App.StartOver]
                             else [App.TryAgain])
         :: rest.
Proof.
  intros Hreach Hi Hk Hs.
  destruct (reachable_interval_ok w Hreach t Hi) as (_ & Htruthy & Hjob).
  assert (truthy (App.jobId (App.cells w)) = true) as Hj by now rewrite <- Hjob.
  cbn [App.step]. rewrite Hk. cbn [App.on_status]. rewrite Hs.
  rewrite strict_eq_failed_completed.
  assert (strict_eq (VStr (lit "failed")) (VStr (lit "failed")) = true) as ->
    by reflexivity.
  destruct (App.failure_info (Api.error s)) as [e|m];
    eexists _, _, _; (split; [reflexivity|]); app_simpl;
    rewrite ?clearInterval_cells; app_simpl; (split; [reflexivity|]);
    rewrite render_with_job by exact Hj;
    cbn [App.jobStatus App.error App.generatedImages App.lastCampaignData];
    rewrite Hs, strict_eq_failed_completed; reflexivity.
Qed.

Lemma failed_job_keeps_progress_card_witness :
  exists w' e rest,
    App.step (App.StatusResponse 0 (Api.HttpOk (Api.Json Examples.flagged_status)))
             Examples.polling_world = Some w'
    /\ App.error (App.cells w') = Some e
    /\ App.render (App.cells w')
       = App.StatusCard Examples.flagged_status
         :: App.ErrorCard e (if truthy (App.isSensitiveContent e)
                             then [App.ModifyAndRetry; App.StartOver]
                             else [App.TryAgain])
         :: rest.
Proof.
  apply (failed_job_keeps_progress_card Examples.polling_world
           Examples.polling_timer 0 Examples.flagged_status).
  - exists Examples.polling_events. vm_compute. reflexivity.
  - reflexivity.
  - reflexivity.
  - reflexivity.
Defined.

(** *** Late answers of an earlier job *)

Lemma on_status_next_timer (id : nat) (job : value)
    (r : Api.response Api.ErrorData Api.JobStatus) (w : App.world) :
  App.next_timer (App.on_status id job r w) = App.next_timer w.
Proof.
  assert (forall w0, App.next_timer (App.clearInterval id w0) = App.next_timer w0)
    as Hc by (intros w0; now destruct (clearInterval_frame id w0) as (_ & _ & _ & ->)).
  destruct r as [m|b|[s|m]]; cbn [App.on_status]; app_simpl; rewrite ?Hc;
    try reflexivity.
  destruct (strict_eq (Api.status s) (VStr (lit "completed"))).
  { app_simpl. now rewrite Hc. }
  destruct (strict_eq (Api.status s) (VStr (lit "failed"))); [|reflexivity].
  destruct (App.failure_info (Api.error s)); app_simpl; now rewrite ?Hc.
Qed.

Lemma on_images_next_timer (id : nat)
    (r : Api.response Api.ErrorData Api.GenerationResult) (w : App.world) :
  App.next_timer (App.on_images id r w) = App.next_timer w.
Proof.
  destruct (clearInterval_frame id w) as (_ & _ & _ & Hc).
  destruct r as [m|b|[g|m]]; cbn [App.on_images]; app_simpl; now rewrite ?Hc.
Qed.

(** A turn that registers no interval keeps the handles fresh, as long as
    what it suspends carries handles already used. *)
Lemma timers_fresh_shrink (w w' : App.world) :
  timers_fresh w ->
  App.next_timer w' = App.next_timer w ->
  (forall t, App.interval w' = Some t -> App.interval w = Some t) ->
  (forall x, In x (App.inflight w') ->
     In x (App.inflight w)
     \/ x = App.AwaitGenerate
     \/ (exists id job, x = App.AwaitImages id job /\ id < App.next_timer w)
     \/ (exists t, App.interval w = Some t
                   /\ x = App.AwaitStatus (App.timer_id t) (App.timer_jobId t))) ->
  timers_fresh w'.
Proof.
  intros (H1 & H2 & H3 & H4) Hn Hi Hin. unfold timers_fresh. rewrite Hn.
  split; [|split; [|split]].
  - intros t Ht. apply H1, Hi, Ht.
  - intros id job Hx.
    destruct (Hin _ Hx) as [Hold|[Hg|[(i & j & He & _)|(t & Ht & He)]]];
      try discriminate.
    + now apply (H2 id job).
    + injection He as -> ->. now apply H1.
  - intros id job Hx.
    destruct (Hin _ Hx) as [Hold|[Hg|[(i & j & He & Hlt)|(t & Ht & He)]]];
      try discriminate.
    + now apply (H3 id job).
    + now injection He as -> ->.
  - intros t id job Ht Hx Hid. apply Hi in Ht.
    destruct (Hin _ Hx) as [Hold|[Hg|[(i & j & He & _)|(t0 & Ht0 & He)]]];
      try discriminate.
    + now apply (H4 t id job).
    + injection He as -> ->. congruence.
Qed.

Lemma timers_fresh_setJobId (v : value) (w : App.world) :
  timers_fresh w -> timers_fresh (App.setJobId v w).
Proof.
  intros Hw. unfold App.setJobId.
  destruct (decide (App.jobId (App.cells w) = v)); [exact Hw|].
  destruct Hw as (H1 & H2 & H3 & H4).
  destruct (truthy v); unfold timers_fresh; cbn.
  - split; [|split; [|split]].
    + intros t [= <-]. cbn. lia.
    + intros id job Hx. specialize (H2 _ _ Hx). lia.
    + intros id job Hx. specialize (H3 _ _ Hx). lia.
    + intros t id job [= <-] Hx Hid. cbn in Hid. specialize (H2 _ _ Hx). lia.
  - split; [discriminate|]. split; [exact H2|]. split; [exact H3|]. discriminate.
Qed.

Lemma In_lookup {A} (l : list A) (k : nat) (x : A) : l !! k = Some x -> In x l.
Proof. intros H. apply list_elem_of_In. eapply list_elem_of_lookup_2. exact H. Qed.

Lemma step_timers_fresh (ev : App.event) (w w' : App.world) :
  timers_fresh w -> App.step ev w = Some w' -> timers_fresh w'.
Proof.
  intros Hw.
  assert (forall k, timers_fresh (App.resume k w)) as Hres.
  { intros k. apply (timers_fresh_shrink w); [exact Hw | reflexivity | auto |].
    intros x Hx. left. app_simpl. now apply In_delete in Hx. }
  destruct ev as [d|b| |k r|k r|k r]; cbn [App.step].
  - intros [= <-]. apply (timers_fresh_shrink w); [exact Hw | reflexivity | auto |].
    app_simpl. intros x Hx. apply in_app_or in Hx as [Hx|[<-|[]]]; auto.
  - intros [= <-].
    destruct (handleReset_frame b w) as (_ & Hinf & Hint).
    apply (timers_fresh_shrink w); [exact Hw | | |].
    + unfold App.handleReset, App.setJobId.
      destruct (decide (App.jobId (App.cells w) = VNull)); destruct b; reflexivity.
    + intros t Ht. destruct Hint as [Hint|Hint]; rewrite Hint in Ht; [discriminate|exact Ht].
    + intros x Hx. left. now rewrite Hinf in Hx.
  - destruct (App.interval w) as [t|] eqn:Hi; [|discriminate].
    intros [= <-]. apply (timers_fresh_shrink w); [exact Hw | reflexivity | auto |].
    app_simpl. intros x Hx. apply in_app_or in Hx as [Hx|[<-|[]]]; [auto|].
    right. right. right. now exists t.
  - destruct (App.inflight w !! k) as [[| |]|]; try discriminate.
    intros [= <-]. specialize (Hres k).
    destruct r as [m|[e|m]|[g|m]]; cbn [App.on_generate]; try exact Hres.
    exact (timers_fresh_setJobId _ _ Hres).
  - destruct (App.inflight w !! k) as [[|id job|]|] eqn:Hk; try discriminate.
    intros [= <-].
    assert (id < App.next_timer w) as Hid.
    { destruct Hw as (_ & H2 & _). apply (H2 id job). now apply In_lookup in Hk. }
    apply (timers_fresh_shrink (App.resume k w)); [apply Hres | | |].
    + apply on_status_next_timer.
    + intros t Ht. rewrite on_status_interval in Ht.
      destruct (stops_polling r); [|exact Ht].
      exact (clearInterval_shrinks _ _ _ Ht).
    + intros x Hx. rewrite on_status_inflight in Hx.
      apply in_app_or in Hx as [Hx|Hx]; [now left|].
      destruct (observes_completed _); [|destruct Hx].
      destruct Hx as [<-|[]]. right. right. left. now exists id, job.
  - destruct (App.inflight w !! k) as [[| |id job]|] eqn:Hk; try discriminate.
    intros [= <-].
    destruct (on_images_frame id r (App.resume k w)) as (_ & Hinf & Hint).
    apply (timers_fresh_shrink (App.resume k w)); [apply Hres | | |].
    + apply on_images_next_timer.
    + intros t Ht. destruct Hint as [Hint|Hint]; rewrite Hint in Ht; [exact Ht|].
      exact (clearInterval_shrinks _ _ _ Ht).
    + intros x Hx. left. now rewrite Hinf in Hx.
Qed.

Lemma reachable_timers_fresh (w : App.world) : reachable w -> timers_fresh w.
Proof.
  intros [evs Hrun].
  assert (forall w0, timers_fresh w0 -> App.run evs w0 = Some w -> timers_fresh w)
    as Hgen.
  { clear Hrun. induction evs as [|ev evs IH]; intros w0 H0; cbn [App.run].
    - now intros [= <-].
    - destruct (App.step ev w0) as [w1|] eqn:Hstep; [|discriminate].
      apply IH. exact (step_timers_fresh _ _ _ H0 Hstep). }
  apply (Hgen App.initial); [|exact Hrun].
  unfold timers_fresh. cbn. repeat split; try discriminate; intros; contradiction.
Qed.

(** X20.  The answer to a poll of an earlier job, arriving while another
    job is being polled, cannot stop the polling of the current job (its
    [clearInterval] names a handle that is no longer registered); but it
    is not told apart otherwise: its status replaces [jobStatus], and its
    failure puts an error on the page of the current job. *)
Theorem late_answer_of_earlier_job (w : App.world) (t : App.timer) (k id : nat)
    (job : value) (r : Api.response Api.ErrorData Api.JobStatus) :
  reachable w ->
  App.interval w = Some t ->
  App.inflight w !! k = Some (App.AwaitStatus id job) ->
  job <> App.timer_jobId t ->
  exists w',
    App.step (App.StatusResponse k r) w = Some w'
    /\ App.interval w' = Some t
    /\ match r with
       | Api.HttpOk (Api.Json s) => App.jobStatus (App.cells w') = Some s
       | Api.NetworkError m | Api.HttpOk (Api.BadJson m) =>
           App.error (App.cells w')
           = Some {| App.message := VStr m; App.isSensitiveContent := VBool false |}
       | Api.HttpError _ =>
           App.error (App.cells w')
           = Some {| App.message := VStr (lit "Failed to fetch status");
                     App.isSensitiveContent := VBool false |}
       end.
Proof.
  intros Hreach Hi Hk Hjob.
  destruct (reachable_timers_fresh w Hreach) as (_ & _ & _ & H4).
  assert (App.timer_id t <> id) as Hid.
  { intros He. apply Hjob. apply (H4 t id job Hi); [|now symmetry].
    now apply In_lookup in Hk. }
  assert (forall w0, App.interval w0 = Some t ->
                     App.interval (App.clearInterval id w0) = Some t) as Hkeep.
  { intros w0 H0. pose proof (clearInterval_interval id w0) as Hc.
    rewrite H0 in Hc. destruct (Nat.eqb_spec (App.timer_id t) id); [contradiction|].
    exact Hc. }
  cbn [App.step]. rewrite Hk. eexists. split; [reflexivity|]. split.
  - rewrite on_status_interval. destruct (stops_polling r); [|exact Hi].
    now apply Hkeep.
  - destruct r as [m|b|[s|m]]; cbn [App.on_status]; app_simpl; try reflexivity.
    destruct (strict_eq (Api.status s) (VStr (lit "completed"))).
    { app_simpl. now rewrite clearInterval_cells. }
    destruct (strict_eq (Api.status s) (VStr (lit "failed"))); [|reflexivity].
    destruct (App.failure_info (Api.error s)); app_simpl;
      rewrite !clearInterval_cells; reflexivity.
Qed.

Lemma late_answer_of_earlier_job_witness :
  exists w',
    App.step (App.StatusResponse 0 (Api.NetworkError (lit "Failed to fetch")))
             Examples2.second_job_world = Some w'
    /\ App.interval w'
       = Some {| App.timer_id := 1; App.delay := 2000;
                 App.timer_jobId := VStr (lit "job-2") |}
    /\ App.error (App.cells w')
       = Some {| App.message := VStr (lit "Failed to fetch");
                 App.isSensitiveContent := VBool false |}.
Proof.
  apply (late_answer_of_earlier_job Examples2.second_job_world
           {| App.timer_id := 1; App.delay := 2000;
              App.timer_jobId := VStr (lit "job-2") |}
           0 0 (VStr (lit "job-1")) (Api.NetworkError (lit "Failed to fetch"))).
  - exists Examples2.second_job_events. vm_compute. reflexivity.
  - vm_compute. reflexivity.
  - vm_compute. reflexivity.
  - intros H. discriminate H.
Defined.

(** *** The jobs the client asks about *)

Lemma jobs_known_mono (ids ids' : list value) (w : App.world) :
  (forall j, In j ids -> In j ids') -> jobs_known ids w -> jobs_known ids' w.
Proof.
  intros Hsub (H1 & H2 & H3). split; [|split].
  - intros t Ht. apply Hsub, (H1 t Ht).
  - intros k job Hk Hj. apply Hsub, (H2 k job Hk Hj).
  - intros r job Hr Hj. apply Hsub, (H3 r job Hr Hj).
Qed.

(** A turn that registers no interval and refers only to jobs already
    known keeps the jobs known. *)
Lemma jobs_known_shrink (ids : list value) (w w' : App.world) :
  jobs_known ids w ->
  (forall t, App.interval w' = Some t -> App.interval w = Some t) ->
  (forall k job, In k (App.inflight w') -> pending_job k = Some job ->
                 In k (App.inflight w) \/ In job ids) ->
  (forall r job, In r (App.sent w') -> request_job r = Some job ->
                 In r (App.sent w) \/ In job ids) ->
  jobs_known ids w'.
Proof.
  intros (H1 & H2 & H3) Hi Hk Hr. split; [|split].
  - intros t Ht. apply (H1 t), Hi, Ht.
  - intros k job Hin Hj. destruct (Hk k job Hin Hj) as [Hold|Hnew]; [|exact Hnew].
    exact (H2 k job Hold Hj).
  - intros r job Hin Hj. destruct (Hr r job Hin Hj) as [Hold|Hnew]; [|exact Hnew].
    exact (H3 r job Hold Hj).
Qed.

Lemma step_jobs_known (ids : list value) (ev : App.event) (w w' : App.world) :
  jobs_known ids w ->
  App.step ev w = Some w' ->
  jobs_known (ids ++ accepted_ids [ev]) w'.
Proof.
  intros Hw Hstep.
  assert (forall l, jobs_known ids w' -> jobs_known (ids ++ l) w') as Hweak.
  { intros l. apply jobs_known_mono. intros j Hj. apply in_or_app. now left. }
  assert (forall k, jobs_known ids (App.resume k w)) as Hres.
  { intros k. apply (jobs_known_shrink ids w); [exact Hw | auto | |].
    - intros x job Hx _. left. app_simpl. now apply In_delete in Hx.
    - intros r job Hr _. now left. }
  destruct ev as [d|b| |k r|k r|k r]; cbn [App.step] in Hstep.
  - injection Hstep as <-. apply Hweak.
    apply (jobs_known_shrink ids w); [exact Hw | auto | |]; app_simpl.
    + intros x job Hx Hj. apply in_app_or in Hx as [Hx|[<-|[]]]; [now left|].
      discriminate Hj.
    + intros r job Hr Hj. apply in_app_or in Hr as [Hr|[<-|[]]]; [now left|].
      discriminate Hj.
  - injection Hstep as <-. apply Hweak.
    destruct (handleReset_frame b w) as (Hs & Hinf & Hint).
    apply (jobs_known_shrink ids w); [exact Hw | | |].
    + intros t Ht. destruct Hint as [Hint|Hint]; rewrite Hint in Ht;
        [discriminate | exact Ht].
    + intros x job Hx _. left. now rewrite Hinf in Hx.
    + intros r job Hr _. left. now rewrite Hs in Hr.
  - destruct (App.interval w) as [t|] eqn:Hi; [|discriminate].
    injection Hstep as <-. apply Hweak.
    destruct Hw as (H1 & H2 & H3). pose proof (H1 t Hi) as Ht.
    split; [|split]; app_simpl.
    + exact H1.
    + intros x job Hx Hj. apply in_app_or in Hx as [Hx|[<-|[]]].
      * exact (H2 x job Hx Hj).
      * now injection Hj as <-.
    + intros r job Hr Hj. apply in_app_or in Hr as [Hr|[<-|[]]].
      * exact (H3 r job Hr Hj).
      * now injection Hj as <-.
  - destruct (App.inflight w !! k) as [[| |]|]; try discriminate.
    injection Hstep as <-. specialize (Hres k).
    destruct r as [m|[e|m]|[g|m]]; cbn [App.on_generate]; try (apply Hweak, Hres).
    cbn [accepted_ids omap]. destruct Hres as (H1 & H2 & H3).
    destruct (setJobId_sent (Api.accepted_job_id g) (App.resume k w)) as [Hs Hinf].
    split; [|split]; app_simpl.
    + intros t. unfold App.setJobId.
      destruct (decide _); [|destruct (truthy _)]; cbn.
      * intros Ht. apply in_or_app. left. exact (H1 t Ht).
      * intros [= <-]. apply in_or_app. right. now left.
      * discriminate.
    + rewrite Hinf. intros x job Hx Hj. apply in_or_app. left. exact (H2 x job Hx Hj).
    + rewrite Hs. intros x job Hx Hj. apply in_or_app. left. exact (H3 x job Hx Hj).
  - destruct (App.inflight w !! k) as [[|id job|]|] eqn:Hk; try discriminate.
    injection Hstep as <-. apply Hweak.
    assert (In job ids) as Hjob.
    { destruct Hw as (_ & H2 & _).
      apply (H2 (App.AwaitStatus id job) job); [|reflexivity].
      now apply In_lookup in Hk. }
    apply (jobs_known_shrink ids (App.resume k w)); [apply Hres | | |].
    + intros t Ht. rewrite on_status_interval in Ht.
      destruct (stops_polling r); [|exact Ht].
      exact (clearInterval_shrinks _ _ _ Ht).
    + intros x j Hx Hj. rewrite on_status_inflight in Hx.
      apply in_app_or in Hx as [Hx|Hx]; [now left|].
      destruct (observes_completed _); [|destruct Hx].
      destruct Hx as [<-|[]]. injection Hj as <-. now right.
    + intros x j Hx Hj. rewrite on_status_sent in Hx.
      apply in_app_or in Hx as [Hx|Hx]; [now left|].
      destruct (observes_completed _); [|destruct Hx].
      destruct Hx as [<-|[]]. injection Hj as <-. now right.
  - destruct (App.inflight w !! k) as [[| |id job]|] eqn:Hk; try discriminate.
    injection Hstep as <-. apply Hweak.
    destruct (on_images_frame id r (App.resume k w)) as (Hs & Hinf & Hint).
    apply (jobs_known_shrink ids (App.resume k w)); [apply Hres | | |].
    + intros t Ht. destruct Hint as [Hint|Hint]; rewrite Hint in Ht; [exact Ht|].
      exact (clearInterval_shrinks _ _ _ Ht).
    + intros x j Hx _. left. now rewrite Hinf in Hx.
    + intros x j Hx _. left. now rewrite Hs in Hx.
Qed.

Lemma accepted_ids_cons (ev : App.event) (evs : list App.event) :
  accepted_ids (ev :: evs) = accepted_ids [ev] ++ accepted_ids evs.
Proof.
  unfold accepted_ids. cbn [omap].
  destruct ev as [d|b| |k [m|e|[g|m]]|k r|k r]; reflexivity.
Qed.

(** X21.  The client never asks about a job the backend did not hand
    out: in every run from the mount, each [GET /api/status] and each
    [GET /api/images] names a [job_id] returned by an accepted
    [POST /api/generate] of that run, and so does the registered interval. *)
Theorem only_accepted_jobs_are_polled (evs : list App.event) (w : App.world) :
  App.run evs App.initial = Some w ->
  (forall job, In (Api.GetStatus job) (App.sent w) -> In job (accepted_ids evs))
  /\ (forall job, In (Api.GetImages job) (App.sent w) -> In job (accepted_ids evs))
  /\ (forall t, App.interval w = Some t -> In (App.timer_jobId t) (accepted_ids evs)).
Proof.
  intros Hrun.
  assert (forall ids w0, jobs_known ids w0 -> App.run evs w0 = Some w ->
                         jobs_known (ids ++ accepted_ids evs) w) as Hgen.
  { clear Hrun. induction evs as [|ev evs IH]; intros ids w0 H0; cbn [App.run].
    - intros [= <-]. cbn. now rewrite app_nil_r.
    - destruct (App.step ev w0) as [w1|] eqn:Hstep; [|discriminate].
      intros Hrun. rewrite accepted_ids_cons, app_assoc.
      apply (IH _ w1); [|exact Hrun]. exact (step_jobs_known _ _ _ _ H0 Hstep). }
  destruct (Hgen [] App.initial) as (H1 & _ & H3); [|exact Hrun|].
  { split; [discriminate|]. split; intros ? ? []. }
  cbn [app] in *. split; [|split].
  - intros job Hin. exact (H3 _ job Hin eq_refl).
  - intros job Hin. exact (H3 _ job Hin eq_refl).
  - exact H1.
Qed.

Lemma only_accepted_jobs_are_polled_witness :
  In (Api.GetStatus (VStr (lit "job-1"))) (App.sent Examples.polling_world)
  /\ In (VStr (lit "job-1")) (accepted_ids Examples.polling_events).
Proof.
  destruct (only_accepted_jobs_are_polled Examples.polling_events
              Examples.polling_world) as (H & _).
  - vm_compute. reflexivity.
  - assert (In (Api.GetStatus (VStr (lit "job-1")))
               (App.sent Examples.polling_world)) as Hin
      by (right; left; reflexivity).
    split; [exact Hin | exact (H _ Hin)].
Defined.

(** X22.  How [App] wires the gallery: the compliance check of a result
    is made with the result's brand name and with the translated campaign
    message when the result has one, the original message otherwise; and
    a result without brand name gets no compliance button on any item. *)
Theorem gallery_checks_use_result_fields (API_BASE_URL : jstring)
    (g : Api.GenerationResult) (st : ImageGallery.state)
    (imagePath : value) (imageIndex : nat) :
  let p := App.gallery_props API_BASE_URL g in
  (truthy (Api.result_brand_name g) = true ->
   truthy imagePath = true ->
   (ImageGallery.handleCheckCompliance_start p imagePath imageIndex st).2
   = Some (Api.PostCheckCompliance [imagePath] (Api.result_brand_name g)
             (if truthy (Api.translated_campaign_message g)
              then Api.translated_campaign_message g
              else Api.result_campaign_message g)))
  /\ (truthy (Api.result_brand_name g) = false ->
      forall imgs k it,
        ImageGallery.gallery_grid p st imgs !! k = Some (Some it) ->
        ImageGallery.item_check it = None).
Proof.
  cbn zeta. split.
  - intros Hb Hp. unfold ImageGallery.handleCheckCompliance_start.
    cbn [App.gallery_props ImageGallery.brandName ImageGallery.campaignMessage].
    rewrite Hb, Hp. reflexivity.
  - intros Hb imgs k it Hk. unfold ImageGallery.gallery_grid in Hk.
    rewrite list_lookup_imap in Hk.
    destruct (ImageGallery.filteredImages _ imgs !! k) as [img|]; [|discriminate].
    cbn in Hk. destruct (ImageGallery.getImageUrl _ img); [|discriminate].
    injection Hk as <-. cbn. now rewrite Hb.
Qed.

Lemma gallery_checks_use_result_fields_witness :
  (ImageGallery.handleCheckCompliance_start
     (App.gallery_props (lit "http://localhost:8000") Examples2.result)
     (VStr (lit "a/square.png")) 0 ImageGallery.initial).2
  = Some (Api.PostCheckCompliance [VStr (lit "a/square.png")]
            (VStr (lit "Acme")) (VStr (lit "Run far"))).
Proof.
  destruct (gallery_checks_use_result_fields (lit "http://localhost:8000")
              Examples2.result ImageGallery.initial (VStr (lit "a/square.png")) 0)
    as [H _].
  rewrite H; reflexivity.
Defined.

End AppMore.
